(** * reactor-c: the GEDF-NP scheduler and the watchdog subsystem

    A shallow embedding of
      - core/threaded/scheduler_instance.c  (init_sched_instance),
      - core/threaded/scheduler_GEDF_NP.c   (the scheduler proper),
      - core/threaded/watchdog.c            (watchdog threads),
    followed by the properties of the specification, each settled against
    the embedded code. *)

From stdpp Require Import gmap list.
From Stdlib Require Import ZArith Lia.

Local Open Scope Z_scope.

(** ** Machine integers

    [size_t] is taken to be 64 bits wide (LP64); values are kept in [Z] and
    every operation that can wrap has its wrap-around written out. *)

Definition SIZE_MAX : Z := 2 ^ 64 - 1.

(** Conversion to [size_t] (also the result of unsigned arithmetic). *)
Definition to_size_t (z : Z) : Z := z mod 2 ^ 64.

(** Conversion to [int32_t] / [int] (two's complement). *)
Definition to_int32 (z : Z) : Z := (z + 2 ^ 31) mod 2 ^ 32 - 2 ^ 31.

Definition size_t_range (z : Z) : Prop := 0 <= z <= SIZE_MAX.

(** [LF_MIN(a, b)] is [((a) < (b) ? (a) : (b))]. *)
Definition LF_MIN (a b : Z) : Z := if a <? b then a else b.

(** ** Reactions *)

(** [reaction_status_t]; the scheduler compares and swaps it as a 32-bit
    integer, which on an enumeration is an equality test and an update. *)
Inductive reaction_status_t : Set := inactive | queued | running.

#[global] Instance reaction_status_eq_dec : EqDecision reaction_status_t.
Proof. solve_decision. Defined.

(** The fields of [reaction_t] that the scheduler reads or writes. *)
Record reaction_t : Set := mk_reaction { index : Z; status : reaction_status_t }.

(** Reactions live in memory and are passed around by address: a
    [reaction_t*] is an address ([positive]), [NULL] is [None] where a
    possibly-null pointer is meant, and the memory is a finite map. *)
Definition set_status (r : reaction_t) (s : reaction_status_t) : reaction_t :=
  {| index := index r; status := s |}.

(** [lf_atomic_bool_compare_and_swap32(&p->status, oldval, newval)]:
    [None] when [p] does not point to a reaction. *)
Definition lf_atomic_bool_compare_and_swap32
    (h : gmap positive reaction_t) (p : positive)
    (oldval newval : reaction_status_t) : option (bool * gmap positive reaction_t) :=
  match h !! p with
  | None => None
  | Some r =>
      if decide (status r = oldval)
      then Some (true, <[p := set_status r newval]> h)
      else Some (false, h)
  end.

(** [get_reaction_index], the priority callback handed to [pqueue_init]. *)
Definition get_reaction_index (h : gmap positive reaction_t) (p : positive) : Z :=
  match h !! p with
  | Some r => index r
  | None => 0
  end.

Definition status_of (h : gmap positive reaction_t) (p : positive) : option reaction_status_t :=
  status <$> h !! p.

(** ** The reaction queue *)

Module Pqueue.

(** Modelled from the spec: the priority queue of pqueue.c, which lies
    outside the files embedded here.  The spec describes it as a priority
    queue ordered by [index] ascending (lower = earlier) supporting
    [insert], [pop] and [size]; it is kept as the list of queued addresses
    in pop order. *)
Abbreviation pqueue_t := (list positive).

Fixpoint pqueue_insert (getpri : positive -> Z) (q : pqueue_t) (e : positive) : pqueue_t :=
  match q with
  | [] => [e]
  | x :: q' =>
      if getpri e <? getpri x then e :: x :: q'
      else x :: pqueue_insert getpri q' e
  end.

Definition pqueue_pop (q : pqueue_t) : option positive * pqueue_t :=
  match q with
  | [] => (None, [])
  | x :: q' => (Some x, q')
  end.

Definition pqueue_size (q : pqueue_t) : Z := Z.of_nat (length q).

End Pqueue.
Import Pqueue.

(** ** Scheduler state *)

(** The two mutexes the scheduler takes: [array_of_mutexes[0]], which guards
    the reaction queue, and [env->mutex]. *)
Inductive mutex_id : Set := queue_mutex | env_mutex.

(** Calls into the platform layer that the properties below talk about. *)
Inductive event : Set :=
| EvLock (m : mutex_id)
| EvUnlock (m : mutex_id)
| EvSemRelease (n : Z).

(** [lf_scheduler_t] ([_lf_sched_instance_t] in scheduler_instance.c, where
    the fields carry the prefix [_lf_sched_]).

    [triggered_reactions] is the array of queues that [lf_sched_init]
    allocates; [executing_reactions] is a pointer to one of these queues and
    is kept as the number of the slot it aliases ([None] is [NULL]), so that
    an insertion through [triggered_reactions] is seen through
    [executing_reactions].  The semaphore is its permit count. *)
Record lf_scheduler_t : Set := mk_sched {
  triggered_reactions : list pqueue_t;
  executing_reactions : option nat;
  semaphore : Z;
  number_of_workers : Z;
  number_of_idle_workers : Z;
  next_reaction_level : Z;
  max_reaction_level : Z;
  should_stop : bool
}.

Definition set_triggered_reactions (v : list pqueue_t) (s : lf_scheduler_t) :=
  mk_sched v (executing_reactions s) (semaphore s) (number_of_workers s)
    (number_of_idle_workers s) (next_reaction_level s) (max_reaction_level s) (should_stop s).
Definition set_executing_reactions (v : option nat) (s : lf_scheduler_t) :=
  mk_sched (triggered_reactions s) v (semaphore s) (number_of_workers s)
    (number_of_idle_workers s) (next_reaction_level s) (max_reaction_level s) (should_stop s).
Definition set_semaphore (v : Z) (s : lf_scheduler_t) :=
  mk_sched (triggered_reactions s) (executing_reactions s) v (number_of_workers s)
    (number_of_idle_workers s) (next_reaction_level s) (max_reaction_level s) (should_stop s).
Definition set_number_of_workers (v : Z) (s : lf_scheduler_t) :=
  mk_sched (triggered_reactions s) (executing_reactions s) (semaphore s) v
    (number_of_idle_workers s) (next_reaction_level s) (max_reaction_level s) (should_stop s).
Definition set_number_of_idle_workers (v : Z) (s : lf_scheduler_t) :=
  mk_sched (triggered_reactions s) (executing_reactions s) (semaphore s) (number_of_workers s)
    v (next_reaction_level s) (max_reaction_level s) (should_stop s).
Definition set_next_reaction_level (v : Z) (s : lf_scheduler_t) :=
  mk_sched (triggered_reactions s) (executing_reactions s) (semaphore s) (number_of_workers s)
    (number_of_idle_workers s) v (max_reaction_level s) (should_stop s).
Definition set_max_reaction_level (v : Z) (s : lf_scheduler_t) :=
  mk_sched (triggered_reactions s) (executing_reactions s) (semaphore s) (number_of_workers s)
    (number_of_idle_workers s) (next_reaction_level s) v (should_stop s).
Definition set_should_stop (v : bool) (s : lf_scheduler_t) :=
  mk_sched (triggered_reactions s) (executing_reactions s) (semaphore s) (number_of_workers s)
    (number_of_idle_workers s) (next_reaction_level s) (max_reaction_level s) v.

(** [sched_params_t]; [num_reactions_per_level] is a pointer to an array
    ([None] is [NULL]). *)
Record sched_params_t : Set := mk_params {
  num_reactions_per_level : option (list Z);
  num_reactions_per_level_size : Z
}.

(** ** scheduler_instance.c *)

Section Init.

(** The macro is defined in scheduler_instance.h; its value is left open
    and is a parameter. *)
Variable DEFAULT_MAX_REACTION_LEVEL : Z.

(** What [calloc(1, sizeof(_lf_sched_instance_t))] returns. *)
Definition calloc_sched_instance : lf_scheduler_t :=
  mk_sched [] None 0 0 0 0 0 false.

(** [init_sched_instance(env, instance, number_of_workers, params)], with
    [*instance] passed in and handed back. *)
Definition init_sched_instance
    (instance : option lf_scheduler_t) (number_of_workers : Z)
    (params : option sched_params_t) : bool * option lf_scheduler_t :=
  match instance with
  | Some _ => (false, instance)
  | None =>
      let i0 := calloc_sched_instance in
      let i1 :=
        if match params with
           | None => true
           | Some p => num_reactions_per_level_size p =? 0
           end
        then set_max_reaction_level DEFAULT_MAX_REACTION_LEVEL i0
        else i0 in
      let i2 :=
        match params with
        | Some p =>
            match num_reactions_per_level p with
            | Some _ =>
                set_max_reaction_level
                  (to_size_t (num_reactions_per_level_size p - 1)) i1
            | None => i1
            end
        | None => i1
        end in
      let i3 := set_semaphore 0 i2 in
      let i4 := set_number_of_workers number_of_workers i3 in
      let i5 := set_next_reaction_level 1 i4 in
      let i6 := set_should_stop false i5 in
      (true, Some i6)
  end.

(** [lf_sched_init(env, number_of_workers, params)] on [env->scheduler]. *)
Definition lf_sched_init
    (scheduler : option lf_scheduler_t) (number_of_workers : Z)
    (params : option sched_params_t) : option lf_scheduler_t :=
  match init_sched_instance scheduler number_of_workers params with
  | (true, Some s) =>
      (* calloc(1, sizeof(pqueue_t* )) and pqueue_init for slot 0 *)
      let s1 := set_triggered_reactions [ ([] : pqueue_t) ] s in
      Some (set_executing_reactions (Some 0%nat) s1)
  | (_, inst) => inst
  end.

End Init.

(** ** The scheduler's view of the program state *)

(** Reaction memory, the scheduler instance, and the platform calls made so
    far (oldest first). *)
Record world : Type := mk_world {
  heap : gmap positive reaction_t;
  sched : lf_scheduler_t;
  log : list event
}.

Definition set_heap (h : gmap positive reaction_t) (w : world) : world :=
  mk_world h (sched w) (log w).
Definition set_sched (s : lf_scheduler_t) (w : world) : world :=
  mk_world (heap w) s (log w).
Definition upd_sched (f : lf_scheduler_t -> lf_scheduler_t) (w : world) : world :=
  mk_world (heap w) (f (sched w)) (log w).

(** How a call ends: it returns a value in a new state, reads the array
    [triggered_reactions] outside its bounds, dereferences an address that
    holds no reaction (or a null queue), leaves through
    [lf_print_error_and_exit], fails an [assert], or is cut off because the
    loop bound of the model is used up. *)
Inductive outcome (A : Type) : Type :=
| Ok (a : A) (w : world)
| OutOfBounds (i : Z)
| BadPointer
| ErrorExit
| AssertionFailed
| OutOfFuel.
Arguments Ok {A} a w.
Arguments OutOfBounds {A} i.
Arguments BadPointer {A}.
Arguments ErrorExit {A}.
Arguments AssertionFailed {A}.
Arguments OutOfFuel {A}.

Definition M (A : Type) : Type := world -> outcome A.

Definition ret {A} (a : A) : M A := fun w => Ok a w.

Definition bind {A B} (c : M A) (k : A -> M B) : M B :=
  fun w =>
    match c w with
    | Ok a w' => k a w'
    | OutOfBounds i => OutOfBounds i
    | BadPointer => BadPointer
    | ErrorExit => ErrorExit
    | AssertionFailed => AssertionFailed
    | OutOfFuel => OutOfFuel
    end.

Notation "x <~ c ;; k" := (bind c (fun x => k))
  (at level 100, c at next level, right associativity).
Notation "c ;;; k" := (bind c (fun _ => k))
  (at level 100, right associativity).

Definition emit (e : event) : M unit :=
  fun w => Ok tt (mk_world (heap w) (sched w) (log w ++ [e])).

Definition LF_MUTEX_LOCK (m : mutex_id) : M unit := emit (EvLock m).
Definition LF_MUTEX_UNLOCK (m : mutex_id) : M unit := emit (EvUnlock m).

Definition get_sched : M lf_scheduler_t := fun w => Ok (sched w) w.
Definition modify_sched (f : lf_scheduler_t -> lf_scheduler_t) : M unit :=
  fun w => Ok tt (upd_sched f w).

(** Modelled from the spec: [lf_semaphore_release(semaphore, n)] of
    lf_semaphore.c, outside the files embedded here; the spec lists it as
    [release(count)], which hands out [count] permits. *)
Definition lf_semaphore_release (n : Z) : M unit :=
  modify_sched (fun s => set_semaphore (semaphore s + n) s) ;;;
  emit (EvSemRelease n).

(** [((pqueue_t** )scheduler->triggered_reactions)[i]] *)
Definition read_triggered_reactions (i : Z) : M pqueue_t :=
  fun w =>
    match triggered_reactions (sched w) !! Z.to_nat i with
    | Some q => Ok q w
    | None => OutOfBounds i
    end.

(** A store through a queue pointer obtained from slot [i]. *)
Definition write_queue (i : nat) (q : pqueue_t) : M unit :=
  modify_sched (fun s => set_triggered_reactions (<[i := q]> (triggered_reactions s)) s).

(** The queue [scheduler->executing_reactions] points to, with its slot. *)
Definition deref_executing_reactions : M (nat * pqueue_t) :=
  fun w =>
    match executing_reactions (sched w) with
    | None => BadPointer
    | Some i =>
        match triggered_reactions (sched w) !! i with
        | Some q => Ok (i, q) w
        | None => BadPointer
        end
    end.

(** ** scheduler_GEDF_NP.c *)

Definition _lf_sched_insert_reaction (reaction : positive) : M unit :=
  LF_MUTEX_LOCK queue_mutex ;;;
  q <~ read_triggered_reactions 0 ;;
  (fun w => write_queue 0 (pqueue_insert (get_reaction_index (heap w)) q reaction) w) ;;;
  LF_MUTEX_UNLOCK queue_mutex.

(** Modelled from the spec: [try_advance_level(env, &level)] of
    scheduler_sync_tag_advance.c, outside the files embedded here; per the
    spec it increments [level] (and may block on federated peers, which
    changes nothing here). *)
Definition try_advance_level : M unit :=
  modify_sched (fun s => set_next_reaction_level (to_size_t (next_reaction_level s + 1)) s).

(** The [while] loop of [_lf_sched_distribute_ready_reactions]; the result
    is the [int] the function returns. *)
Fixpoint distribute_loop (fuel : nat) : M Z :=
  match fuel with
  | O => fun _ => OutOfFuel
  | S fuel' =>
      s <~ get_sched ;;
      if next_reaction_level s <=? max_reaction_level s then
        try_advance_level ;;;
        s' <~ get_sched ;;
        let slot := to_size_t (next_reaction_level s' - 1) in
        tmp_queue <~ read_triggered_reactions slot ;;
        let reactions_to_execute := pqueue_size tmp_queue in
        if negb (reactions_to_execute =? 0) then
          modify_sched (set_executing_reactions (Some (Z.to_nat slot))) ;;;
          ret (to_int32 reactions_to_execute)
        else distribute_loop fuel'
      else ret 0
  end.

Definition _lf_sched_distribute_ready_reactions (fuel : nat) : M Z :=
  distribute_loop fuel.

Definition _lf_sched_notify_workers : M unit :=
  s <~ get_sched ;;
  exq <~ deref_executing_reactions ;;
  let workers_to_awaken := LF_MIN (number_of_idle_workers s) (pqueue_size (snd exq)) in
  modify_sched (fun s => set_number_of_idle_workers
                           (to_size_t (number_of_idle_workers s - workers_to_awaken)) s) ;;;
  if workers_to_awaken >? 1 then
    lf_semaphore_release (to_size_t (workers_to_awaken - 1))
  else ret tt.

Definition _lf_sched_signal_stop : M unit :=
  modify_sched (set_should_stop true) ;;;
  s <~ get_sched ;;
  lf_semaphore_release (to_size_t (number_of_workers s - 1)).

(** [lf_atomic_add_fetch32((int32_t* )&scheduler->number_of_idle_workers, v)]:
    the 32-bit cell operated on is the low half of the [size_t] field
    (little-endian layout); the result is the new value of the cell. *)
Definition lf_atomic_add_fetch32_idle (v : Z) : M Z :=
  fun w =>
    let field := number_of_idle_workers (sched w) in
    let new := to_int32 (to_int32 field + v) in
    let field' := field / 2 ^ 32 * 2 ^ 32 + new mod 2 ^ 32 in
    Ok new (upd_sched (set_number_of_idle_workers field') w).

Definition c_assert (b : bool) : M unit :=
  fun w => if b then Ok tt w else AssertionFailed.

Section Workers.

(** [_lf_sched_advance_tag_locked(scheduler)] belongs to
    scheduler_sync_tag_advance.c and [lf_semaphore_acquire] to
    lf_semaphore.c; both are parameters.  The first returns [true] when the
    stop tag is reached; the second returns once another thread has handed
    out a permit, in whatever state the other threads have produced. *)
Variable _lf_sched_advance_tag_locked : M bool.
Variable lf_semaphore_acquire : M unit.

(** The [while (true)] loop of [_lf_scheduler_try_advance_tag_and_distribute];
    [dfuel] bounds the inner loop of the distribution. *)
Fixpoint advance_tag_loop (dfuel fuel : nat) : M unit :=
  match fuel with
  | O => fun _ => OutOfFuel
  | S fuel' =>
      s <~ get_sched ;;
      stopped <~
        (if next_reaction_level s =? to_size_t (max_reaction_level s + 1) then
           modify_sched (set_next_reaction_level 0) ;;;
           LF_MUTEX_LOCK env_mutex ;;;
           stop_tag <~ _lf_sched_advance_tag_locked ;;
           if stop_tag then
             _lf_sched_signal_stop ;;;
             LF_MUTEX_UNLOCK env_mutex ;;;
             ret true
           else
             LF_MUTEX_UNLOCK env_mutex ;;;
             ret false
         else ret false) ;;
      if stopped then ret tt
      else
        n <~ _lf_sched_distribute_ready_reactions dfuel ;;
        if n >? 0 then _lf_sched_notify_workers
        else advance_tag_loop dfuel fuel'
  end.

Definition _lf_scheduler_try_advance_tag_and_distribute (dfuel fuel : nat) : M unit :=
  exq <~ deref_executing_reactions ;;
  c_assert (pqueue_size (snd exq) =? 0) ;;;
  advance_tag_loop dfuel fuel.

Definition _lf_sched_wait_for_work (dfuel fuel : nat) (worker_number : Z) : M unit :=
  idle <~ lf_atomic_add_fetch32_idle 1 ;;
  s <~ get_sched ;;
  if to_size_t idle =? number_of_workers s then
    _lf_scheduler_try_advance_tag_and_distribute dfuel fuel
  else
    lf_semaphore_acquire.

(** The critical section of [lf_sched_get_ready_reaction]:
    [pqueue_pop(scheduler->executing_reactions)] between lock and unlock
    of [array_of_mutexes[0]]. *)
Definition pop_executing_reactions : M (option positive) :=
  LF_MUTEX_LOCK queue_mutex ;;;
  exq <~ deref_executing_reactions ;;
  write_queue (fst exq) (snd (pqueue_pop (snd exq))) ;;;
  LF_MUTEX_UNLOCK queue_mutex ;;;
  ret (fst (pqueue_pop (snd exq))).

(** [lf_sched_get_ready_reaction(scheduler, worker_number)]; [None] is the
    [NULL] result.  [fuel] bounds the number of iterations of its loop;
    the tracepoint calls have no effect on the scheduler and are left out. *)
Fixpoint lf_sched_get_ready_reaction (dfuel afuel fuel : nat) (worker_number : Z)
    : M (option positive) :=
  match fuel with
  | O => fun _ => OutOfFuel
  | S fuel' =>
      s <~ get_sched ;;
      if negb (should_stop s) then
        reaction_to_return <~ pop_executing_reactions ;;
        match reaction_to_return with
        | Some r => ret (Some r)
        | None =>
            _lf_sched_wait_for_work dfuel afuel worker_number ;;;
            lf_sched_get_ready_reaction dfuel afuel fuel' worker_number
        end
      else ret None
  end.

End Workers.

(** [lf_sched_done_with_reaction(worker_number, done_reaction)] *)
Definition lf_sched_done_with_reaction (worker_number : Z) (done_reaction : positive) : M unit :=
  fun w =>
    match lf_atomic_bool_compare_and_swap32 (heap w) done_reaction queued inactive with
    | None => BadPointer
    | Some (true, h') => Ok tt (set_heap h' w)
    | Some (false, _) => ErrorExit
    end.

(** [lf_scheduler_trigger_reaction(scheduler, reaction, worker_number)];
    [reaction] may be [NULL]. *)
Definition lf_scheduler_trigger_reaction (reaction : option positive) (worker_number : Z) : M unit :=
  fun w =>
    match reaction with
    | None => Ok tt w
    | Some r =>
        match lf_atomic_bool_compare_and_swap32 (heap w) r inactive queued with
        | None => BadPointer
        | Some (false, _) => Ok tt w
        | Some (true, h') => _lf_sched_insert_reaction r (set_heap h' w)
        end
    end.

(** ** watchdog.c *)

Module Watchdog.

(** The fields of [watchdog_t] that watchdog.c reads or writes. *)
Record watchdog_t : Set := mk_watchdog {
  expiration : Z;
  min_expiration : Z;
  active : bool;
  terminate : bool
}.

Definition set_expiration (v : Z) (w : watchdog_t) : watchdog_t :=
  mk_watchdog v (min_expiration w) (active w) (terminate w).
Definition set_active (v : bool) (w : watchdog_t) : watchdog_t :=
  mk_watchdog (expiration w) (min_expiration w) v (terminate w).
Definition set_terminate (v : bool) (w : watchdog_t) : watchdog_t :=
  mk_watchdog (expiration w) (min_expiration w) (active w) v.

(** Platform calls and handler invocations; the number is the position of
    the watchdog in [env->watchdogs]. *)
Inductive wevent : Set :=
| WLock (i : nat)
| WUnlock (i : nat)
| WCondSignal (i : nat)
| WThreadJoin (i : nat)
| WHandler.

#[global] Instance wevent_eq_dec : EqDecision wevent.
Proof. solve_decision. Defined.

(** Program points of [watchdog_thread_main] (with [watchdog_wait] inlined)
    at which the thread can be observed.  The time carried by [WaitCheck]
    and [AfterWait] is the local [physical_time] of [watchdog_wait]. *)
Inductive pc_t : Set :=
| LoopTop                       (* top of [while (true)] *)
| CondWait                      (* blocked in [lf_cond_wait] *)
| WaitEntry                     (* entering [watchdog_wait] *)
| WaitCheck (physical_time : Z) (* loop condition of [watchdog_wait] *)
| TimedWait                     (* blocked in [lf_cond_timedwait] *)
| AfterWait (physical_time : Z) (* [watchdog_wait] has returned *)
| Terminate                     (* label [terminate] *)
| Exited.                       (* after [return NULL] *)

Record thread_state : Set := mk_thread { pc : pc_t; wd : watchdog_t }.

(** What the rest of the program contributes to one step of the thread:
    the writes other threads made to the watchdog while the thread was
    blocked with the reactor mutex released, and the value the next
    [lf_time_physical()] returns. *)
Record input : Type := mk_input {
  interference : watchdog_t -> watchdog_t;
  time : Z
}.

Section WatchdogCode.

(** [NEVER] comes from tag.h and the handler from the generated reactor
    code; both are parameters.  The handler is given the reactor's self
    struct and may therefore write to the watchdog. *)
Variable NEVER : Z.
Variable watchdog_function : watchdog_t -> watchdog_t.

(** [instant_t] and [interval_t] are [int64_t]; a sum that leaves the
    range is stored modulo [2^64], as two's complement. *)
Definition int64_range (z : Z) : Prop := - 2 ^ 63 <= z < 2 ^ 63.
Definition to_int64 (z : Z) : Z := (z + 2 ^ 63) mod 2 ^ 64 - 2 ^ 63.

(** [lf_watchdog_start(watchdog, additional_timeout)], with
    [base->environment->current_tag.time] passed in.  The two additions of
    line 150 are done left to right in [int64_t]. *)
Definition lf_watchdog_start (i : nat) (current_tag_time additional_timeout : Z)
    (w : watchdog_t) : watchdog_t * list wevent :=
  let w1 := set_terminate false w in
  let w2 := set_expiration
              (to_int64 (to_int64 (current_tag_time + min_expiration w1)
                         + additional_timeout)) w1 in
  if negb (active w2) then (w2, [WCondSignal i]) else (w2, []).

(** [lf_watchdog_stop(watchdog)] *)
Definition lf_watchdog_stop (i : nat) (w : watchdog_t) : watchdog_t * list wevent :=
  if negb (active w) then (w, [])
  else (set_expiration NEVER w, [WCondSignal i]).

(** [_lf_watchdog_terminate(watchdog_t* watchdog)] *)
Definition _lf_watchdog_terminate (i : nat) (w : watchdog_t) : watchdog_t * list wevent :=
  (set_expiration NEVER (set_terminate true w), [WCondSignal i]).

(** The body of the [for] loop of [_lf_watchdog_terminate(environment_t* env)]
    for the watchdog in position [i]. *)
Definition terminate_env_body (i : nat) (w : watchdog_t) : watchdog_t * list wevent :=
  let '(w', evs) := lf_watchdog_stop i w in
  (w', [WLock i] ++ evs ++ [WUnlock i; WThreadJoin i]).

(** The loop from position [i] on. *)
Fixpoint terminate_env_loop (i : nat) (ws : list watchdog_t) : list watchdog_t * list wevent :=
  match ws with
  | [] => ([], [])
  | w :: rest =>
      let '(w', evs) := terminate_env_body i w in
      let '(rest', evs') := terminate_env_loop (S i) rest in
      (w' :: rest', evs ++ evs')
  end.

(** [_lf_watchdog_terminate(environment_t* env)], on [env->watchdogs]; the
    source gives it the same name as the function on one watchdog. *)
Definition _lf_watchdog_terminate_env (watchdogs : list watchdog_t)
    : list watchdog_t * list wevent :=
  terminate_env_loop 0 watchdogs.

(** The loop condition of [watchdog_wait]. *)
Definition keep_waiting (physical_time : Z) (w : watchdog_t) : bool :=
  negb (expiration w =? NEVER) && (physical_time <? expiration w) && negb (terminate w).

(** One step of [watchdog_thread_main], from one program point to the next.
    The field the source spells [expirateion] is read as [expiration]. *)
Definition step (i : input) (st : thread_state) : thread_state * list wevent :=
  let w := wd st in
  match pc st with
  | LoopTop =>
      if terminate w then (mk_thread Terminate w, [])
      else if negb (expiration w =? NEVER) then (mk_thread WaitEntry w, [])
      else (mk_thread CondWait w, [])
  | CondWait =>
      (* woken from lf_cond_wait: the do-while condition, then the check *)
      let w' := interference i w in
      if (expiration w' =? NEVER) && negb (terminate w') then (mk_thread CondWait w', [])
      else if terminate w' then (mk_thread Terminate w', [])
      else (mk_thread WaitEntry w', [])
  | WaitEntry =>
      (mk_thread (WaitCheck (time i)) (set_active true w), [])
  | WaitCheck physical_time =>
      if keep_waiting physical_time w then (mk_thread TimedWait w, [])
      else (mk_thread (AfterWait physical_time) w, [])
  | TimedWait =>
      (* woken from lf_cond_timedwait, then physical_time = lf_time_physical() *)
      (mk_thread (WaitCheck (time i)) (interference i w), [])
  | AfterWait _ =>
      if terminate w then (mk_thread Terminate w, [])
      else if expiration w =? NEVER then (mk_thread LoopTop w, [])
      else (mk_thread LoopTop (set_active false (watchdog_function w)), [WHandler])
  | Terminate =>
      (mk_thread Exited (set_active false w), [WUnlock 0])
  | Exited => (st, [])
  end.

(** Whether the handler is due for a watchdog [w] observed at physical
    time [physical_time]. *)
Definition handler_due (physical_time : Z) (w : watchdog_t) : bool :=
  negb (terminate w) && negb (expiration w =? NEVER) && (expiration w <=? physical_time).

(** The thread run over a sequence of inputs, one per step. *)
Fixpoint run (ins : list input) (st : thread_state) : thread_state * list wevent :=
  match ins with
  | [] => (st, [])
  | i :: ins' =>
      let '(st', evs) := step i st in
      let '(st'', evs') := run ins' st' in
      (st'', evs ++ evs')
  end.

(** The thread starts at the top of its loop, holding the reactor mutex. *)
Definition watchdog_thread_main (ins : list input) (w : watchdog_t)
    : thread_state * list wevent :=
  run ins (mk_thread LoopTop w).

End WatchdogCode.

End Watchdog.

(** ** Vocabulary of the properties *)

(** The state a successful trigger of [r] leads to: the status is swapped
    to [queued], [r] is inserted into the queue of slot 0, and the queue
    mutex has been locked and unlocked. *)
Definition triggered (r : positive) (rec : reaction_t) (q0 : pqueue_t)
    (rest : list pqueue_t) (w : world) : world :=
  let h' := <[r := set_status rec queued]> (heap w) in
  mk_world h'
    (set_triggered_reactions (pqueue_insert (get_reaction_index h') q0 r :: rest) (sched w))
    (log w ++ [EvLock queue_mutex; EvUnlock queue_mutex]).

(** [n] calls in a row, one per worker number in the list. *)
Fixpoint trigger_calls (r : positive) (wns : list Z) : M unit :=
  match wns with
  | [] => ret tt
  | wn :: wns' => lf_scheduler_trigger_reaction (Some r) wn ;;; trigger_calls r wns'
  end.

(** Sample states: one inactive reaction at address 1 and a freshly
    initialised scheduler for two workers; and four idle workers facing
    three queued reactions. *)
Definition sample_world : world :=
  mk_world {[ 1%positive := mk_reaction 5 inactive ]}
    (mk_sched [ [] ] (Some 0%nat) 0 2 0 1 2 false) [].

Definition sample_world_idle : world :=
  mk_world {[ 1%positive := mk_reaction 5 queued;
              2%positive := mk_reaction 6 queued;
              3%positive := mk_reaction 7 queued ]}
    (mk_sched [ [1%positive; 2%positive; 3%positive] ] (Some 0%nat) 0 4 4 1 2 false) [].

(** The states in which [lf_sched_get_ready_reaction], called in [w],
    evaluates its loop condition: [w] itself, and any state reached from
    such a state by finding [should_stop] false, popping nothing and
    returning from [_lf_sched_wait_for_work]. *)
Inductive loop_top (advance_tag : M bool) (acquire : M unit)
    (dfuel afuel : nat) (worker_number : Z) : world -> world -> Prop :=
| loop_top_entry w : loop_top advance_tag acquire dfuel afuel worker_number w w
| loop_top_again w w1 w2 w3 :
    should_stop (sched w) = false ->
    pop_executing_reactions w = Ok None w1 ->
    _lf_sched_wait_for_work advance_tag acquire dfuel afuel worker_number w1 = Ok tt w2 ->
    loop_top advance_tag acquire dfuel afuel worker_number w2 w3 ->
    loop_top advance_tag acquire dfuel afuel worker_number w w3.

(** A semaphore on which an acquire returns at once, and a tag advance
    that reports the stop tag. *)
Definition acquire_now : M unit := ret tt.
Definition advance_to_stop : M bool := ret true.

(** *** The calling protocol

    Threads interleave at the atomic operations and critical sections of
    the worker API, and a worker passes to [lf_sched_done_with_reaction]
    only a reaction that [lf_sched_get_ready_reaction] handed to it.  A
    protocol state is the program state together with two sets that the
    code does not store: the reactions handed out and not yet reported
    done, and the reactions whose status a
    [lf_scheduler_trigger_reaction] has swapped to [queued] (line 296)
    and not yet inserted (line 300). *)
Record proto_state : Type := mk_proto {
  pworld : world;
  in_flight : gset positive;
  inserting : gset positive
}.

(** The queue of slot 0, the reaction queue. *)
Definition reaction_queue (w : world) : pqueue_t :=
  default [] (triggered_reactions (sched w) !! 0%nat).

Definition on_queue (w : world) (r : positive) : Prop := r ∈ reaction_queue w.

(** What a pop hands to the worker. *)
Definition handed (res : option positive) : gset positive :=
  match res with
  | Some r => {[ r ]}
  | None => ∅
  end.

(** A change that leaves the reactions and the queues alone and keeps
    [executing_reactions] or points it to an allocated queue: what the
    rest of the scheduler does when it writes the idle count (lines 86,
    155), the level (lines 60, 121), the stop flag (line 100), the
    semaphore (lines 91, 101, 167) or [executing_reactions] (line 66), or
    takes the environment mutex (lines 122, 129, 132). *)
Definition queue_frame (w w' : world) : Prop :=
  heap w' = heap w /\
  triggered_reactions (sched w') = triggered_reactions (sched w) /\
  (executing_reactions (sched w') = executing_reactions (sched w) \/
   exists i, executing_reactions (sched w') = Some i /\
             (i < length (triggered_reactions (sched w)))%nat).

Definition frames {A : Type} (c : M A) : Prop :=
  forall w a w', c w = Ok a w' -> queue_frame w w'.

(** The steps at which threads interleave: the swap of a trigger when it
    succeeds (line 296), its insertion (line 300), a pop (lines 241-244),
    the swap of a completion when it succeeds (line 273), and any change
    of the other kind, at whatever granularity. *)
Inductive action : Set :=
| ASwap (r : positive)
| AInsert (r : positive)
| APop (res : option positive)
| ADone (r : positive)
| ABookkeeping.

Inductive sched_step : action -> proto_state -> proto_state -> Prop :=
| step_swap w fl ins r h' :
    lf_atomic_bool_compare_and_swap32 (heap w) r inactive queued = Some (true, h') ->
    sched_step (ASwap r) (mk_proto w fl ins) (mk_proto (set_heap h' w) fl (ins ∪ {[ r ]}))
| step_insert w fl ins r w' :
    r ∈ ins ->
    _lf_sched_insert_reaction r w = Ok tt w' ->
    sched_step (AInsert r) (mk_proto w fl ins) (mk_proto w' fl (ins ∖ {[ r ]}))
| step_pop w fl ins res w' :
    pop_executing_reactions w = Ok res w' ->
    sched_step (APop res) (mk_proto w fl ins) (mk_proto w' (fl ∪ handed res) ins)
| step_done w fl ins r wn w' :
    r ∈ fl ->
    lf_sched_done_with_reaction wn r w = Ok tt w' ->
    sched_step (ADone r) (mk_proto w fl ins) (mk_proto w' (fl ∖ {[ r ]}) ins)
| step_bookkeeping w fl ins w' :
    queue_frame w w' ->
    sched_step ABookkeeping (mk_proto w fl ins) (mk_proto w' fl ins).

(** A run: the steps of all threads in the order in which they take
    effect. *)
Inductive sched_run : list action -> proto_state -> proto_state -> Prop :=
| run_nil st : sched_run [] st st
| run_cons a acts st st1 st2 :
    sched_step a st st1 -> sched_run acts st1 st2 -> sched_run (a :: acts) st st2.

(** The states right after [lf_sched_init], all reactions inactive. *)
Definition initial (D : Z) (st : proto_state) : Prop :=
  exists nw params s h,
    lf_sched_init D None nw params = Some s /\
    pworld st = mk_world h s [] /\
    in_flight st = ∅ /\
    inserting st = ∅ /\
    (forall r rec, h !! r = Some rec -> status rec = inactive).

Inductive reachable (D : Z) : proto_state -> Prop :=
| reach_initial st : initial D st -> reachable D st
| reach_step a st st' : reachable D st -> sched_step a st st' -> reachable D st'.

(** A computation that keeps the state among the reachable ones.  This is
    what is assumed of [_lf_sched_advance_tag_locked], which triggers the
    reactions of the next tag, and of [lf_semaphore_acquire], during which
    the other threads take their steps. *)
Definition keeps_reachable (D : Z) {A : Type} (c : M A) : Prop :=
  forall st a w',
    reachable D st ->
    c (pworld st) = Ok a w' ->
    exists st', reachable D st' /\ pworld st' = w'.

(** What holds in every reachable protocol state. *)
Definition queue_inv (st : proto_state) : Prop :=
  let w := pworld st in
  exists q,
    triggered_reactions (sched w) = [q] /\
    executing_reactions (sched w) = Some 0%nat /\
    NoDup q /\
    (forall r, r ∈ q ->
       status_of (heap w) r = Some queued /\ (r ∉ in_flight st) /\ (r ∉ inserting st)) /\
    (forall r, r ∈ in_flight st ->
       status_of (heap w) r = Some queued /\ (r ∉ inserting st)) /\
    (forall r, r ∈ inserting st -> status_of (heap w) r = Some queued) /\
    (forall r, status_of (heap w) r = Some queued ->
       r ∈ q \/ r ∈ in_flight st \/ r ∈ inserting st).

(** A short run: initialise for two workers with default parameters, trigger
    the reaction at address 1, and let a worker fetch it. *)
Definition demo_world0 : world :=
  mk_world {[ 1%positive := mk_reaction 5 inactive ]}
    (mk_sched [ [] ] (Some 0%nat) 0 2 0 1 100 false) [].

(** The swap of the trigger has been done, the insertion not yet. *)
Definition demo_world_swapped : world :=
  set_heap (<[ 1%positive := mk_reaction 5 queued ]> (heap demo_world0)) demo_world0.

Definition demo_world1 : world :=
  triggered 1%positive (mk_reaction 5 inactive) [] [] demo_world0.

Definition demo_world2 : world :=
  mk_world (heap demo_world1)
    (set_triggered_reactions [ [] ] (sched demo_world1))
    (log demo_world1 ++ [EvLock queue_mutex; EvUnlock queue_mutex]).

Definition demo_swapped : proto_state := mk_proto demo_world_swapped ∅ (∅ ∪ {[ 1%positive ]}).

Definition demo_triggered : proto_state :=
  mk_proto demo_world1 ∅ ((∅ ∪ {[ 1%positive ]}) ∖ {[ 1%positive ]}).

Definition demo_fetched : proto_state :=
  mk_proto demo_world2 (∅ ∪ handed (Some 1%positive))
    ((∅ ∪ {[ 1%positive ]}) ∖ {[ 1%positive ]}).

(** The run goes on: the worker finds nothing more, counts itself idle,
    and the stop signal is given. *)
Definition demo_world_idle : world :=
  upd_sched (set_number_of_idle_workers 1) demo_world2.

Definition demo_world_stopped : world :=
  mk_world (heap demo_world2)
    (mk_sched [ [] ] (Some 0%nat) 1 2 1 1 100 true)
    (log demo_world2 ++ [EvSemRelease 1]).

Definition demo_stopped : proto_state :=
  mk_proto demo_world_stopped (in_flight demo_fetched) (inserting demo_fetched).

(** ** Vocabulary of the further properties *)

(** A computation keeps the stop flag: started with [should_stop] set, it
    returns only with [should_stop] set. *)
Definition stop_stable {A : Type} (c : M A) : Prop :=
  forall w a w',
    should_stop (sched w) = true -> c w = Ok a w' -> should_stop (sched w') = true.

(** A tag advance that reports the stop tag after changing the state by [g]. *)
Definition advance_stop_after (g : world -> world) : M bool :=
  fun w => Ok true (g w).

(** A tag advance that does not reach the stop tag and leaves the program
    in state [w2] with the level counter at 0. *)
Definition advance_with_work (w2 : world) : M bool :=
  fun _ => Ok false (upd_sched (set_next_reaction_level 0) w2).

(** One worker, one level, nothing queued, the level counter past the last
    level. *)
Definition sample_world_drained : world :=
  mk_world {[ 1%positive := mk_reaction 5 inactive ]}
    (mk_sched [ [] ] (Some 0%nat) 0 1 0 1 0 false) [].

(** *** Watchdog threads *)

Module WatchdogRuns.
Import Watchdog.

(** An upper bound on the number of steps [watchdog_thread_main] needs to
    reach its exit from a program point once [terminate] is set. *)
Definition steps_to_exit (p : pc_t) : nat :=
  match p with
  | Exited => 0
  | Terminate => 1
  | LoopTop | CondWait | AfterWait _ => 2
  | WaitCheck _ => 3
  | WaitEntry | TimedWait => 4
  end.

(** What another thread does to a watchdog by calling
    [lf_watchdog_stop], [lf_watchdog_start] or
    [_lf_watchdog_terminate(watchdog_t* )] while the watchdog thread is
    blocked. *)
Definition stop_by_other (NEVER : Z) (w : watchdog_t) : watchdog_t :=
  fst (lf_watchdog_stop NEVER 0 w).
Definition start_by_other (current_tag_time additional_timeout : Z) (w : watchdog_t)
    : watchdog_t :=
  fst (lf_watchdog_start 0 current_tag_time additional_timeout w).
Definition terminate_by_other (NEVER : Z) (w : watchdog_t) : watchdog_t :=
  fst (_lf_watchdog_terminate NEVER 0 w).

End WatchdogRuns.

(** ** lf_riot_support.c: nested critical sections *)

Module Riot.

(** Calls into the RIOT kernel. *)
Inductive irq_call : Set := IrqDisable | IrqEnable.

(** The static counter [num_nested_critical_sections] (a [uint32_t]), and
    the interrupt state of the machine: whether interrupts are enabled and
    which kernel calls were made (oldest first). *)
Record irq_state : Set := mk_irq {
  num_nested_critical_sections : Z;
  irq_enabled : bool;
  irq_calls : list irq_call
}.

Definition to_uint32 (z : Z) : Z := z mod 2 ^ 32.

Definition set_num_nested (v : Z) (s : irq_state) : irq_state :=
  mk_irq v (irq_enabled s) (irq_calls s).

(** [irq_disable()] and [irq_enable()] of RIOT; the mask [irq_disable]
    returns is dropped by the caller. *)
Definition irq_disable (s : irq_state) : irq_state :=
  mk_irq (num_nested_critical_sections s) false (irq_calls s ++ [IrqDisable]).
Definition irq_enable (s : irq_state) : irq_state :=
  mk_irq (num_nested_critical_sections s) true (irq_calls s ++ [IrqEnable]).

(** [lf_disable_interrupts_nested()]: the result and the new state. *)
Definition lf_disable_interrupts_nested (s : irq_state) : Z * irq_state :=
  let old := num_nested_critical_sections s in
  let s1 := set_num_nested (to_uint32 (old + 1)) s in
  if old =? 0 then (0, irq_disable s1) else (0, s1).

(** [lf_enable_interrupts_nested()] *)
Definition lf_enable_interrupts_nested (s : irq_state) : Z * irq_state :=
  if num_nested_critical_sections s <=? 0 then (1, s)
  else
    let s1 := set_num_nested (to_uint32 (num_nested_critical_sections s - 1)) s in
    if num_nested_critical_sections s1 =? 0 then (0, irq_enable s1) else (0, s1).

(** [n] calls in a row, with the results in call order. *)
Fixpoint disable_times (n : nat) (s : irq_state) : list Z * irq_state :=
  match n with
  | O => ([], s)
  | S n' =>
      let '(r, s1) := lf_disable_interrupts_nested s in
      let '(rs, s2) := disable_times n' s1 in
      (r :: rs, s2)
  end.

Fixpoint enable_times (n : nat) (s : irq_state) : list Z * irq_state :=
  match n with
  | O => ([], s)
  | S n' =>
      let '(r, s1) := lf_enable_interrupts_nested s in
      let '(rs, s2) := enable_times n' s1 in
      (r :: rs, s2)
  end.

End Riot.

(** ** worker_assignments.h: reactions assigned to workers by level *)

Module WorkerAssignments.

(** The file-level variables.  An array of reactions is a list of cells,
    [None] for a cell never written.  [reactions_by_worker_by_level[level]]
    holds the arrays of the workers below [max_num_workers_by_level[level]],
    the only ones allocated.  [num_reactions_by_worker] and
    [reactions_by_worker] are pointers to rows of the two tables and are
    kept as the number of the row ([None] before [set_level]).  The last
    field lists the calls of [worker_states_lock] ([true]) and
    [worker_states_unlock] ([false]) with their worker. *)
Record wa_state : Type := mk_wa {
  reactions_by_worker_by_level : list (list (list (option positive)));
  num_reactions_by_worker_by_level : list (list Z);
  max_num_workers_by_level : list Z;
  num_workers_by_level : list Z;
  num_levels : Z;
  max_num_workers : Z;
  current_level : Z;
  num_reactions_by_worker : option nat;
  reactions_by_worker : option nat;
  num_workers : Z;
  reactions_triggered_counter : Z;
  worker_states_calls : list (bool * Z)
}.

Definition set_counts (v : list (list Z)) (s : wa_state) : wa_state :=
  mk_wa (reactions_by_worker_by_level s) v (max_num_workers_by_level s)
    (num_workers_by_level s) (num_levels s) (max_num_workers s) (current_level s)
    (num_reactions_by_worker s) (reactions_by_worker s) (num_workers s)
    (reactions_triggered_counter s) (worker_states_calls s).
Definition set_reactions (v : list (list (list (option positive)))) (s : wa_state) : wa_state :=
  mk_wa v (num_reactions_by_worker_by_level s) (max_num_workers_by_level s)
    (num_workers_by_level s) (num_levels s) (max_num_workers s) (current_level s)
    (num_reactions_by_worker s) (reactions_by_worker s) (num_workers s)
    (reactions_triggered_counter s) (worker_states_calls s).
Definition set_counter (v : Z) (s : wa_state) : wa_state :=
  mk_wa (reactions_by_worker_by_level s) (num_reactions_by_worker_by_level s)
    (max_num_workers_by_level s) (num_workers_by_level s) (num_levels s)
    (max_num_workers s) (current_level s) (num_reactions_by_worker s)
    (reactions_by_worker s) (num_workers s) v (worker_states_calls s).
Definition add_call (c : bool * Z) (s : wa_state) : wa_state :=
  mk_wa (reactions_by_worker_by_level s) (num_reactions_by_worker_by_level s)
    (max_num_workers_by_level s) (num_workers_by_level s) (num_levels s)
    (max_num_workers s) (current_level s) (num_reactions_by_worker s)
    (reactions_by_worker s) (num_workers s) (reactions_triggered_counter s)
    (worker_states_calls s ++ [c]).

(** How a call ends: with a result, on a failed [assert], dividing by
    zero, reading or writing outside an array, through a null or unset
    pointer, or reading an array cell that was never written. *)
Inductive wa_result (A : Type) : Type :=
| WaOk (a : A) (s : wa_state)
| WaAssertFailed
| WaDivisionByZero
| WaOutOfBounds
| WaBadPointer
| WaUninitialised.
Arguments WaOk {A} a s.
Arguments WaAssertFailed {A}.
Arguments WaDivisionByZero {A}.
Arguments WaOutOfBounds {A}.
Arguments WaBadPointer {A}.
Arguments WaUninitialised {A}.

(** [table[row][col]] and [table[row][col] = v] on a table of counters. *)
Definition read_count (t : list (list Z)) (row col : nat) : option Z :=
  match t !! row with
  | Some r => r !! col
  | None => None
  end.

(** [table[row][worker][i]] on the table of reaction arrays. *)
Definition read_cell (t : list (list (list (option positive)))) (row worker i : nat)
    : option (option positive) :=
  match t !! row with
  | Some r =>
      match r !! worker with
      | Some a => a !! i
      | None => None
      end
  | None => None
  end.
Definition write_count (t : list (list Z)) (row col : nat) (v : Z) : list (list Z) :=
  match t !! row with
  | Some r => <[row := <[col := v]> r]> t
  | None => t
  end.

(** [--num_reactions_by_worker[worker]] followed by the read of
    [reactions_by_worker[worker]] at the new count, as both return
    statements of [worker_assignments_get_or_lock] do. *)
Definition take_last (worker : Z) (s : wa_state) : wa_result (option positive) :=
  match num_reactions_by_worker s, reactions_by_worker s with
  | Some nrow, Some rrow =>
      match read_count (num_reactions_by_worker_by_level s) nrow (Z.to_nat worker) with
      | None => WaOutOfBounds
      | Some n =>
          let n' := to_size_t (n - 1) in
          let s1 := set_counts
                      (write_count (num_reactions_by_worker_by_level s) nrow
                         (Z.to_nat worker) n') s in
          match read_cell (reactions_by_worker_by_level s) rrow
                  (Z.to_nat worker) (Z.to_nat n') with
          | Some (Some r) => WaOk (Some r) s1
          | Some None => WaUninitialised
          | None => WaOutOfBounds
          end
      end
  | _, _ => WaBadPointer
  end.

Section Code.

(** [LEVEL(index)], and what the rest of the program does to the state
    while the caller is blocked in [worker_states_lock(worker)]; both are
    defined elsewhere and are parameters. *)
Variable LEVEL : Z -> Z.
Variable while_locking : Z -> wa_state -> wa_state.

(** [worker_assignments_get_or_lock(worker)]; its two [assert]s compare
    unsigned values with 0 and cannot fail. *)
Definition worker_assignments_get_or_lock (worker : Z) (s : wa_state)
    : wa_result (option positive) :=
  match num_reactions_by_worker s with
  | None => WaBadPointer
  | Some nrow =>
      match read_count (num_reactions_by_worker_by_level s) nrow (Z.to_nat worker) with
      | None => WaOutOfBounds
      | Some n =>
          if negb (n =? 0) then take_last worker s
          else
            let s1 := add_call (true, worker) (while_locking worker s) in
            match num_reactions_by_worker s1 with
            | None => WaBadPointer
            | Some nrow1 =>
                match read_count (num_reactions_by_worker_by_level s1) nrow1
                        (Z.to_nat worker) with
                | None => WaOutOfBounds
                | Some n1 =>
                    if n1 =? 0 then WaOk None s1
                    else take_last worker (add_call (false, worker) s1)
                end
            end
      end
  end.

(** [worker_assignments_put(reaction)]; the reaction is read from the
    reaction memory, and [reaction] may be [NULL]. *)
Definition worker_assignments_put (h : gmap positive reaction_t)
    (reaction : option positive) (s : wa_state) : wa_result unit :=
  match match reaction with Some r => h !! r | None => None end with
  | None => WaBadPointer
  | Some rec =>
      let level := to_size_t (LEVEL (index rec)) in
      if negb ((level >? current_level s) || (current_level s =? 0)) then WaAssertFailed
      else if negb (level <? num_levels s) then WaAssertFailed
      else
        match num_workers_by_level s !! Z.to_nat level with
        | None => WaOutOfBounds
        | Some n =>
            if n =? 0 then WaDivisionByZero
            else
              let worker := reactions_triggered_counter s mod n in
              let s1 := set_counter (to_size_t (reactions_triggered_counter s + 1)) s in
              if negb ((0 <=? worker) && (worker <=? num_workers s1)) then WaAssertFailed
              else
                match read_count (num_reactions_by_worker_by_level s1)
                        (Z.to_nat level) (Z.to_nat worker) with
                | None => WaOutOfBounds
                | Some num_preceding_reactions =>
                    let s2 := set_counts
                                (write_count (num_reactions_by_worker_by_level s1)
                                   (Z.to_nat level) (Z.to_nat worker)
                                   (to_size_t (num_preceding_reactions + 1))) s1 in
                    match reactions_by_worker_by_level s2 !! Z.to_nat level with
                    | None => WaOutOfBounds
                    | Some row =>
                        match row !! Z.to_nat worker with
                        | None => WaOutOfBounds
                        | Some arr =>
                            if num_preceding_reactions <? Z.of_nat (length arr) then
                              WaOk tt
                                (set_reactions
                                   (<[Z.to_nat level :=
                                        <[Z.to_nat worker :=
                                             <[Z.to_nat num_preceding_reactions :=
                                                  reaction]> arr]> row]>
                                      (reactions_by_worker_by_level s2)) s2)
                            else WaOutOfBounds
                        end
                    end
                end
        end
  end.

End Code.

(** Two levels, at most two workers; level 0 is current and nothing is
    assigned yet. *)
Definition sample_assignments : wa_state :=
  mk_wa [ [ [None; None]; [None; None] ]; [ [None]; [None] ] ]
        [ [0; 0]; [0; 0] ] [2; 1] [2; 1] 2 2 0 (Some 0%nat) (Some 0%nat) 2 5 [].

End WorkerAssignments.

(** * Properties *)

(** ** The reaction queue *)

Lemma elem_of_pqueue_insert getpri (q : pqueue_t) e x :
  x ∈ pqueue_insert getpri q e ↔ x = e ∨ x ∈ q.
Proof.
  induction q as [|y q IH]; simpl.
  - rewrite list_elem_of_singleton, elem_of_nil. tauto.
  - destruct (getpri e <? getpri y).
    + rewrite !elem_of_cons. tauto.
    + rewrite !elem_of_cons, IH. tauto.
Qed.

Lemma pqueue_insert_perm getpri (q : pqueue_t) e :
  pqueue_insert getpri q e ≡ₚ e :: q.
Proof.
  induction q as [|y q IH]; simpl; [done|].
  destruct (getpri e <? getpri y); [done|].
  rewrite IH. apply Permutation_swap.
Qed.

Lemma pqueue_size_insert getpri (q : pqueue_t) e :
  pqueue_size (pqueue_insert getpri q e) = pqueue_size q + 1.
Proof.
  unfold pqueue_size.
  rewrite (Permutation_length (pqueue_insert_perm getpri q e)).
  simpl. lia.
Qed.

(** ** Compare-and-swap on the status *)

Lemma cas_success h p r oldval newval :
  h !! p = Some r -> status r = oldval ->
  lf_atomic_bool_compare_and_swap32 h p oldval newval
  = Some (true, <[p := set_status r newval]> h).
Proof.
  intros Hp Hs. unfold lf_atomic_bool_compare_and_swap32.
  rewrite Hp. destruct (decide (status r = oldval)); congruence.
Qed.

Lemma cas_failure h p r oldval newval :
  h !! p = Some r -> status r <> oldval ->
  lf_atomic_bool_compare_and_swap32 h p oldval newval = Some (false, h).
Proof.
  intros Hp Hs. unfold lf_atomic_bool_compare_and_swap32.
  rewrite Hp. destruct (decide (status r = oldval)); congruence.
Qed.

Lemma status_of_insert_eq h p r :
  status_of (<[p := r]> h) p = Some (status r).
Proof. unfold status_of. by rewrite lookup_insert_eq. Qed.

Lemma status_of_insert_ne h p p' r :
  p <> p' -> status_of (<[p := r]> h) p' = status_of h p'.
Proof. intros. unfold status_of. by rewrite lookup_insert_ne. Qed.

(** ** Triggering *)

Lemma trigger_inactive w r rec q0 rest wn :
  heap w !! r = Some rec -> status rec = inactive ->
  triggered_reactions (sched w) = q0 :: rest ->
  lf_scheduler_trigger_reaction (Some r) wn w = Ok tt (triggered r rec q0 rest w).
Proof.
  intros Hr Hs Hq. unfold lf_scheduler_trigger_reaction.
  rewrite (cas_success _ _ _ _ _ Hr Hs).
  unfold _lf_sched_insert_reaction, bind, LF_MUTEX_LOCK, LF_MUTEX_UNLOCK, emit,
    read_triggered_reactions, write_queue, modify_sched, upd_sched, set_heap; simpl.
  rewrite Hq; simpl. unfold triggered; simpl.
  rewrite Hq; simpl. by rewrite <- app_assoc.
Qed.

Lemma trigger_not_inactive w r rec wn :
  heap w !! r = Some rec -> status rec <> inactive ->
  lf_scheduler_trigger_reaction (Some r) wn w = Ok tt w.
Proof.
  intros Hr Hs. unfold lf_scheduler_trigger_reaction.
  by rewrite (cas_failure _ _ _ _ _ Hr Hs).
Qed.

Lemma trigger_calls_queued w r rec wns :
  heap w !! r = Some rec -> status rec = queued ->
  trigger_calls r wns w = Ok tt w.
Proof.
  intros Hr Hs. induction wns as [|wn wns IH]; simpl; [done|].
  unfold bind. rewrite (trigger_not_inactive w r rec wn Hr); [done|].
  rewrite Hs. discriminate.
Qed.

(** ** Completion *)

Lemma done_queued w r rec wn :
  heap w !! r = Some rec -> status rec = queued ->
  lf_sched_done_with_reaction wn r w
  = Ok tt (set_heap (<[r := set_status rec inactive]> (heap w)) w).
Proof.
  intros Hr Hs. unfold lf_sched_done_with_reaction.
  by rewrite (cas_success _ _ _ _ _ Hr Hs).
Qed.

Lemma done_not_queued w r rec wn :
  heap w !! r = Some rec -> status rec <> queued ->
  lf_sched_done_with_reaction wn r w = ErrorExit.
Proof.
  intros Hr Hs. unfold lf_sched_done_with_reaction.
  by rewrite (cas_failure _ _ _ _ _ Hr Hs).
Qed.

(** ** Waking workers *)

Lemma LF_MIN_min a b : LF_MIN a b = Z.min a b.
Proof. unfold LF_MIN. destruct (Z.ltb_spec a b); lia. Qed.

Lemma to_size_t_id z : size_t_range z -> to_size_t z = z.
Proof. unfold size_t_range, SIZE_MAX, to_size_t. intros. apply Z.mod_small. lia. Qed.

Lemma pqueue_size_nonneg (q : pqueue_t) : 0 <= pqueue_size q.
Proof. unfold pqueue_size. lia. Qed.

(** C2. With i idle workers and s reactions in the executing queue,
    [_lf_sched_notify_workers] computes k = min(i, s), lowers
    [number_of_idle_workers] by exactly k, and calls
    [lf_semaphore_release] once with count k - 1 when k > 1 and not at all
    when k <= 1.  No call ever hands out k permits, and whenever at least
    one worker is to be woken the permit count grows by less than k. *)
Theorem C2_notify_workers w slot q :
  executing_reactions (sched w) = Some slot ->
  triggered_reactions (sched w) !! slot = Some q ->
  size_t_range (number_of_idle_workers (sched w)) ->
  exists w' evs,
    let i := number_of_idle_workers (sched w) in
    let k := Z.min i (pqueue_size q) in
    (_lf_sched_notify_workers w = Ok tt w' /\
    number_of_idle_workers (sched w') = i - k /\
    log w' = log w ++ evs /\
    evs = (if 1 <? k then [EvSemRelease (k - 1)] else []) /\
    semaphore (sched w') = semaphore (sched w) + (if 1 <? k then k - 1 else 0) /\
    (EvSemRelease k ∉ evs) /\
    (1 <= k -> semaphore (sched w') <> semaphore (sched w) + k) /\
    heap w' = heap w /\
    triggered_reactions (sched w') = triggered_reactions (sched w)).
Proof.
  intros Hex Hq Hrange.
  pose proof (pqueue_size_nonneg q) as Hsz.
  set (i := number_of_idle_workers (sched w)) in *.
  set (k := Z.min i (pqueue_size q)).
  assert (Hk : 0 <= k <= i) by (unfold size_t_range in Hrange; lia).
  assert (Hik : to_size_t (i - k) = i - k)
    by (apply to_size_t_id; unfold size_t_range in *; lia).
  unfold _lf_sched_notify_workers, bind, get_sched, deref_executing_reactions,
    modify_sched, upd_sched, ret.
  rewrite Hex, Hq. cbn [snd]. rewrite LF_MIN_min. fold i. fold k.
  destruct (Z.gtb_spec k 1) as [Hgt|Hle].
  - assert (Hk1 : to_size_t (k - 1) = k - 1)
      by (apply to_size_t_id; unfold size_t_range in *; lia).
    eexists _, [EvSemRelease (k - 1)].
    unfold lf_semaphore_release, bind, modify_sched, upd_sched, emit; cbn.
    fold i; fold k. rewrite Hik, Hk1.
    destruct (Z.ltb_spec 1 k); [|lia].
    repeat split; cbn;
      first [ reflexivity | lia | rewrite list_elem_of_singleton; intros [=]; lia ].
  - eexists _, [].
    cbn. fold i; fold k. rewrite Hik.
    destruct (Z.ltb_spec 1 k); [lia|].
    repeat split; cbn;
      first [ reflexivity | lia | by rewrite app_nil_r | apply not_elem_of_nil ].
Qed.

Lemma C2_notify_workers_witness :
  exists w' evs,
    let i := number_of_idle_workers (sched sample_world_idle) in
    let k := Z.min i (pqueue_size [1%positive; 2%positive; 3%positive]) in
    (_lf_sched_notify_workers sample_world_idle = Ok tt w' /\
    number_of_idle_workers (sched w') = i - k /\
    log w' = log sample_world_idle ++ evs /\
    evs = (if 1 <? k then [EvSemRelease (k - 1)] else []) /\
    semaphore (sched w') = semaphore (sched sample_world_idle) + (if 1 <? k then k - 1 else 0) /\
    (EvSemRelease k ∉ evs) /\
    (1 <= k -> semaphore (sched w') <> semaphore (sched sample_world_idle) + k) /\
    heap w' = heap sample_world_idle /\
    triggered_reactions (sched w') = triggered_reactions (sched sample_world_idle)).
Proof.
  apply (C2_notify_workers sample_world_idle 0%nat [1%positive; 2%positive; 3%positive]).
  - reflexivity.
  - reflexivity.
  - unfold size_t_range, SIZE_MAX. simpl. lia.
Defined.

(** ** Initialisation *)




(** ** Distribution *)

Lemma to_size_t_succ_pred z : to_size_t (to_size_t (z + 1) - 1) = to_size_t z.
Proof.
  unfold to_size_t. rewrite Zminus_mod_idemp_l. f_equal. lia.
Qed.

(** Whenever the loop of [_lf_sched_distribute_ready_reactions] is entered
    with a level of at least 1 and the array has the one slot of
    [lf_sched_init], the queue it selects lies outside the array. *)
Lemma distribute_out_of_bounds w q fuel :
  triggered_reactions (sched w) = [q] ->
  1 <= next_reaction_level (sched w) <= max_reaction_level (sched w) ->
  max_reaction_level (sched w) <= SIZE_MAX ->
  _lf_sched_distribute_ready_reactions (S fuel) w
  = OutOfBounds (next_reaction_level (sched w)).
Proof.
  intros Hq Hlvl Hmax.
  unfold _lf_sched_distribute_ready_reactions; simpl.
  unfold bind, get_sched. destruct (Z.leb_spec (next_reaction_level (sched w))
                                      (max_reaction_level (sched w))); [|lia].
  unfold try_advance_level, modify_sched, upd_sched, read_triggered_reactions; simpl.
  rewrite to_size_t_succ_pred.
  rewrite (to_size_t_id (next_reaction_level (sched w)))
    by (unfold size_t_range, SIZE_MAX in *; lia).
  rewrite Hq.
  replace (Z.to_nat (next_reaction_level (sched w)))
    with (S (Z.to_nat (next_reaction_level (sched w) - 1))) by lia.
  reflexivity.
Qed.

(** C5 fails on the code.  After [lf_sched_init] for a program of three
    levels the array [triggered_reactions] has one slot and
    [next_reaction_level] is 1; the first distribution advances the level
    to 2 and reads [triggered_reactions[1]], one past the array. *)
Theorem C5_distribute_reads_past_array D nw h l fuel :
  exists s,
    lf_sched_init D None nw (Some (mk_params (Some [1; 1; 1]) 3)) = Some s /\
    length (triggered_reactions s) = 1%nat /\
    next_reaction_level s = 1 /\
    max_reaction_level s = 2 /\
    _lf_sched_distribute_ready_reactions (S fuel) (mk_world h s l) = OutOfBounds 1.
Proof.
  eexists. split; [reflexivity|]. repeat split.
Qed.

(** ** Watchdogs *)

Module WatchdogFacts.
Import Watchdog.

Section Facts.

Variable NEVER : Z.
Variable watchdog_function : watchdog_t -> watchdog_t.

Lemma stop_keeps_terminate i w :
  terminate (fst (lf_watchdog_stop NEVER i w)) = terminate w.
Proof. unfold lf_watchdog_stop. by destruct (active w). Qed.

Lemma terminate_env_loop_spec i ws :
  terminate_env_loop NEVER i ws
  = (imap (fun j w => fst (lf_watchdog_stop NEVER (i + j) w)) ws,
     concat (imap (fun j w => [WLock (i + j)] ++ snd (lf_watchdog_stop NEVER (i + j) w)
                                ++ [WUnlock (i + j); WThreadJoin (i + j)]) ws)).
Proof.
  revert i. induction ws as [|w ws IH]; intros i; [done|].
  cbn [terminate_env_loop imap concat]. rewrite IH.
  unfold terminate_env_body. destruct (lf_watchdog_stop NEVER i w) as [w' evs] eqn:Hstop.
  rewrite Nat.add_0_r, Hstop. cbn [fst snd].
  f_equal.
  - f_equal. apply imap_ext. intros j x _. simpl. do 2 f_equal. lia.
  - f_equal. f_equal. apply imap_ext. intros j x _. simpl.
    by replace (i + S j)%nat with (S (i + j)) by lia.
Qed.

(** C3 fails on the code.  For every environment,
    [_lf_watchdog_terminate(environment_t* )] does, for each watchdog in
    turn, lock, [lf_watchdog_stop], unlock, join, and nothing else: the
    function [_lf_watchdog_terminate(watchdog_t* )] is never called, so no
    [terminate] flag changes; and a watchdog that is not active keeps its
    expiration as well. *)
Theorem C3_terminate_env_only_stops (ws : list watchdog_t) :
  let r := _lf_watchdog_terminate_env NEVER ws in
  terminate <$> fst r = terminate <$> ws /\
  fst r = imap (fun j w => fst (lf_watchdog_stop NEVER j w)) ws /\
  snd r = concat (imap (fun j w => [WLock j] ++ snd (lf_watchdog_stop NEVER j w)
                                     ++ [WUnlock j; WThreadJoin j]) ws) /\
  (forall j w, ws !! j = Some w -> active w = false -> fst r !! j = Some w).
Proof.
  unfold _lf_watchdog_terminate_env. rewrite terminate_env_loop_spec. cbn [fst snd].
  split; [|split; [done|split; [done|]]].
  - apply list_eq. intros j. rewrite !list_lookup_fmap, list_lookup_imap.
    destruct (ws !! j) as [w|]; [|done]. simpl. by rewrite stop_keeps_terminate.
  - intros j w Hj Hact. rewrite list_lookup_imap, Hj. simpl.
    unfold lf_watchdog_stop. by rewrite Hact.
Qed.

(** The failing input: one armed, active watchdog that was never told to
    terminate.  After the call its flag is still [false], and the join
    that was issued waits for a thread that only leaves on that flag. *)
Lemma terminate_env_armed_watchdog :
  _lf_watchdog_terminate_env NEVER [mk_watchdog 100 10 true false]
  = ([mk_watchdog NEVER 10 true false],
     [WLock 0; WCondSignal 0; WUnlock 0; WThreadJoin 0]).
Proof. reflexivity. Qed.

(** The thread reaches its exit only through the [terminate] flag. *)
Lemma step_exit_needs_terminate i st :
  (forall w, terminate (interference i w) = terminate w) ->
  (forall w, terminate (watchdog_function w) = terminate w) ->
  terminate (wd st) = false -> pc st <> Terminate -> pc st <> Exited ->
  let st' := fst (step NEVER watchdog_function i st) in
  terminate (wd st') = false /\ pc st' <> Terminate /\ pc st' <> Exited.
Proof.
  intros Hi Hh Ht Hp1 Hp2. destruct st as [p w]. simpl in *.
  unfold step; simpl.
  destruct p; simpl; try congruence.
  - rewrite Ht. destruct (negb (expiration w =? NEVER)); simpl; done.
  - rewrite Hi, Ht. simpl. rewrite andb_true_r.
    destruct (expiration (interference i w) =? NEVER); simpl; by rewrite ?Hi.
  - done.
  - destruct (keep_waiting NEVER physical_time w); simpl; done.
  - by rewrite Hi.
  - rewrite Ht. destruct (expiration w =? NEVER); simpl; by rewrite ?Hh.
Qed.

Lemma run_exit_needs_terminate ins st :
  Forall (fun i => forall w, terminate (interference i w) = terminate w) ins ->
  (forall w, terminate (watchdog_function w) = terminate w) ->
  terminate (wd st) = false -> pc st <> Terminate -> pc st <> Exited ->
  pc (fst (run NEVER watchdog_function ins st)) <> Exited.
Proof.
  intros Hins Hh. revert st. induction Hins as [|i ins Hi _ IH]; intros st Ht Hp1 Hp2.
  - done.
  - simpl.
    destruct (step_exit_needs_terminate i st Hi Hh Ht Hp1 Hp2) as (Ht' & Hp1' & Hp2').
    destruct (step NEVER watchdog_function i st) as [st' evs]. simpl in *.
    specialize (IH st' Ht' Hp1' Hp2').
    by destruct (run NEVER watchdog_function ins st').
Qed.


Lemma handler_due_iff (w : watchdog_t) (t : Z) :
  handler_due NEVER t w = true <->
  terminate w = false /\ expiration w <> NEVER /\ expiration w <= t.
Proof.
  unfold handler_due.
  destruct (terminate w); destruct (Z.eqb_spec (expiration w) NEVER);
    destruct (Z.leb_spec (expiration w) t); simpl; split;
    try done; try lia; intros (? & ? & ?); try done; lia.
Qed.


End Facts.


End WatchdogFacts.

(** ** Asking for a reaction *)

Section GetReady.

Variable _lf_sched_advance_tag_locked : M bool.
Variable lf_semaphore_acquire : M unit.
Variables dfuel afuel : nat.
Variable worker_number : Z.

Local Abbreviation get_ready :=
  (lf_sched_get_ready_reaction _lf_sched_advance_tag_locked lf_semaphore_acquire dfuel afuel).
Local Abbreviation wait_for_work :=
  (_lf_sched_wait_for_work _lf_sched_advance_tag_locked lf_semaphore_acquire dfuel afuel).
Local Abbreviation tops :=
  (loop_top _lf_sched_advance_tag_locked lf_semaphore_acquire dfuel afuel worker_number).

Lemma pop_executing_reactions_spec w i q :
  executing_reactions (sched w) = Some i ->
  triggered_reactions (sched w) !! i = Some q ->
  pop_executing_reactions w
  = Ok (head q)
       (mk_world (heap w)
          (set_triggered_reactions (<[i := tail q]> (triggered_reactions (sched w))) (sched w))
          (log w ++ [EvLock queue_mutex; EvUnlock queue_mutex])).
Proof.
  intros Hex Hq.
  unfold pop_executing_reactions, bind, LF_MUTEX_LOCK, LF_MUTEX_UNLOCK, emit,
    deref_executing_reactions, write_queue, modify_sched, upd_sched, ret;
    cbn [heap sched log].
  rewrite Hex, Hq; cbn [heap sched log fst snd]. rewrite <- app_assoc. by destruct q.
Qed.

Lemma pop_executing_reactions_inv w r w' :
  pop_executing_reactions w = Ok r w' ->
  exists i q,
    executing_reactions (sched w) = Some i /\
    triggered_reactions (sched w) !! i = Some q /\
    r = head q /\
    w' = mk_world (heap w)
           (set_triggered_reactions (<[i := tail q]> (triggered_reactions (sched w))) (sched w))
           (log w ++ [EvLock queue_mutex; EvUnlock queue_mutex]).
Proof.
  intros Hpop.
  destruct (executing_reactions (sched w)) as [i|] eqn:Hex.
  - destruct (triggered_reactions (sched w) !! i) as [q|] eqn:Hq.
    + rewrite (pop_executing_reactions_spec w i q Hex Hq) in Hpop.
      injection Hpop as <- <-. by exists i, q.
    + unfold pop_executing_reactions, bind, LF_MUTEX_LOCK, emit,
        deref_executing_reactions in Hpop; cbn [heap sched log] in Hpop.
      by rewrite Hex, Hq in Hpop.
  - unfold pop_executing_reactions, bind, LF_MUTEX_LOCK, emit,
      deref_executing_reactions in Hpop; cbn [heap sched log] in Hpop.
    by rewrite Hex in Hpop.
Qed.

Lemma get_ready_unfold fuel w :
  get_ready (S fuel) worker_number w =
  if negb (should_stop (sched w)) then
    match pop_executing_reactions w with
    | Ok (Some r) w1 => Ok (Some r) w1
    | Ok None w1 =>
        match wait_for_work worker_number w1 with
        | Ok _ w2 => get_ready fuel worker_number w2
        | OutOfBounds i => OutOfBounds i
        | BadPointer => BadPointer
        | ErrorExit => ErrorExit
        | AssertionFailed => AssertionFailed
        | OutOfFuel => OutOfFuel
        end
    | OutOfBounds i => OutOfBounds i
    | BadPointer => BadPointer
    | ErrorExit => ErrorExit
    | AssertionFailed => AssertionFailed
    | OutOfFuel => OutOfFuel
    end
  else Ok None w.
Proof.
  simpl. unfold bind at 1. unfold get_sched.
  destruct (should_stop (sched w)); simpl; [done|].
  unfold bind at 1.
  destruct (pop_executing_reactions w) as [[r|] w1| | | | |]; try done.
Qed.

Lemma get_ready_sound fuel w res w' :
  get_ready fuel worker_number w = Ok res w' ->
  exists w_top,
    tops w w_top /\
    match res with
    | None => should_stop (sched w_top) = true /\ w' = w_top
    | Some r => should_stop (sched w_top) = false /\
                pop_executing_reactions w_top = Ok (Some r) w'
    end.
Proof.
  revert w. induction fuel as [|fuel IH]; intros w Hget; [discriminate|].
  rewrite get_ready_unfold in Hget.
  destruct (should_stop (sched w)) eqn:Hstop; simpl in Hget.
  - injection Hget as <- <-. exists w. split; [constructor|done].
  - destruct (pop_executing_reactions w) as [[r|] w1| | | | |] eqn:Hpop; try discriminate.
    + injection Hget as <- <-. exists w. split; [constructor|done].
    + destruct (wait_for_work worker_number w1) as [[] w2| | | | |] eqn:Hwait;
        try discriminate.
      destruct (IH w2 Hget) as (w_top & Htop & Hres).
      exists w_top. split; [|done]. by eapply loop_top_again.
Qed.

Lemma get_ready_complete w w_top :
  tops w w_top ->
  (should_stop (sched w_top) = true ->
   exists fuel, get_ready fuel worker_number w = Ok None w_top) /\
  (forall r w', should_stop (sched w_top) = false ->
     pop_executing_reactions w_top = Ok (Some r) w' ->
     exists fuel, get_ready fuel worker_number w = Ok (Some r) w').
Proof.
  induction 1 as [w|w w1 w2 w3 Hstop Hpop Hwait _ [IH1 IH2]].
  - split.
    + intros Hstop. exists 1%nat. rewrite get_ready_unfold. by rewrite Hstop.
    + intros r w' Hstop Hpop. exists 1%nat. rewrite get_ready_unfold.
      by rewrite Hstop, Hpop.
  - split.
    + intros Hs. destruct (IH1 Hs) as [fuel Hfuel]. exists (S fuel).
      rewrite get_ready_unfold. by rewrite Hstop, Hpop, Hwait.
    + intros r w' Hs Hp. destruct (IH2 r w' Hs Hp) as [fuel Hfuel]. exists (S fuel).
      rewrite get_ready_unfold. by rewrite Hstop, Hpop, Hwait.
Qed.

(** C6. [lf_sched_get_ready_reaction] returns exactly as follows.  It
    returns [NULL] if and only if some evaluation of its loop condition
    finds [should_stop] true, and it then returns in that very state.  It
    returns a reaction [r] if and only if some evaluation of the loop
    condition finds [should_stop] false and the pop that follows yields
    [r]; that pop takes the head of the executing queue between a lock and
    an unlock of the queue mutex.  A pop that yields nothing is followed by
    [_lf_sched_wait_for_work] and, once that returns, by the loop condition
    again. *)
Theorem C6_get_ready_reaction :
  (forall w res w',
     (exists fuel, get_ready fuel worker_number w = Ok res w') <->
     (exists w_top,
        tops w w_top /\
        match res with
        | None => should_stop (sched w_top) = true /\ w' = w_top
        | Some r => should_stop (sched w_top) = false /\
                    pop_executing_reactions w_top = Ok (Some r) w'
        end)) /\
  (forall w r w',
     pop_executing_reactions w = Ok r w' ->
     exists i q,
       executing_reactions (sched w) = Some i /\
       triggered_reactions (sched w) !! i = Some q /\
       r = head q /\
       triggered_reactions (sched w') = <[i := tail q]> (triggered_reactions (sched w)) /\
       log w' = log w ++ [EvLock queue_mutex; EvUnlock queue_mutex]) /\
  (forall fuel w w1,
     should_stop (sched w) = false ->
     pop_executing_reactions w = Ok None w1 ->
     get_ready (S fuel) worker_number w
     = (wait_for_work worker_number ;;; get_ready fuel worker_number) w1).
Proof.
  split; [|split].
  - intros w res w'. split.
    + intros [fuel Hget]. by apply (get_ready_sound fuel).
    + intros (w_top & Htop & Hres).
      destruct (get_ready_complete w w_top Htop) as [Hnone Hsome].
      destruct res as [r|].
      * destruct Hres as [Hs Hp]. by apply Hsome.
      * destruct Hres as [Hs ->]. by apply Hnone.
  - intros w r w' Hpop.
    destruct (pop_executing_reactions_inv w r w' Hpop) as (i & q & Hex & Hq & -> & ->).
    by exists i, q.
  - intros fuel w w1 Hstop Hpop. rewrite get_ready_unfold, Hstop, Hpop. simpl.
    unfold bind. by destruct (wait_for_work worker_number w1).
Qed.

End GetReady.

Lemma C6_get_ready_reaction_witness :
  exists fuel,
    lf_sched_get_ready_reaction advance_to_stop acquire_now 1 1 fuel 0 sample_world_idle
    = Ok (Some 1%positive)
        (mk_world (heap sample_world_idle)
           (mk_sched [ [2%positive; 3%positive] ] (Some 0%nat) 0 4 4 1 2 false)
           [EvLock queue_mutex; EvUnlock queue_mutex]).
Proof.
  apply (C6_get_ready_reaction advance_to_stop acquire_now 1 1 0).
  exists sample_world_idle. split; [constructor|]. split; reflexivity.
Defined.

(** ** Queue membership and status *)

(** *** What the four steps on reactions and queues do *)

(** Adding to and removing from the sets of handed-out and half-triggered
    reactions. *)
Lemma not_elem_of_add (X : gset positive) r r' : r' ∉ X -> r <> r' -> r' ∉ X ∪ {[ r ]}.
Proof. intros Hn Hne [?|?%elem_of_singleton]%elem_of_union; [done|congruence]. Qed.

Lemma elem_of_add_l (X : gset positive) r r' : r' ∈ X -> r' ∈ X ∪ {[ r ]}.
Proof. intros. apply elem_of_union. by left. Qed.

Lemma elem_of_add_r (X : gset positive) r : r ∈ X ∪ {[ r ]}.
Proof. apply elem_of_union. right. by apply elem_of_singleton. Qed.

Lemma not_elem_of_remove (X : gset positive) r r' : r' ∉ X -> r' ∉ X ∖ {[ r ]}.
Proof. by intros Hn [? _]%elem_of_difference. Qed.

Lemma not_elem_of_remove_eq (X : gset positive) r : r ∉ X ∖ {[ r ]}.
Proof. intros [_ Hn]%elem_of_difference. by apply Hn, elem_of_singleton. Qed.

Lemma elem_of_remove (X : gset positive) r r' : r' ∈ X -> r' <> r -> r' ∈ X ∖ {[ r ]}.
Proof.
  intros Hin Hne. apply elem_of_difference. split; [done|]. by intros ?%elem_of_singleton.
Qed.

Lemma add_remove (X : gset positive) r : r ∉ X -> (X ∪ {[ r ]}) ∖ {[ r ]} = X.
Proof.
  intros Hn. apply set_eq. intros x.
  rewrite elem_of_difference, elem_of_union, elem_of_singleton. split.
  - by intros [[?|?] ?].
  - intros Hx. split; [by left|]. by intros ->.
Qed.

Lemma cas_true_inv h p oldval newval h' :
  lf_atomic_bool_compare_and_swap32 h p oldval newval = Some (true, h') ->
  exists rec, h !! p = Some rec /\ status rec = oldval /\ h' = <[p := set_status rec newval]> h.
Proof.
  unfold lf_atomic_bool_compare_and_swap32.
  destruct (h !! p) as [rec|]; [|done].
  destruct (decide (status rec = oldval)); [|done].
  intros [= <-]. by exists rec.
Qed.

Lemma done_inv wn r w w' :
  lf_sched_done_with_reaction wn r w = Ok tt w' ->
  exists rec, heap w !! r = Some rec /\ status rec = queued /\
              w' = set_heap (<[r := set_status rec inactive]> (heap w)) w.
Proof.
  unfold lf_sched_done_with_reaction.
  destruct (lf_atomic_bool_compare_and_swap32 _ _ _ _) as [[[] h']|] eqn:Hcas; try done.
  intros [= <-]. apply cas_true_inv in Hcas as (rec & Hr & Hs & ->). by exists rec.
Qed.

Lemma insert_reaction_inv r w w' :
  _lf_sched_insert_reaction r w = Ok tt w' ->
  exists q rest,
    triggered_reactions (sched w) = q :: rest /\
    w' = mk_world (heap w)
           (set_triggered_reactions
              (pqueue_insert (get_reaction_index (heap w)) q r :: rest) (sched w))
           (log w ++ [EvLock queue_mutex; EvUnlock queue_mutex]).
Proof.
  destruct w as [h s l].
  unfold _lf_sched_insert_reaction, bind, LF_MUTEX_LOCK, LF_MUTEX_UNLOCK, emit,
    read_triggered_reactions, write_queue, modify_sched, upd_sched;
    cbn [heap sched log].
  destruct (triggered_reactions s) as [|q rest] eqn:Hq; [done|].
  cbn. intros [= <-]. exists q, rest. split; [done|].
  unfold set_triggered_reactions; cbn. rewrite Hq. cbn. by rewrite <- app_assoc.
Qed.

(** *** Steps that leave reactions and queues alone *)

Lemma queue_frame_refl w : queue_frame w w.
Proof. split; [done|]. split; [done|]. by left. Qed.

Lemma queue_frame_trans w1 w2 w3 :
  queue_frame w1 w2 -> queue_frame w2 w3 -> queue_frame w1 w3.
Proof.
  intros (Hh1 & Ht1 & He1) (Hh2 & Ht2 & He2).
  split; [congruence|]. split; [congruence|].
  destruct He2 as [He2|(i & He2 & Hi)].
  - rewrite He2. done.
  - right. exists i. split; [done|]. by rewrite <- Ht1.
Qed.

Lemma frames_ret {A} (a : A) : frames (ret a).
Proof. unfold ret. intros w a' w' [= _ <-]. apply queue_frame_refl. Qed.

Lemma frames_bind {A B} (c : M A) (k : A -> M B) :
  frames c -> (forall a, frames (k a)) -> frames (bind c k).
Proof.
  intros Hc Hk w b w' Hrun. unfold bind in Hrun.
  destruct (c w) as [a w1| | | | |] eqn:Hcw; try discriminate.
  eapply queue_frame_trans; [by eapply Hc|by eapply Hk].
Qed.

Lemma frames_emit e : frames (emit e).
Proof.
  unfold emit. intros w a w' [= _ <-]. split; [done|]. split; [done|]. by left.
Qed.

Lemma frames_get_sched : frames get_sched.
Proof. unfold get_sched. intros w a w' [= _ <-]. apply queue_frame_refl. Qed.

Lemma frames_modify f :
  (forall s, triggered_reactions (f s) = triggered_reactions s /\
             executing_reactions (f s) = executing_reactions s) ->
  frames (modify_sched f).
Proof.
  unfold modify_sched. intros Hf w a w' [= _ <-]. destruct (Hf (sched w)) as [Ht He].
  split; [done|]. split; [done|]. by left.
Qed.

Lemma frames_deref : frames deref_executing_reactions.
Proof.
  intros w a w'. unfold deref_executing_reactions.
  destruct (executing_reactions _); [|done].
  destruct (_ !! _); [|done]. intros [= _ <-]. apply queue_frame_refl.
Qed.

Lemma frames_assert b : frames (c_assert b).
Proof.
  intros w a w'. unfold c_assert. destruct b; [|done].
  intros [= _ <-]. apply queue_frame_refl.
Qed.

Lemma frames_release n : frames (lf_semaphore_release n).
Proof.
  apply frames_bind; [by apply frames_modify|].
  intros _. apply frames_emit.
Qed.

Lemma frames_idle v : frames (lf_atomic_add_fetch32_idle v).
Proof.
  unfold lf_atomic_add_fetch32_idle. intros w a w' [= _ <-].
  split; [done|]. split; [done|]. by left.
Qed.

Lemma frames_distribute fuel : frames (_lf_sched_distribute_ready_reactions fuel).
Proof.
  unfold _lf_sched_distribute_ready_reactions.
  induction fuel as [|fuel IH]; [by intros w a w' ?|].
  simpl. apply frames_bind; [apply frames_get_sched|]. intros s.
  destruct (next_reaction_level s <=? max_reaction_level s); [|apply frames_ret].
  apply frames_bind; [by apply frames_modify|]. intros _.
  apply frames_bind; [apply frames_get_sched|]. intros s'.
  intros w a w' Hrun. unfold bind at 1 in Hrun. unfold read_triggered_reactions in Hrun.
  destruct (triggered_reactions (sched w) !! _) as [q|] eqn:Hq; [|done].
  destruct (negb _).
  - unfold bind, modify_sched, ret in Hrun. injection Hrun as _ <-.
    split; [done|]. split; [done|]. right. eexists. split; [reflexivity|].
    by eapply lookup_lt_Some.
  - by eapply IH.
Qed.

Lemma frames_notify : frames _lf_sched_notify_workers.
Proof.
  apply frames_bind; [apply frames_get_sched|]. intros s.
  apply frames_bind; [apply frames_deref|]. intros exq.
  apply frames_bind; [by apply frames_modify|]. intros _.
  destruct (_ >? 1); [apply frames_release|apply frames_ret].
Qed.

Lemma frames_signal_stop : frames _lf_sched_signal_stop.
Proof.
  apply frames_bind; [by apply frames_modify|]. intros _.
  apply frames_bind; [apply frames_get_sched|]. intros s.
  apply frames_release.
Qed.

(** *** A reaction that is queued stays queued until it is reported done *)

Lemma sched_step_keeps_queued a st st' r :
  sched_step a st st' ->
  status_of (heap (pworld st)) r = Some queued ->
  r ∉ inserting st ->
  a <> ADone r ->
  status_of (heap (pworld st')) r = Some queued /\ (r ∉ inserting st') /\
  a <> ASwap r /\ a <> AInsert r.
Proof.
  intros Hstep Hst Hni Hnd.
  destruct Hstep as [w fl ins r0 h' Hcas
                    |w fl ins r0 w' Hr Hins
                    |w fl ins res w' Hp
                    |w fl ins r0 wn w' Hr Hd
                    |w fl ins w' H];
    cbn [pworld in_flight inserting] in *.
  - apply cas_true_inv in Hcas as (rec & Hr0 & Hs & ->).
    assert (Hne : r0 <> r).
    { intros ->. unfold status_of in Hst. rewrite Hr0 in Hst. simpl in Hst. congruence. }
    cbn. rewrite status_of_insert_ne by done.
    split; [done|]. split; [by apply not_elem_of_add|]. split; congruence.
  - apply insert_reaction_inv in Hins as (q & rest & _ & ->). cbn.
    split; [done|]. split; [by apply not_elem_of_remove|]. split; [done|].
    intros [= ->]. done.
  - apply pop_executing_reactions_inv in Hp as (i & q & _ & _ & _ & ->). cbn.
    done.
  - apply done_inv in Hd as (rec & Hr0 & Hs & ->).
    assert (Hne : r0 <> r) by congruence.
    cbn. rewrite status_of_insert_ne by done. done.
  - destruct H as [-> _]. done.
Qed.

Lemma sched_run_keeps_queued acts st st' r :
  sched_run acts st st' ->
  status_of (heap (pworld st)) r = Some queued ->
  r ∉ inserting st ->
  ADone r ∉ acts ->
  status_of (heap (pworld st')) r = Some queued /\
  (ASwap r ∉ acts) /\ (AInsert r ∉ acts).
Proof.
  induction 1 as [st|a acts st st1 st2 Hstep _ IH]; intros Hst Hni Hnd.
  - split; [done|]. split; apply not_elem_of_nil.
  - apply not_elem_of_cons in Hnd as [Hne Hnd].
    destruct (sched_step_keeps_queued a st st1 r Hstep Hst Hni) as (Hst1 & Hni1 & Hsw & Hin);
      [congruence|].
    destruct (IH Hst1 Hni1 Hnd) as (Hst2 & Hsw2 & Hin2).
    split; [done|]. split; apply not_elem_of_cons; split; congruence.
Qed.

(** *** The invariant *)

Lemma lf_sched_init_first D nw params :
  exists s,
    lf_sched_init D None nw params = Some s /\
    triggered_reactions s = [[]] /\
    executing_reactions s = Some 0%nat /\
    should_stop s = false.
Proof.
  unfold lf_sched_init, init_sched_instance. eexists. split; [reflexivity|]. done.
Qed.

Lemma queue_inv_initial D st : initial D st -> queue_inv st.
Proof.
  intros (nw & params & s & h & Hinit & Hw & Hfl & Hins & Hin).
  destruct (lf_sched_init_first D nw params) as (s' & Hinit' & Htr & Hex & Hstop).
  rewrite Hinit in Hinit'. injection Hinit' as <-.
  unfold queue_inv. rewrite Hw, Hfl, Hins. simpl. exists [].
  split; [done|]. split; [done|]. split; [apply NoDup_nil_2|].
  split; [|split; [|split]].
  - intros r Hr. by apply elem_of_nil in Hr.
  - intros r Hr. by apply elem_of_empty in Hr.
  - intros r Hr. by apply elem_of_empty in Hr.
  - intros r Hst. unfold status_of in Hst.
    destruct (h !! r) as [rec|] eqn:Hr; [|done].
    injection Hst as Hst. rewrite (Hin r rec Hr) in Hst. discriminate.
Qed.

Lemma queue_inv_frame w fl ins w' :
  queue_inv (mk_proto w fl ins) -> queue_frame w w' -> queue_inv (mk_proto w' fl ins).
Proof.
  intros (q & Htr & Hex & Hnd & Hq & Hfl & Hins & Hst) (Hh & Ht & He).
  cbn [pworld in_flight inserting] in *.
  exists q. cbn [pworld in_flight inserting]. rewrite Hh, Ht.
  split; [done|]. split; [|done].
  destruct He as [->|(i & -> & Hi)]; [done|].
  rewrite Htr in Hi. simpl in Hi. f_equal. lia.
Qed.

Lemma queue_inv_step a st st' : queue_inv st -> sched_step a st st' -> queue_inv st'.
Proof.
  intros Hinv Hstep.
  destruct Hstep as [w fl ins r h' Hcas
                    |w fl ins r w' Hr Hin
                    |w fl ins res w' Hp
                    |w fl ins r wn w' Hr Hd
                    |w fl ins w' H].
  - (* the swap of a trigger *)
    destruct Hinv as (q & Htr & Hex & Hnd & Hq & Hfl & Hins & Hst).
    cbn [pworld in_flight inserting] in *.
    apply cas_true_inv in Hcas as (rec & Hr & Hs & ->).
    assert (Hina : status_of (heap w) r <> Some queued).
    { unfold status_of. rewrite Hr. simpl. congruence. }
    exists q. cbn [pworld in_flight inserting set_heap heap sched].
    split; [done|]. split; [done|]. split; [done|].
    split; [|split; [|split]].
    + intros r' Hr'. destruct (Hq r' Hr') as (Hs' & Hn1 & Hn2).
      assert (r <> r') by (intros ->; done).
      rewrite status_of_insert_ne by done. split; [done|]. split; [done|].
      by apply not_elem_of_add.
    + intros r' Hr'. destruct (Hfl r' Hr') as (Hs' & Hn).
      assert (r <> r') by (intros ->; done).
      rewrite status_of_insert_ne by done. split; [done|]. by apply not_elem_of_add.
    + intros r' [Hr'| ->%elem_of_singleton]%elem_of_union.
      * assert (r <> r') by (intros ->; by apply Hina, Hins).
        rewrite status_of_insert_ne by done. by apply Hins.
      * apply status_of_insert_eq.
    + intros r' Hr'. destruct (decide (r' = r)) as [->|Hne].
      * right. right. apply elem_of_add_r.
      * rewrite status_of_insert_ne in Hr' by done.
        destruct (Hst r' Hr') as [?|[?|?]];
          [by left|right; by left|right; right; by apply elem_of_add_l].
  - (* the insertion of a trigger *)
    destruct Hinv as (q & Htr & Hex & Hnd & Hq & Hfl & Hins & Hst).
    cbn [pworld in_flight inserting] in *.
    apply insert_reaction_inv in Hin as (q0 & rest & Htr' & ->).
    rewrite Htr in Htr'. injection Htr' as <- <-.
    assert (Hrq : r ∉ q).
    { intros Hrin. by destruct (Hq r Hrin) as (_ & _ & ?). }
    eexists. cbn [pworld in_flight inserting heap sched set_triggered_reactions
                  triggered_reactions executing_reactions].
    split; [reflexivity|]. split; [done|].
    split; [rewrite pqueue_insert_perm; by apply NoDup_cons_2|].
    split; [|split; [|split]].
    + intros r' Hr'. apply elem_of_pqueue_insert in Hr' as [->|Hr'].
      * split; [by apply Hins|]. split; [|apply not_elem_of_remove_eq].
        intros Hrfl. by destruct (Hfl r Hrfl).
      * destruct (Hq r' Hr') as (Hs' & Hn1 & Hn2). split; [done|]. split; [done|].
        by apply not_elem_of_remove.
    + intros r' Hr'. destruct (Hfl r' Hr') as (Hs' & Hn). split; [done|].
      by apply not_elem_of_remove.
    + intros r' [Hr' _]%elem_of_difference. by apply Hins.
    + intros r' Hr'. destruct (decide (r' = r)) as [->|Hne].
      * left. apply elem_of_pqueue_insert. by left.
      * destruct (Hst r' Hr') as [?|[?|?]].
        -- left. apply elem_of_pqueue_insert. by right.
        -- right. by left.
        -- right. right. by apply elem_of_remove.
  - (* a pop *)
    destruct Hinv as (q & Htr & Hex & Hnd & Hq & Hfl & Hins & Hst).
    cbn [pworld in_flight inserting] in *.
    rewrite (pop_executing_reactions_spec w 0 q Hex) in Hp by (by rewrite Htr).
    injection Hp as <- <-. rewrite Htr.
    exists (tail q). cbn [pworld in_flight inserting heap sched set_triggered_reactions
                         triggered_reactions executing_reactions].
    split; [done|]. split; [done|].
    destruct q as [|r0 q']; cbn [head tail handed].
    + split; [done|]. split; [|split; [|split]].
      * intros r Hr. by apply elem_of_nil in Hr.
      * intros r [Hr|Hr]%elem_of_union; [by apply Hfl|by apply elem_of_empty in Hr].
      * done.
      * intros r Hr. destruct (Hst r Hr) as [?|[?|?]];
          [by left|right; left; apply elem_of_union; by left|right; by right].
    + apply NoDup_cons in Hnd as [Hr0 Hnd].
      split; [done|]. split; [|split; [|split]].
      * intros r Hr. destruct (Hq r) as (Hs & Hn1 & Hn2); [by right|].
        split; [done|]. split; [|done].
        intros [?| ->%elem_of_singleton]%elem_of_union; done.
      * intros r [Hr| ->%elem_of_singleton]%elem_of_union; [by apply Hfl|].
        destruct (Hq r0) as (Hs & Hn1 & Hn2); [by left|]. done.
      * done.
      * intros r Hr. destruct (Hst r Hr) as [[->|?]%elem_of_cons|[?|?]].
        -- right. left. apply elem_of_add_r.
        -- by left.
        -- right. left. by apply elem_of_add_l.
        -- right. by right.
  - (* a completion *)
    destruct Hinv as (q & Htr & Hex & Hnd & Hq & Hfl & Hins & Hst).
    cbn [pworld in_flight inserting] in *.
    apply done_inv in Hd as (rec & Hr0 & Hs & ->).
    exists q. cbn [pworld in_flight inserting set_heap heap sched].
    split; [done|]. split; [done|]. split; [done|].
    split; [|split; [|split]].
    + intros r' Hr'. destruct (Hq r' Hr') as (Hs' & Hn1 & Hn2).
      assert (r <> r') by (intros ->; done).
      rewrite status_of_insert_ne by done. split; [done|].
      split; [by apply not_elem_of_remove|done].
    + intros r' [Hr' Hne]%elem_of_difference. destruct (Hfl r' Hr') as (Hs' & Hn).
      rewrite status_of_insert_ne; [done|].
      intros ->. by apply Hne, elem_of_singleton.
    + intros r' Hr'.
      assert (r <> r') by (intros ->; by destruct (Hfl r' Hr)).
      rewrite status_of_insert_ne by done. by apply Hins.
    + intros r' Hr'. destruct (decide (r' = r)) as [->|Hne].
      * rewrite status_of_insert_eq in Hr'. discriminate.
      * rewrite status_of_insert_ne in Hr' by done.
        destruct (Hst r' Hr') as [?|[?|?]];
          [by left|right; left; by apply elem_of_remove|right; by right].
  - by apply (queue_inv_frame w).
Qed.

Lemma reachable_queue_inv D st : reachable D st -> queue_inv st.
Proof.
  induction 1 as [st Hinit|a st st' _ IH Hstep].
  - by apply (queue_inv_initial D).
  - by apply (queue_inv_step a st).
Qed.

(** *** Calls of the worker API stay among the reachable states *)

Lemma trigger_reachable D st r wn w' :
  reachable D st ->
  lf_scheduler_trigger_reaction (Some r) wn (pworld st) = Ok tt w' ->
  reachable D (mk_proto w' (in_flight st) (inserting st)).
Proof.
  intros Hreach Htrig.
  pose proof (reachable_queue_inv D st Hreach) as (q & _ & _ & _ & _ & _ & Hins & _).
  destruct st as [w fl ins]. cbn [pworld in_flight inserting] in *.
  unfold lf_scheduler_trigger_reaction in Htrig.
  destruct (lf_atomic_bool_compare_and_swap32 _ _ _ _) as [[[] h']|] eqn:Hcas; [| |done].
  - assert (Hr : r ∉ ins).
    { intros Hr%Hins. apply cas_true_inv in Hcas as (rec & Hrec & Hs & _).
      unfold status_of in Hr. rewrite Hrec in Hr. simpl in Hr. congruence. }
    assert (Heq : (ins ∪ {[ r ]}) ∖ {[ r ]} = ins) by (by apply add_remove).
    rewrite <- Heq.
    eapply reach_step; [eapply reach_step; [exact Hreach|by apply step_swap]|].
    apply step_insert; [apply elem_of_add_r|done].
  - by injection Htrig as <-.
Qed.

Lemma done_reachable D st r wn w' :
  reachable D st ->
  r ∈ in_flight st ->
  lf_sched_done_with_reaction wn r (pworld st) = Ok tt w' ->
  reachable D (mk_proto w' (in_flight st ∖ {[ r ]}) (inserting st)).
Proof.
  destruct st as [w fl ins]. cbn [pworld in_flight inserting]. intros Hreach Hr Hd.
  eapply reach_step; [exact Hreach|]. by eapply step_done.
Qed.

Section Calls.

Variable D : Z.

Lemma keeps_reachable_ret {A} (a : A) : keeps_reachable D (ret a).
Proof. unfold ret. intros st a' w' Hreach [= _ <-]. by exists st. Qed.

Lemma keeps_reachable_bind {A B} (c : M A) (k : A -> M B) :
  keeps_reachable D c -> (forall a, keeps_reachable D (k a)) ->
  keeps_reachable D (bind c k).
Proof.
  intros Hc Hk st b w' Hreach Hrun. unfold bind in Hrun.
  destruct (c (pworld st)) as [a w1| | | | |] eqn:Hcw; try discriminate.
  destruct (Hc st a w1 Hreach Hcw) as (st1 & Hreach1 & Hw1).
  rewrite <- Hw1 in Hrun. by apply (Hk a st1 b w').
Qed.

(** The rest of the scheduler is made of steps of the other kind. *)
Lemma keeps_reachable_frames {A} (c : M A) : frames c -> keeps_reachable D c.
Proof.
  intros Hc [w fl ins] a w' Hreach H. exists (mk_proto w' fl ins). split; [|done].
  eapply reach_step; [exact Hreach|]. apply step_bookkeeping. by eapply Hc.
Qed.

Lemma keeps_reachable_trigger reaction wn :
  keeps_reachable D (lf_scheduler_trigger_reaction reaction wn).
Proof.
  intros st [] w' Hreach Htrig. destruct reaction as [r|].
  - exists (mk_proto w' (in_flight st) (inserting st)).
    split; [by eapply trigger_reachable|done].
  - injection Htrig as <-. by exists st.
Qed.

Variable _lf_sched_advance_tag_locked : M bool.
Variable lf_semaphore_acquire : M unit.
Hypothesis advance_keeps : keeps_reachable D _lf_sched_advance_tag_locked.
Hypothesis acquire_keeps : keeps_reachable D lf_semaphore_acquire.

Lemma keeps_reachable_advance_tag_loop dfuel fuel :
  keeps_reachable D (advance_tag_loop _lf_sched_advance_tag_locked dfuel fuel).
Proof.
  induction fuel as [|fuel IH]; [by intros st a w' ? ?|].
  simpl. apply keeps_reachable_bind; [apply keeps_reachable_frames, frames_get_sched|].
  intros s. apply keeps_reachable_bind.
  - destruct (_ =? _); [|apply keeps_reachable_ret].
    apply keeps_reachable_bind; [by apply keeps_reachable_frames, frames_modify|]. intros _.
    apply keeps_reachable_bind; [apply keeps_reachable_frames, frames_emit|]. intros _.
    apply keeps_reachable_bind; [apply advance_keeps|]. intros [|].
    + apply keeps_reachable_bind; [apply keeps_reachable_frames, frames_signal_stop|].
      intros _.
      apply keeps_reachable_bind; [apply keeps_reachable_frames, frames_emit|]. intros _.
      apply keeps_reachable_ret.
    + apply keeps_reachable_bind; [apply keeps_reachable_frames, frames_emit|]. intros _.
      apply keeps_reachable_ret.
  - intros [|]; [apply keeps_reachable_ret|].
    apply keeps_reachable_bind; [apply keeps_reachable_frames, frames_distribute|].
    intros n.
    destruct (n >? 0); [apply keeps_reachable_frames, frames_notify|apply IH].
Qed.

Lemma keeps_reachable_wait_for_work dfuel afuel wn :
  keeps_reachable D
    (_lf_sched_wait_for_work _lf_sched_advance_tag_locked lf_semaphore_acquire
       dfuel afuel wn).
Proof.
  apply keeps_reachable_bind; [apply keeps_reachable_frames, frames_idle|]. intros idle.
  apply keeps_reachable_bind; [apply keeps_reachable_frames, frames_get_sched|]. intros s.
  destruct (_ =? _); [|apply acquire_keeps].
  apply keeps_reachable_bind; [apply keeps_reachable_frames, frames_deref|]. intros exq.
  apply keeps_reachable_bind; [apply keeps_reachable_frames, frames_assert|]. intros _.
  apply keeps_reachable_advance_tag_loop.
Qed.

(** A call of [lf_sched_get_ready_reaction] that returns, returns in a
    reachable state, whatever the number of iterations of its loop; the
    reaction it returns is handed out in that state. *)
Lemma get_ready_reachable dfuel afuel fuel wn st res w' :
  reachable D st ->
  lf_sched_get_ready_reaction _lf_sched_advance_tag_locked lf_semaphore_acquire
    dfuel afuel fuel wn (pworld st) = Ok res w' ->
  exists st',
    reachable D st' /\ pworld st' = w' /\
    (forall r, res = Some r -> r ∈ in_flight st').
Proof.
  revert st. induction fuel as [|fuel IH]; intros st Hreach Hget; [discriminate|].
  rewrite get_ready_unfold in Hget.
  destruct (should_stop (sched (pworld st))); simpl in Hget.
  { injection Hget as <- <-. exists st. split; [done|]. split; done. }
  destruct (pop_executing_reactions (pworld st)) as [[r|] w1| | | | |] eqn:Hpop;
    try discriminate.
  - injection Hget as <- <-.
    destruct st as [w fl ins]. cbn [pworld] in Hpop.
    exists (mk_proto w1 (fl ∪ handed (Some r)) ins).
    split; [eapply reach_step; [exact Hreach|by apply step_pop]|]. split; [done|].
    intros r' [= <-]. apply elem_of_add_r.
  - destruct (_lf_sched_wait_for_work _ _ _ _ _ w1) as [[] w2| | | | |] eqn:Hwait;
      try discriminate.
    assert (Hreach1 : reachable D (mk_proto w1 (in_flight st ∪ handed None) (inserting st))).
    { destruct st as [w fl ins]. eapply reach_step; [exact Hreach|by apply step_pop]. }
    destruct (keeps_reachable_wait_for_work dfuel afuel wn _ tt w2 Hreach1 Hwait)
      as (st2 & Hreach2 & Hw2).
    rewrite <- Hw2 in Hget. by apply (IH st2 Hreach2).
Qed.

End Calls.

(** *** A short run *)

Lemma demo_world0_initial : initial 100 (mk_proto demo_world0 ∅ ∅).
Proof.
  exists 2, None. eexists _, _.
  split; [reflexivity|]. split; [reflexivity|]. split; [reflexivity|].
  split; [reflexivity|].
  intros r rec [_ <-]%lookup_singleton_Some. done.
Qed.

Lemma demo_initial : reachable 100 (mk_proto demo_world0 ∅ ∅).
Proof. apply reach_initial, demo_world0_initial. Qed.

Lemma demo_swapped_reachable : reachable 100 demo_swapped.
Proof.
  apply (reach_step 100 (ASwap 1) _ _ demo_initial).
  apply (step_swap demo_world0 ∅ ∅ 1%positive). reflexivity.
Qed.

Lemma demo_triggered_reachable : reachable 100 demo_triggered.
Proof.
  apply (reach_step 100 (AInsert 1) _ _ demo_swapped_reachable).
  apply step_insert; [apply elem_of_add_r|]. reflexivity.
Qed.

Lemma demo_fetched_reachable : reachable 100 demo_fetched.
Proof.
  apply (reach_step 100 (APop (Some 1%positive)) _ _ demo_triggered_reachable).
  apply step_pop.
  by rewrite (pop_executing_reactions_spec demo_world1 0 [1%positive]).
Qed.

Lemma on_queue_single w q r :
  triggered_reactions (sched w) = [q] -> (on_queue w r <-> r ∈ q).
Proof. intros Htr. unfold on_queue, reaction_queue. by rewrite Htr. Qed.

(** C4 as stated fails: once [lf_sched_get_ready_reaction] has popped the
    reaction, its status is still [queued] but it is no longer contained in
    the reaction queue.  The state is the one after [lf_sched_init], a
    trigger of the reaction at address 1 and a call of
    [lf_sched_get_ready_reaction]. *)
Lemma C4_queued_off_queue_counterexample :
  exists st,
    initial 100 (mk_proto demo_world0 ∅ ∅) /\
    lf_scheduler_trigger_reaction (Some 1%positive) 0 demo_world0 = Ok tt demo_world1 /\
    lf_sched_get_ready_reaction advance_to_stop acquire_now 1 1 1 0 demo_world1
      = Ok (Some 1%positive) (pworld st) /\
    reachable 100 st /\
    status_of (heap (pworld st)) 1%positive = Some queued /\
    ~ on_queue (pworld st) 1%positive.
Proof.
  exists demo_fetched.
  split; [apply demo_world0_initial|].
  split; [by apply trigger_inactive|].
  split.
  { rewrite get_ready_unfold.
    by rewrite (pop_executing_reactions_spec demo_world1 0 [1%positive]). }
  split; [apply demo_fetched_reachable|]. split.
  - reflexivity.
  - unfold on_queue, reaction_queue. simpl. apply not_elem_of_nil.
Qed.

(** C4, amended.  In every state that the threads reach from
    [lf_sched_init] by interleaving the steps of the worker API, a reaction
    contained in the reaction queue has status [queued], and a reaction has
    status [queued] if and only if it is in the reaction queue, or has been
    handed out by [lf_sched_get_ready_reaction] and not yet been passed to
    [lf_sched_done_with_reaction], or has had its status swapped by a
    [lf_scheduler_trigger_reaction] that has not yet inserted it; never
    two of the three.  In particular, each leading to a reachable state
    again: after the swap of a trigger and before its insertion, [r] is
    off the queue with status [queued]; after
    [lf_scheduler_trigger_reaction] has inserted [r], [r] is in the queue
    with status [queued]; after [lf_sched_get_ready_reaction] has popped
    [r], after any number of iterations of its loop, [r] is off the queue
    with status [queued]; after [lf_sched_done_with_reaction] completes on
    [r], [r] is off the queue with status [inactive]. *)
Theorem C4_queue_membership D st r :
  reachable D st ->
  (on_queue (pworld st) r -> status_of (heap (pworld st)) r = Some queued) /\
  (status_of (heap (pworld st)) r = Some queued <->
     on_queue (pworld st) r \/ r ∈ in_flight st \/ r ∈ inserting st) /\
  ~ (on_queue (pworld st) r /\ r ∈ in_flight st) /\
  ~ (on_queue (pworld st) r /\ r ∈ inserting st) /\
  ~ (r ∈ in_flight st /\ r ∈ inserting st) /\
  (forall h',
     lf_atomic_bool_compare_and_swap32 (heap (pworld st)) r inactive queued
       = Some (true, h') ->
     reachable D (mk_proto (set_heap h' (pworld st)) (in_flight st) (inserting st ∪ {[ r ]})) /\
     ~ on_queue (set_heap h' (pworld st)) r /\
     status_of h' r = Some queued) /\
  (forall wn w',
     status_of (heap (pworld st)) r = Some inactive ->
     lf_scheduler_trigger_reaction (Some r) wn (pworld st) = Ok tt w' ->
     reachable D (mk_proto w' (in_flight st) (inserting st)) /\
     on_queue w' r /\ status_of (heap w') r = Some queued) /\
  (forall advance_tag acquire dfuel afuel fuel wn w',
     keeps_reachable D advance_tag -> keeps_reachable D acquire ->
     lf_sched_get_ready_reaction advance_tag acquire dfuel afuel fuel wn (pworld st)
       = Ok (Some r) w' ->
     (exists st', reachable D st' /\ pworld st' = w' /\ r ∈ in_flight st') /\
     ~ on_queue w' r /\ status_of (heap w') r = Some queued) /\
  (forall wn w',
     r ∈ in_flight st ->
     lf_sched_done_with_reaction wn r (pworld st) = Ok tt w' ->
     reachable D (mk_proto w' (in_flight st ∖ {[ r ]}) (inserting st)) /\
     ~ on_queue w' r /\ status_of (heap w') r = Some inactive).
Proof.
  intros Hreach.
  pose proof (reachable_queue_inv D st Hreach) as (q & Htr & Hex & Hnd & Hq & Hfl & Hins & Hst).
  pose proof (fun r' => on_queue_single (pworld st) q r' Htr) as Hon.
  split; [|split; [|split; [|split; [|split; [|split; [|split; [|split]]]]]]].
  - intros Hin%Hon. by apply Hq.
  - split.
    + intros [Hin|[Hin|Hin]]%Hst; [left; by apply Hon|right; by left|right; by right].
    + intros [Hin%Hon|[Hin|Hin]]; [by apply Hq|by apply Hfl|by apply Hins].
  - intros [Hin%Hon Hin']. by destruct (Hq r Hin) as (_ & ? & _).
  - intros [Hin%Hon Hin']. by destruct (Hq r Hin) as (_ & _ & ?).
  - intros [Hin Hin']. by destruct (Hfl r Hin).
  - intros h' Hcas.
    assert (Hreach' : reachable D (mk_proto (set_heap h' (pworld st)) (in_flight st)
                                     (inserting st ∪ {[ r ]}))).
    { destruct st as [w fl ins]. eapply reach_step; [exact Hreach|by apply step_swap]. }
    split; [done|].
    apply cas_true_inv in Hcas as (rec & Hr & Hs & ->).
    split; [|apply status_of_insert_eq].
    pose proof (reachable_queue_inv D _ Hreach') as (q' & Htr' & _ & _ & Hq' & _).
    intros Hq0%(on_queue_single _ q' r Htr').
    destruct (Hq' r Hq0) as (_ & _ & Hn). apply Hn. apply elem_of_add_r.
  - intros wn w' Hina Htrig.
    pose proof (trigger_reachable D st r wn w' Hreach Htrig) as Hreach'.
    split; [done|].
    pose proof (reachable_queue_inv D _ Hreach') as (q' & Htr' & _ & _ & _ & Hfl' & Hins' & Hst').
    cbn [pworld in_flight inserting] in *.
    unfold status_of in Hina. destruct (heap (pworld st) !! r) as [rec|] eqn:Hr; [|done].
    injection Hina as Hina.
    rewrite (trigger_inactive (pworld st) r rec q [] wn Hr Hina Htr) in Htrig.
    injection Htrig as <-.
    assert (Hs : status_of (heap (triggered r rec q [] (pworld st))) r = Some queued)
      by apply status_of_insert_eq.
    split; [|done].
    apply (on_queue_single _ q' r Htr').
    assert (Hold : status_of (heap (pworld st)) r <> Some queued).
    { unfold status_of. rewrite Hr. simpl. congruence. }
    destruct (Hst' r Hs) as [?|[Hin|Hin]]; [done| |].
    + by destruct (Hfl r Hin).
    + by specialize (Hins r Hin).
  - intros adv acq dfuel afuel fuel wn w' Hadv Hacq Hget.
    destruct (get_ready_reachable D adv acq Hadv Hacq dfuel afuel fuel wn st (Some r) w'
                Hreach Hget) as (st' & Hreach' & Hw' & Hres).
    specialize (Hres r eq_refl).
    split; [by exists st'|].
    pose proof (reachable_queue_inv D _ Hreach') as (q' & Htr' & _ & _ & Hq' & Hfl' & _).
    subst w'. split; [|by apply Hfl'].
    intros Hq0%(on_queue_single _ q' r Htr'). by destruct (Hq' r Hq0) as (_ & ? & _).
  - intros wn w' Hin Hdone.
    pose proof (done_reachable D st r wn w' Hreach Hin Hdone) as Hreach'.
    split; [done|].
    pose proof (reachable_queue_inv D _ Hreach') as (q' & Htr' & _ & _ & Hq' & _).
    cbn [pworld in_flight inserting] in *.
    apply done_inv in Hdone as (rec & Hr & Hs & ->).
    assert (Hs' : status_of (heap (set_heap (<[r:=set_status rec inactive]> (heap (pworld st)))
                                     (pworld st))) r = Some inactive)
      by apply status_of_insert_eq.
    split; [|done].
    intros Hq0%(on_queue_single _ q' r Htr').
    destruct (Hq' r Hq0) as (Hs'' & _). rewrite Hs' in Hs''. discriminate.
Qed.

Lemma C4_queue_membership_witness :
  (status_of (heap (pworld demo_fetched)) 1%positive = Some queued <->
     on_queue (pworld demo_fetched) 1%positive \/ 1%positive ∈ in_flight demo_fetched \/
     1%positive ∈ inserting demo_fetched) /\
  (status_of (heap (pworld demo_swapped)) 1%positive = Some queued <->
     on_queue (pworld demo_swapped) 1%positive \/ 1%positive ∈ in_flight demo_swapped \/
     1%positive ∈ inserting demo_swapped).
Proof.
  split.
  - apply (C4_queue_membership 100 demo_fetched 1%positive demo_fetched_reachable).
  - apply (C4_queue_membership 100 demo_swapped 1%positive demo_swapped_reachable).
Defined.

(** ** Triggering once *)

(** C1. Of n >= 1 calls to [lf_scheduler_trigger_reaction] on a reaction
    [r] whose status is [inactive], the first performs the swap from
    [inactive] to [queued] and inserts [r] into the reaction queue once;
    every further call returns with the state (status, queue and all)
    exactly as it found it, so the n calls together leave the state of the
    first.  The further calls need not follow at once: whatever the
    threads do after the first call (triggers of other reactions, pops,
    also of [r], completions of other reactions, distribution and the
    rest), as long as [r] is not reported done, the status of [r] stays
    [queued], no step swaps it or inserts [r] again, and a trigger of [r]
    returns with the state as it found it.  In every state whatsoever, a
    trigger of a reaction whose status is not [inactive] changes
    nothing. *)
Theorem C1_trigger_once w r rec q0 rest wn (wns : list Z) :
  heap w !! r = Some rec -> status rec = inactive ->
  triggered_reactions (sched w) = q0 :: rest ->
  exists w1,
    lf_scheduler_trigger_reaction (Some r) wn w = Ok tt w1 /\
    status_of (heap w1) r = Some queued /\
    (exists q1, triggered_reactions (sched w1) = q1 :: rest /\ q1 ≡ₚ r :: q0) /\
    (forall wn', lf_scheduler_trigger_reaction (Some r) wn' w1 = Ok tt w1) /\
    trigger_calls r (wn :: wns) w = Ok tt w1 /\
    (forall fl ins acts st',
       r ∉ ins ->
       sched_run acts (mk_proto w1 fl ins) st' ->
       ADone r ∉ acts ->
       status_of (heap (pworld st')) r = Some queued /\
       (ASwap r ∉ acts) /\ (AInsert r ∉ acts) /\
       (forall wn' wns',
          lf_scheduler_trigger_reaction (Some r) wn' (pworld st') = Ok tt (pworld st') /\
          trigger_calls r wns' (pworld st') = Ok tt (pworld st'))) /\
    (forall w' r' rec' wn',
       heap w' !! r' = Some rec' -> status rec' <> inactive ->
       lf_scheduler_trigger_reaction (Some r') wn' w' = Ok tt w').
Proof.
  intros Hr Hs Hq. exists (triggered r rec q0 rest w).
  assert (Hr1 : heap (triggered r rec q0 rest w) !! r = Some (set_status rec queued))
    by (simpl; apply lookup_insert_eq).
  split; [by apply trigger_inactive|].
  split; [simpl; apply status_of_insert_eq|].
  split; [eexists; split; [reflexivity|]; apply pqueue_insert_perm|].
  split; [intros wn'; by apply (trigger_not_inactive _ _ _ _ Hr1)|].
  split.
  { simpl. unfold bind. rewrite (trigger_inactive w r rec q0 rest wn Hr Hs Hq).
    by apply (trigger_calls_queued _ _ _ _ Hr1). }
  split; [|intros w' r' rec' wn'; apply trigger_not_inactive].
  intros fl ins acts st' Hni Hrun Hnd.
  assert (Hst : status_of (heap (pworld (mk_proto (triggered r rec q0 rest w) fl ins))) r
                = Some queued) by (simpl; apply status_of_insert_eq).
  destruct (sched_run_keeps_queued acts _ st' r Hrun Hst Hni Hnd) as (Hst' & Hsw & Hin).
  split; [done|]. split; [done|]. split; [done|].
  unfold status_of in Hst'.
  destruct (heap (pworld st') !! r) as [rec'|] eqn:Hr'; [|done].
  injection Hst' as Hst'. intros wn' wns'. split.
  - apply (trigger_not_inactive _ _ rec'); [done|]. rewrite Hst'. discriminate.
  - by apply (trigger_calls_queued _ _ rec').
Qed.

Lemma C1_trigger_once_witness :
  exists w1,
    lf_scheduler_trigger_reaction (Some 1%positive) 0 sample_world = Ok tt w1 /\
    status_of (heap w1) 1%positive = Some queued /\
    (exists q1, triggered_reactions (sched w1) = q1 :: [] /\ q1 ≡ₚ 1%positive :: []) /\
    (forall wn', lf_scheduler_trigger_reaction (Some 1%positive) wn' w1 = Ok tt w1) /\
    trigger_calls 1%positive [0; 1; -1] sample_world = Ok tt w1 /\
    (forall fl ins acts st',
       1%positive ∉ ins ->
       sched_run acts (mk_proto w1 fl ins) st' ->
       ADone 1%positive ∉ acts ->
       status_of (heap (pworld st')) 1%positive = Some queued /\
       (ASwap 1%positive ∉ acts) /\ (AInsert 1%positive ∉ acts) /\
       (forall wn' wns',
          lf_scheduler_trigger_reaction (Some 1%positive) wn' (pworld st')
            = Ok tt (pworld st') /\
          trigger_calls 1%positive wns' (pworld st') = Ok tt (pworld st'))) /\
    (forall w' r' rec' wn',
       heap w' !! r' = Some rec' -> status rec' <> inactive ->
       lf_scheduler_trigger_reaction (Some r') wn' w' = Ok tt w').
Proof.
  exact (C1_trigger_once sample_world 1%positive (mk_reaction 5 inactive) [] [] 0 [1; -1]
           eq_refl eq_refl eq_refl).
Defined.

(** ** The round trip *)

(** C7. For a reaction [r] with status [inactive], a trigger sets the
    status to [queued]; [lf_sched_done_with_reaction] then returns normally
    with the status back at [inactive]; and a further trigger swaps the
    status to [queued] and inserts [r] once more.  This holds when the
    completion follows the trigger at once, and when a worker has fetched
    [r] in between, as the workers do: [lf_sched_get_ready_reaction] hands
    out [r], the completion leaves the queue without [r] and the status
    [inactive], and the further trigger puts [r] into the queue once.  In
    every state whatsoever in which the status of [r] is [queued], the
    completion returns normally, sets the status to [inactive] and changes
    nothing else, and the trigger that follows swaps the status and adds
    [r] to the queue once.  Moreover [lf_sched_done_with_reaction] leaves
    through [lf_print_error_and_exit] exactly when the status is not
    [queued] at the call. *)
Theorem C7_trigger_done_roundtrip w r rec q0 rest wn1 wn2 wn3 :
  heap w !! r = Some rec -> status rec = inactive ->
  triggered_reactions (sched w) = q0 :: rest ->
  (exists w1 w2 w3 q2 q3,
     lf_scheduler_trigger_reaction (Some r) wn1 w = Ok tt w1 /\
     status_of (heap w1) r = Some queued /\
     lf_sched_done_with_reaction wn2 r w1 = Ok tt w2 /\
     status_of (heap w2) r = Some inactive /\
     triggered_reactions (sched w2) = q2 :: rest /\
     lf_scheduler_trigger_reaction (Some r) wn3 w2 = Ok tt w3 /\
     status_of (heap w3) r = Some queued /\
     triggered_reactions (sched w3) = q3 :: rest /\ q3 ≡ₚ r :: q2) /\
  (forall w' r' rec' wn,
     heap w' !! r' = Some rec' ->
     (lf_sched_done_with_reaction wn r' w' = ErrorExit <-> status rec' <> queued)) /\
  (forall w' r' rec' q' rest' wn wn',
     heap w' !! r' = Some rec' -> status rec' = queued ->
     triggered_reactions (sched w') = q' :: rest' ->
     exists w2 w3 q3,
       lf_sched_done_with_reaction wn r' w' = Ok tt w2 /\
       status_of (heap w2) r' = Some inactive /\
       sched w2 = sched w' /\ log w2 = log w' /\
       (forall r'', r'' <> r' -> heap w2 !! r'' = heap w' !! r'') /\
       lf_scheduler_trigger_reaction (Some r') wn' w2 = Ok tt w3 /\
       status_of (heap w3) r' = Some queued /\
       triggered_reactions (sched w3) = q3 :: rest' /\ q3 ≡ₚ r' :: q') /\
  (forall advance_tag acquire dfuel afuel fuel wn,
     q0 = [] -> executing_reactions (sched w) = Some 0%nat ->
     should_stop (sched w) = false ->
     exists w1 w2 w3 w4,
       lf_scheduler_trigger_reaction (Some r) wn1 w = Ok tt w1 /\
       lf_sched_get_ready_reaction advance_tag acquire dfuel afuel (S fuel) wn w1
         = Ok (Some r) w2 /\
       reaction_queue w2 = [] /\ status_of (heap w2) r = Some queued /\
       lf_sched_done_with_reaction wn2 r w2 = Ok tt w3 /\
       reaction_queue w3 = [] /\ status_of (heap w3) r = Some inactive /\
       lf_scheduler_trigger_reaction (Some r) wn3 w3 = Ok tt w4 /\
       reaction_queue w4 = [r] /\ status_of (heap w4) r = Some queued).
Proof.
  intros Hr Hs Hq. split; [|split; [|split]].
  - set (w1 := triggered r rec q0 rest w).
    assert (Hr1 : heap w1 !! r = Some (set_status rec queued))
      by (simpl; apply lookup_insert_eq).
    set (w2 := set_heap (<[r := set_status (set_status rec queued) inactive]> (heap w1)) w1).
    assert (Hr2 : heap w2 !! r = Some (set_status (set_status rec queued) inactive))
      by (simpl; apply lookup_insert_eq).
    exists w1, w2, (triggered r (set_status (set_status rec queued) inactive)
                      (pqueue_insert (get_reaction_index (heap w1)) q0 r) rest w2).
    eexists _, _.
    split; [by apply trigger_inactive|].
    split; [apply status_of_insert_eq|].
    split; [by apply done_queued|].
    split; [apply status_of_insert_eq|].
    split; [reflexivity|].
    split; [by apply trigger_inactive|].
    split; [apply status_of_insert_eq|].
    split; [reflexivity|]. apply pqueue_insert_perm.
  - intros w' r' rec' wn Hr'. split.
    + intros Hexit Hst.
      rewrite (done_queued _ _ _ wn Hr' Hst) in Hexit. discriminate.
    + intros Hst. by apply (done_not_queued _ _ rec').
  - intros w' r' rec' q' rest' wn wn' Hr' Hs' Hq'.
    set (w2 := set_heap (<[r' := set_status rec' inactive]> (heap w')) w').
    assert (Hr2 : heap w2 !! r' = Some (set_status rec' inactive))
      by (simpl; apply lookup_insert_eq).
    exists w2, (triggered r' (set_status rec' inactive) q' rest' w2). eexists.
    split; [by apply done_queued|].
    split; [apply status_of_insert_eq|].
    split; [done|]. split; [done|].
    split; [intros r'' Hne; simpl; by rewrite lookup_insert_ne|].
    split; [by apply trigger_inactive|].
    split; [apply status_of_insert_eq|].
    split; [reflexivity|]. apply pqueue_insert_perm.
  - intros adv acq dfuel afuel fuel wn -> Hex Hstop.
    set (w1 := triggered r rec [] rest w).
    assert (Hpop : pop_executing_reactions w1
                   = Ok (Some r)
                       (mk_world (heap w1)
                          (set_triggered_reactions
                             (<[0%nat := []]> (triggered_reactions (sched w1))) (sched w1))
                          (log w1 ++ [EvLock queue_mutex; EvUnlock queue_mutex]))).
    { by rewrite (pop_executing_reactions_spec w1 0 [r]). }
    set (w2 := mk_world (heap w1)
                 (set_triggered_reactions
                    (<[0%nat := []]> (triggered_reactions (sched w1))) (sched w1))
                 (log w1 ++ [EvLock queue_mutex; EvUnlock queue_mutex])) in *.
    assert (Hr2 : heap w2 !! r = Some (set_status rec queued))
      by (simpl; apply lookup_insert_eq).
    set (w3 := set_heap (<[r := set_status (set_status rec queued) inactive]> (heap w2)) w2).
    assert (Hr3 : heap w3 !! r = Some (set_status (set_status rec queued) inactive))
      by (simpl; apply lookup_insert_eq).
    exists w1, w2, w3,
      (triggered r (set_status (set_status rec queued) inactive) [] rest w3).
    split; [by apply trigger_inactive|].
    split.
    { rewrite get_ready_unfold.
      replace (should_stop (sched w1)) with false by (symmetry; exact Hstop).
      simpl negb. cbv iota. by rewrite Hpop. }
    split; [done|].
    split; [apply status_of_insert_eq|].
    split; [by apply done_queued|].
    split; [done|].
    split; [apply status_of_insert_eq|].
    split; [by apply trigger_inactive|].
    split; [done|]. apply status_of_insert_eq.
Qed.

Lemma C7_trigger_done_roundtrip_witness :
  (exists w1 w2 w3 q2 q3,
     lf_scheduler_trigger_reaction (Some 1%positive) 0 sample_world = Ok tt w1 /\
     status_of (heap w1) 1%positive = Some queued /\
     lf_sched_done_with_reaction 0 1%positive w1 = Ok tt w2 /\
     status_of (heap w2) 1%positive = Some inactive /\
     triggered_reactions (sched w2) = q2 :: [] /\
     lf_scheduler_trigger_reaction (Some 1%positive) 1 w2 = Ok tt w3 /\
     status_of (heap w3) 1%positive = Some queued /\
     triggered_reactions (sched w3) = q3 :: [] /\ q3 ≡ₚ 1%positive :: q2) /\
  (exists w1 w2 w3 w4,
     lf_scheduler_trigger_reaction (Some 1%positive) 0 sample_world = Ok tt w1 /\
     lf_sched_get_ready_reaction advance_to_stop acquire_now 1 1 1 0 w1
       = Ok (Some 1%positive) w2 /\
     reaction_queue w2 = [] /\ status_of (heap w2) 1%positive = Some queued /\
     lf_sched_done_with_reaction 0 1%positive w2 = Ok tt w3 /\
     reaction_queue w3 = [] /\ status_of (heap w3) 1%positive = Some inactive /\
     lf_scheduler_trigger_reaction (Some 1%positive) 1 w3 = Ok tt w4 /\
     reaction_queue w4 = [1%positive] /\ status_of (heap w4) 1%positive = Some queued).
Proof.
  pose proof (C7_trigger_done_roundtrip sample_world 1%positive (mk_reaction 5 inactive)
                [] [] 0 0 1 eq_refl eq_refl eq_refl) as (H1 & _ & _ & H4).
  split; [exact H1|].
  exact (H4 advance_to_stop acquire_now 1%nat 1%nat 0%nat 0 eq_refl eq_refl eq_refl).
Defined.

(** ** Level order *)

Section Levels.

(** [LF_LEVEL(index)] extracts the level from the index; the macro is a
    parameter, as are the two external calls of the workers. *)
Variable LF_LEVEL : Z -> Z.
Variable _lf_sched_advance_tag_locked : M bool.
Variable lf_semaphore_acquire : M unit.
Variables dfuel afuel : nat.

Local Abbreviation get_ready :=
  (lf_sched_get_ready_reaction _lf_sched_advance_tag_locked lf_semaphore_acquire dfuel afuel).

(** C10 fails on the code.  Take a program of three levels with a reaction
    at address 1 and a reaction of a higher level at address 2, two
    workers, and trigger reaction 2 and then reaction 1 at the start.
    Worker 0 asks for a reaction and is given 1; worker 1 asks next and is
    given 2 at once, while reaction 1 has not been reported done (its
    status is still [queued], it is in neither queue nor done): the
    reaction of the higher level starts before the one of the lower level
    has completed. *)
Theorem C10_higher_level_starts_early D ia ib :
  ia < ib -> LF_LEVEL ia < LF_LEVEL ib ->
  let h : gmap positive reaction_t :=
    {[ 1%positive := mk_reaction ia inactive; 2%positive := mk_reaction ib inactive ]} in
  exists s w1 w2 w3 w4,
    lf_sched_init D None 2 (Some (mk_params (Some [1; 1; 1]) 3)) = Some s /\
    lf_scheduler_trigger_reaction (Some 2%positive) (-1) (mk_world h s []) = Ok tt w1 /\
    lf_scheduler_trigger_reaction (Some 1%positive) (-1) w1 = Ok tt w2 /\
    get_ready 1 0 w2 = Ok (Some 1%positive) w3 /\
    get_ready 1 1 w3 = Ok (Some 2%positive) w4 /\
    status_of (heap w4) 1%positive = Some queued /\
    status_of (heap w4) 2%positive = Some queued /\
    reaction_queue w4 = [] /\
    LF_LEVEL (get_reaction_index (heap w4) 1%positive)
      < LF_LEVEL (get_reaction_index (heap w4) 2%positive).
Proof.
  intros Hidx Hlvl h.
  set (s := mk_sched [ [] ] (Some 0%nat) 0 2 0 1 2 false).
  set (w0 := mk_world h s []).
  set (w1 := triggered 2%positive (mk_reaction ib inactive) [] [] w0).
  set (w2 := triggered 1%positive (mk_reaction ia inactive) [2%positive] [] w1).
  assert (Hq2 : triggered_reactions (sched w2) = [ [1%positive; 2%positive] ]).
  { unfold w2, triggered. simpl. unfold get_reaction_index.
    rewrite lookup_insert_eq, lookup_insert_ne, lookup_insert_eq by done. simpl.
    by destruct (Z.ltb_spec ia ib); [|lia]. }
  set (w3 := mk_world (heap w2)
               (set_triggered_reactions [ [2%positive] ] (sched w2))
               (log w2 ++ [EvLock queue_mutex; EvUnlock queue_mutex])).
  set (w4 := mk_world (heap w3)
               (set_triggered_reactions [ [] ] (sched w3))
               (log w3 ++ [EvLock queue_mutex; EvUnlock queue_mutex])).
  exists s, w1, w2, w3, w4.
  split; [reflexivity|].
  split; [by apply trigger_inactive|].
  split; [by apply trigger_inactive|].
  split.
  { rewrite get_ready_unfold.
    rewrite (pop_executing_reactions_spec w2 0 [1%positive; 2%positive]) by (by rewrite ?Hq2).
    rewrite Hq2. reflexivity. }
  split.
  { rewrite get_ready_unfold.
    by rewrite (pop_executing_reactions_spec w3 0 [2%positive]). }
  assert (H1 : heap w4 !! 1%positive = Some (mk_reaction ia queued)).
  { simpl. by rewrite lookup_insert_eq. }
  assert (H2 : heap w4 !! 2%positive = Some (mk_reaction ib queued)).
  { simpl. by rewrite lookup_insert_ne, lookup_insert_eq. }
  unfold status_of, get_reaction_index. rewrite H1, H2. by repeat split.
Qed.

End Levels.

Lemma C10_higher_level_starts_early_witness :
  exists s w1 w2 w3 w4,
    lf_sched_init 100 None 2 (Some (mk_params (Some [1; 1; 1]) 3)) = Some s /\
    lf_scheduler_trigger_reaction (Some 2%positive) (-1)
      (mk_world {[ 1%positive := mk_reaction 1 inactive; 2%positive := mk_reaction 2 inactive ]} s [])
      = Ok tt w1 /\
    lf_scheduler_trigger_reaction (Some 1%positive) (-1) w1 = Ok tt w2 /\
    lf_sched_get_ready_reaction advance_to_stop acquire_now 1 1 1 0 w2 = Ok (Some 1%positive) w3 /\
    lf_sched_get_ready_reaction advance_to_stop acquire_now 1 1 1 1 w3 = Ok (Some 2%positive) w4 /\
    status_of (heap w4) 1%positive = Some queued /\
    status_of (heap w4) 2%positive = Some queued /\
    reaction_queue w4 = [] /\
    get_reaction_index (heap w4) 1%positive < get_reaction_index (heap w4) 2%positive.
Proof.
  apply (C10_higher_level_starts_early (fun i => i) advance_to_stop acquire_now 1 1 100 1 2);
    reflexivity.
Defined.

(** * Further properties of the scheduler *)

(** ** The stop flag *)

Lemma stop_stable_ret {A} (a : A) : stop_stable (ret a).
Proof. unfold ret. intros w a' w' Hs [= <- <-]. done. Qed.

Lemma stop_stable_bind {A B} (c : M A) (k : A -> M B) :
  stop_stable c -> (forall a, stop_stable (k a)) -> stop_stable (bind c k).
Proof.
  intros Hc Hk w b w' Hs Hrun. unfold bind in Hrun.
  destruct (c w) as [a w1| | | | |] eqn:Hcw; try discriminate.
  eapply Hk; [|exact Hrun]. by eapply Hc.
Qed.

Lemma stop_stable_emit e : stop_stable (emit e).
Proof. unfold emit. intros w a w' Hs [= _ <-]. done. Qed.

Lemma stop_stable_get_sched : stop_stable get_sched.
Proof. unfold get_sched. intros w a w' Hs [= <- <-]. done. Qed.

Lemma stop_stable_modify f :
  (forall s, should_stop s = true -> should_stop (f s) = true) ->
  stop_stable (modify_sched f).
Proof. unfold modify_sched. intros Hf w a w' Hs [= _ <-]. simpl. by apply Hf. Qed.

Lemma stop_stable_read i : stop_stable (read_triggered_reactions i).
Proof.
  intros w a w' Hs. unfold read_triggered_reactions.
  destruct (_ !! _); [|done]. by intros [= <- <-].
Qed.

Lemma stop_stable_deref : stop_stable deref_executing_reactions.
Proof.
  intros w a w' Hs. unfold deref_executing_reactions.
  destruct (executing_reactions _); [|done].
  destruct (_ !! _); [|done]. by intros [= <- <-].
Qed.

Lemma stop_stable_assert b : stop_stable (c_assert b).
Proof. intros w a w' Hs. unfold c_assert. destruct b; [|done]. by intros [= _ <-]. Qed.

Lemma stop_stable_release n : stop_stable (lf_semaphore_release n).
Proof.
  apply stop_stable_bind; [by apply stop_stable_modify|].
  intros _. apply stop_stable_emit.
Qed.

Lemma stop_stable_distribute fuel : stop_stable (_lf_sched_distribute_ready_reactions fuel).
Proof.
  unfold _lf_sched_distribute_ready_reactions.
  induction fuel as [|fuel IH]; [by intros w a w' _ ?|].
  simpl. apply stop_stable_bind; [apply stop_stable_get_sched|]. intros s.
  destruct (next_reaction_level s <=? max_reaction_level s); [|apply stop_stable_ret].
  apply stop_stable_bind; [by apply stop_stable_modify|]. intros _.
  apply stop_stable_bind; [apply stop_stable_get_sched|]. intros s'.
  apply stop_stable_bind; [apply stop_stable_read|]. intros q.
  destruct (negb _); [|done].
  apply stop_stable_bind; [by apply stop_stable_modify|]. intros _. apply stop_stable_ret.
Qed.

Lemma stop_stable_notify : stop_stable _lf_sched_notify_workers.
Proof.
  apply stop_stable_bind; [apply stop_stable_get_sched|]. intros s.
  apply stop_stable_bind; [apply stop_stable_deref|]. intros exq.
  apply stop_stable_bind; [by apply stop_stable_modify|]. intros _.
  destruct (_ >? 1); [apply stop_stable_release|apply stop_stable_ret].
Qed.

Lemma stop_stable_signal_stop : stop_stable _lf_sched_signal_stop.
Proof.
  apply stop_stable_bind; [by apply stop_stable_modify|]. intros _.
  apply stop_stable_bind; [apply stop_stable_get_sched|]. intros s.
  apply stop_stable_release.
Qed.

Lemma stop_stable_trigger reaction wn : stop_stable (lf_scheduler_trigger_reaction reaction wn).
Proof.
  intros w a w' Hs. unfold lf_scheduler_trigger_reaction.
  destruct reaction as [r|]; [|by intros [= _ <-]].
  destruct (lf_atomic_bool_compare_and_swap32 _ _ _ _) as [[[] h']|]; [| |done].
  - unfold _lf_sched_insert_reaction, bind, LF_MUTEX_LOCK, LF_MUTEX_UNLOCK, emit,
      read_triggered_reactions, write_queue, modify_sched, upd_sched, set_heap;
      cbn [heap sched log].
    destruct (_ !! _); [|done]. by intros [= _ <-].
  - by intros [= _ <-].
Qed.

Lemma stop_stable_done wn r : stop_stable (lf_sched_done_with_reaction wn r).
Proof.
  intros w a w' Hs. unfold lf_sched_done_with_reaction.
  destruct (lf_atomic_bool_compare_and_swap32 _ _ _ _) as [[[] h']|]; [| |done]; [|done].
  by intros [= _ <-].
Qed.

Section StopFlag.

Variable _lf_sched_advance_tag_locked : M bool.
Variable lf_semaphore_acquire : M unit.
Hypothesis advance_keeps_stop : stop_stable _lf_sched_advance_tag_locked.
Hypothesis acquire_keeps_stop : stop_stable lf_semaphore_acquire.

Lemma stop_stable_advance_tag_loop dfuel fuel :
  stop_stable (advance_tag_loop _lf_sched_advance_tag_locked dfuel fuel).
Proof.
  induction fuel as [|fuel IH]; [by intros w a w' _ ?|].
  simpl. apply stop_stable_bind; [apply stop_stable_get_sched|]. intros s.
  apply stop_stable_bind.
  - destruct (_ =? _); [|apply stop_stable_ret].
    apply stop_stable_bind; [by apply stop_stable_modify|]. intros _.
    apply stop_stable_bind; [apply stop_stable_emit|]. intros _.
    apply stop_stable_bind; [apply advance_keeps_stop|]. intros [|].
    + apply stop_stable_bind; [apply stop_stable_signal_stop|]. intros _.
      apply stop_stable_bind; [apply stop_stable_emit|]. intros _. apply stop_stable_ret.
    + apply stop_stable_bind; [apply stop_stable_emit|]. intros _. apply stop_stable_ret.
  - intros [|]; [apply stop_stable_ret|].
    apply stop_stable_bind; [apply stop_stable_distribute|]. intros n.
    destruct (n >? 0); [apply stop_stable_notify|apply IH].
Qed.

Lemma stop_stable_wait_for_work dfuel afuel wn :
  stop_stable (_lf_sched_wait_for_work _lf_sched_advance_tag_locked lf_semaphore_acquire
                 dfuel afuel wn).
Proof.
  apply stop_stable_bind;
    [unfold lf_atomic_add_fetch32_idle; by intros w a w' Hs [= <- <-]|]. intros idle.
  apply stop_stable_bind; [apply stop_stable_get_sched|]. intros s.
  destruct (_ =? _); [|apply acquire_keeps_stop].
  apply stop_stable_bind; [apply stop_stable_deref|]. intros exq.
  apply stop_stable_bind; [apply stop_stable_assert|]. intros _.
  apply stop_stable_advance_tag_loop.
Qed.

(** X1. [should_stop] is never reset.  Every scheduler operation
    (trigger, completion, distribution, notification, the stop signal, the
    tag-advance loop, waiting for work, and asking for a reaction) that
    starts with [should_stop] set and returns, returns with it set,
    provided the external tag advance and the semaphore acquire do not
    clear it either. *)
Theorem X1_should_stop_is_monotone dfuel afuel fuel wn reaction :
  stop_stable (lf_scheduler_trigger_reaction reaction wn) /\
  (forall r, stop_stable (lf_sched_done_with_reaction wn r)) /\
  stop_stable (_lf_sched_distribute_ready_reactions dfuel) /\
  stop_stable _lf_sched_notify_workers /\
  stop_stable _lf_sched_signal_stop /\
  stop_stable (_lf_scheduler_try_advance_tag_and_distribute
                 _lf_sched_advance_tag_locked dfuel afuel) /\
  stop_stable (_lf_sched_wait_for_work _lf_sched_advance_tag_locked lf_semaphore_acquire
                 dfuel afuel wn) /\
  stop_stable (lf_sched_get_ready_reaction _lf_sched_advance_tag_locked lf_semaphore_acquire
                 dfuel afuel fuel wn).
Proof.
  split; [apply stop_stable_trigger|].
  split; [intros r; apply stop_stable_done|].
  split; [apply stop_stable_distribute|].
  split; [apply stop_stable_notify|].
  split; [apply stop_stable_signal_stop|].
  split.
  { apply stop_stable_bind; [apply stop_stable_deref|]. intros exq.
    apply stop_stable_bind; [apply stop_stable_assert|]. intros _.
    apply stop_stable_advance_tag_loop. }
  split; [apply stop_stable_wait_for_work|].
  intros w a w' Hs Hget. destruct fuel as [|fuel']; [discriminate|].
  rewrite get_ready_unfold, Hs in Hget. simpl in Hget. by injection Hget as <- <-.
Qed.

End StopFlag.

Lemma acquire_now_keeps_stop : stop_stable acquire_now.
Proof. apply stop_stable_ret. Qed.

Lemma advance_to_stop_keeps_stop : stop_stable advance_to_stop.
Proof. apply stop_stable_ret. Qed.

Lemma X1_should_stop_is_monotone_witness :
  stop_stable (_lf_sched_wait_for_work advance_to_stop acquire_now 2 2 0).
Proof.
  apply (X1_should_stop_is_monotone advance_to_stop acquire_now
           advance_to_stop_keeps_stop acquire_now_keeps_stop 2 2 1 0 None).
Defined.

(** ** Stopping *)

(** X2. [_lf_sched_signal_stop] sets [should_stop] and hands out
    [number_of_workers - 1] permits computed in [size_t]: one permit less
    than there are workers when there is at least one worker, and
    [SIZE_MAX] permits when [number_of_workers] is 0.  From then on every
    call of [lf_sched_get_ready_reaction] returns [NULL] at once and leaves
    the state as it is. *)
Theorem X2_signal_stop_ends_workers
    (advance_tag : M bool) (acquire : M unit) (dfuel afuel : nat) (w : world) :
  exists w',
    _lf_sched_signal_stop w = Ok tt w' /\
    should_stop (sched w') = true /\
    semaphore (sched w')
      = semaphore (sched w) + to_size_t (number_of_workers (sched w) - 1) /\
    log w' = log w ++ [EvSemRelease (to_size_t (number_of_workers (sched w) - 1))] /\
    (1 <= number_of_workers (sched w) <= SIZE_MAX ->
       to_size_t (number_of_workers (sched w) - 1) = number_of_workers (sched w) - 1) /\
    (number_of_workers (sched w) = 0 ->
       to_size_t (number_of_workers (sched w) - 1) = SIZE_MAX) /\
    (forall fuel wn,
       lf_sched_get_ready_reaction advance_tag acquire dfuel afuel (S fuel) wn w'
       = Ok None w').
Proof.
  set (k := to_size_t (number_of_workers (sched w) - 1)).
  exists (mk_world (heap w)
            (set_semaphore (semaphore (sched w) + k) (set_should_stop true (sched w)))
            (log w ++ [EvSemRelease k])).
  split; [reflexivity|].
  split; [done|]. split; [done|]. split; [done|].
  split; [|split].
  - intros Hn. apply to_size_t_id. unfold size_t_range. lia.
  - subst k. intros ->. reflexivity.
  - intros fuel wn. by rewrite get_ready_unfold.
Qed.

(** ** Distribution over the single queue *)

Lemma to_int32_id z : - 2 ^ 31 <= z < 2 ^ 31 -> to_int32 z = z.
Proof. intros Hz. unfold to_int32. rewrite Z.mod_small; lia. Qed.

Lemma distribute_past_last_level w fuel :
  max_reaction_level (sched w) < next_reaction_level (sched w) ->
  _lf_sched_distribute_ready_reactions (S fuel) w = Ok 0 w.
Proof.
  intros Hlt. unfold _lf_sched_distribute_ready_reactions; simpl.
  unfold bind, get_sched. by destruct (Z.leb_spec (next_reaction_level (sched w))
                                         (max_reaction_level (sched w))); [lia|].
Qed.

Lemma distribute_single_queue w (q : pqueue_t) fuel :
  triggered_reactions (sched w) = [q] ->
  0 <= next_reaction_level (sched w) <= SIZE_MAX ->
  0 <= max_reaction_level (sched w) <= SIZE_MAX ->
  pqueue_size q < 2 ^ 31 ->
  _lf_sched_distribute_ready_reactions (S (S fuel)) w =
    if max_reaction_level (sched w) <? next_reaction_level (sched w) then Ok 0 w
    else if next_reaction_level (sched w) =? 0 then
      match q with
      | [] =>
          if max_reaction_level (sched w) =? 0
          then Ok 0 (upd_sched (set_next_reaction_level 1) w)
          else OutOfBounds 1
      | _ :: _ =>
          Ok (pqueue_size q)
             (upd_sched (fun s => set_executing_reactions (Some 0%nat)
                                    (set_next_reaction_level 1 s)) w)
      end
    else OutOfBounds (next_reaction_level (sched w)).
Proof.
  intros Hq Hlvl Hmax Hsz.
  destruct (Z.ltb_spec (max_reaction_level (sched w)) (next_reaction_level (sched w)))
    as [Hpast|Hin].
  { by apply distribute_past_last_level. }
  destruct (Z.eqb_spec (next_reaction_level (sched w)) 0) as [Hzero|Hpos].
  2:{ apply (distribute_out_of_bounds w q); [done|lia|lia]. }
  destruct w as [h [tr ex sem nw idle lvl mx stop] l].
  cbn [sched heap log triggered_reactions next_reaction_level max_reaction_level] in *.
  subst tr lvl.
  assert (H1 : to_size_t (0 + 1) = 1) by reflexivity.
  assert (H2 : to_size_t (1 + 1) = 2) by reflexivity.
  assert (H3 : to_size_t (1 - 1) = 0) by reflexivity.
  assert (H4 : to_size_t (2 - 1) = 1) by reflexivity.
  unfold _lf_sched_distribute_ready_reactions, distribute_loop, bind, get_sched,
    try_advance_level, modify_sched, upd_sched, read_triggered_reactions, ret,
    set_next_reaction_level, set_executing_reactions.
  cbn beta iota delta [sched heap log triggered_reactions next_reaction_level
    max_reaction_level executing_reactions semaphore number_of_workers
    number_of_idle_workers should_stop].
  destruct (Z.leb_spec 0 mx); [|lia].
  cbn beta iota delta [sched heap log triggered_reactions next_reaction_level
    max_reaction_level executing_reactions semaphore number_of_workers
    number_of_idle_workers should_stop].
  rewrite ?H1, ?H3.
  change ([q] !! Z.to_nat 0) with (Some q). cbv beta iota.
  destruct q as [|r q'].
  - change (pqueue_size [] =? 0) with true. cbn [negb]. cbv beta iota.
    cbn beta iota delta [sched heap log triggered_reactions next_reaction_level
      max_reaction_level executing_reactions semaphore number_of_workers
      number_of_idle_workers should_stop].
    destruct (Z.eqb_spec mx 0) as [->|Hm]; [reflexivity|].
    destruct (Z.leb_spec 1 mx); [|lia].
    cbn beta iota delta [sched heap log triggered_reactions next_reaction_level
      max_reaction_level executing_reactions semaphore number_of_workers
      number_of_idle_workers should_stop].
    rewrite ?H2, ?H4. reflexivity.
  - assert (Hnz : (pqueue_size (r :: q') =? 0) = false).
    { apply Z.eqb_neq. unfold pqueue_size. simpl. lia. }
    rewrite Hnz. cbn [negb]. cbv beta iota.
    rewrite to_int32_id by (pose proof (pqueue_size_nonneg (r :: q')); lia).
    reflexivity.
Qed.

(** X3. What [_lf_sched_distribute_ready_reactions] does on the array of
    one queue that [lf_sched_init] allocates.  Past the last level it
    returns 0 and changes nothing.  At level 0 (right after a tag advance)
    it moves to level 1 and, if the queue holds reactions, makes it the
    executing queue and returns their number; if the queue is empty it
    returns 0 when there is only level 0, and otherwise goes on to read
    [triggered_reactions[1]], which does not exist.  At any level from 1
    up to the last it reads past the array at once. *)
Theorem X3_distribute_single_queue w (q : pqueue_t) fuel :
  triggered_reactions (sched w) = [q] ->
  0 <= next_reaction_level (sched w) <= SIZE_MAX ->
  0 <= max_reaction_level (sched w) <= SIZE_MAX ->
  pqueue_size q < 2 ^ 31 ->
  _lf_sched_distribute_ready_reactions (S (S fuel)) w =
    if max_reaction_level (sched w) <? next_reaction_level (sched w) then Ok 0 w
    else if next_reaction_level (sched w) =? 0 then
      match q with
      | [] =>
          if max_reaction_level (sched w) =? 0
          then Ok 0 (upd_sched (set_next_reaction_level 1) w)
          else OutOfBounds 1
      | _ :: _ =>
          Ok (pqueue_size q)
             (upd_sched (fun s => set_executing_reactions (Some 0%nat)
                                    (set_next_reaction_level 1 s)) w)
      end
    else OutOfBounds (next_reaction_level (sched w)).
Proof. apply distribute_single_queue. Qed.

Lemma X3_distribute_single_queue_witness :
  _lf_sched_distribute_ready_reactions 2
    (upd_sched (set_next_reaction_level 0) sample_world_idle)
  = Ok 3 (upd_sched (fun s => set_executing_reactions (Some 0%nat)
                                (set_next_reaction_level 1 s))
            (upd_sched (set_next_reaction_level 0) sample_world_idle)).
Proof.
  apply (X3_distribute_single_queue
           (upd_sched (set_next_reaction_level 0) sample_world_idle)
           [1%positive; 2%positive; 3%positive] 0).
  - reflexivity.
  - unfold SIZE_MAX. simpl. lia.
  - unfold SIZE_MAX. simpl. lia.
  - reflexivity.
Defined.

(** ** The last idle worker *)

Lemma atomic_add_fetch_small w :
  0 <= number_of_idle_workers (sched w) < 2 ^ 31 - 1 ->
  lf_atomic_add_fetch32_idle 1 w
  = Ok (number_of_idle_workers (sched w) + 1)
       (upd_sched (set_number_of_idle_workers (number_of_idle_workers (sched w) + 1)) w).
Proof.
  intros Hidle. unfold lf_atomic_add_fetch32_idle.
  rewrite (to_int32_id (number_of_idle_workers (sched w))) by lia.
  rewrite (to_int32_id (number_of_idle_workers (sched w) + 1)) by lia.
  rewrite (Z.div_small (number_of_idle_workers (sched w))) by lia.
  rewrite (Z.mod_small (number_of_idle_workers (sched w) + 1)) by lia.
  reflexivity.
Qed.

Section LastWorker.

Variable _lf_sched_advance_tag_locked : M bool.
Variable lf_semaphore_acquire : M unit.
Variables dfuel afuel : nat.

Local Abbreviation try_advance :=
  (_lf_scheduler_try_advance_tag_and_distribute _lf_sched_advance_tag_locked dfuel).

(** The state in which the tag advance is called: level counter reset to
    0, [env->mutex] taken. *)
Local Abbreviation at_tag_advance w :=
  (mk_world (heap w) (set_next_reaction_level 0 (sched w)) (log w ++ [EvLock env_mutex])).

Lemma try_advance_asserts_empty w i (q : pqueue_t) :
  executing_reactions (sched w) = Some i ->
  triggered_reactions (sched w) !! i = Some q ->
  q <> [] ->
  try_advance afuel w = AssertionFailed.
Proof.
  intros Hex Hq Hne. unfold _lf_scheduler_try_advance_tag_and_distribute, bind,
    deref_executing_reactions. rewrite Hex, Hq. cbn [snd].
  destruct q as [|r q']; [done|]. reflexivity.
Qed.

Lemma try_advance_stop_tag w i w2 :
  executing_reactions (sched w) = Some i ->
  triggered_reactions (sched w) !! i = Some [] ->
  next_reaction_level (sched w) = to_size_t (max_reaction_level (sched w) + 1) ->
  _lf_sched_advance_tag_locked (at_tag_advance w) = Ok true w2 ->
  try_advance (S afuel) w
  = Ok tt (mk_world (heap w2)
             (set_semaphore
                (semaphore (sched w2) + to_size_t (number_of_workers (sched w2) - 1))
                (set_should_stop true (sched w2)))
             (log w2 ++ [EvSemRelease (to_size_t (number_of_workers (sched w2) - 1));
                         EvUnlock env_mutex])).
Proof.
  intros Hex Hq Hlvl Hadv.
  destruct w as [h [tr ex sem nw idle lvl mx stop] l].
  cbn [sched heap log triggered_reactions executing_reactions next_reaction_level
       max_reaction_level] in *.
  subst ex lvl.
  unfold _lf_scheduler_try_advance_tag_and_distribute, advance_tag_loop, bind,
    deref_executing_reactions, c_assert, get_sched, modify_sched, upd_sched,
    LF_MUTEX_LOCK, LF_MUTEX_UNLOCK, emit, ret.
  cbn beta iota delta [sched heap log triggered_reactions next_reaction_level
    max_reaction_level executing_reactions semaphore number_of_workers
    number_of_idle_workers should_stop snd fst].
  rewrite Hq. cbn beta iota delta [snd fst].
  change (pqueue_size [] =? 0) with true. cbv beta iota.
  rewrite Z.eqb_refl. cbv beta iota. unfold set_next_reaction_level.
  cbn beta iota delta [sched heap log triggered_reactions
    next_reaction_level max_reaction_level executing_reactions semaphore
    number_of_workers number_of_idle_workers should_stop].
  unfold set_next_reaction_level in Hadv.
  cbn beta iota delta [sched heap log triggered_reactions next_reaction_level
    max_reaction_level executing_reactions semaphore number_of_workers
    number_of_idle_workers should_stop] in Hadv.
  rewrite Hadv.
  unfold _lf_sched_signal_stop, lf_semaphore_release, bind,
    modify_sched, get_sched, emit, ret, upd_sched.
  cbn [heap sched log number_of_workers semaphore set_should_stop set_semaphore].
  by rewrite <- app_assoc.
Qed.

(** X4. [_lf_scheduler_try_advance_tag_and_distribute] requires an empty
    executing queue: called with reactions still in it, it fails its
    [assert] before doing anything.  With the queue empty and the level
    counter one past the last level, it resets the counter to 0 and calls
    the tag advance under [env->mutex]; when that reports the stop tag, it
    sets [should_stop], hands out [number_of_workers - 1] permits, unlocks
    and returns, without distributing anything. *)
Theorem X4_try_advance_tag_and_distribute w i (q : pqueue_t) :
  executing_reactions (sched w) = Some i ->
  triggered_reactions (sched w) !! i = Some q ->
  (q <> [] -> try_advance afuel w = AssertionFailed) /\
  (forall w2,
     q = [] ->
     next_reaction_level (sched w) = to_size_t (max_reaction_level (sched w) + 1) ->
     _lf_sched_advance_tag_locked (at_tag_advance w) = Ok true w2 ->
     try_advance (S afuel) w
     = Ok tt (mk_world (heap w2)
                (set_semaphore
                   (semaphore (sched w2) + to_size_t (number_of_workers (sched w2) - 1))
                   (set_should_stop true (sched w2)))
                (log w2 ++ [EvSemRelease (to_size_t (number_of_workers (sched w2) - 1));
                            EvUnlock env_mutex]))).
Proof.
  intros Hex Hq. split.
  - by apply (try_advance_asserts_empty w i).
  - intros w2 -> Hlvl Hadv. by apply (try_advance_stop_tag w i).
Qed.

End LastWorker.

(** X5. The end of the program as a worker sees it.  If the executing
    queue is empty, the calling worker is the last one to go idle, the
    level counter is one past the last level, and the tag advance reports
    the stop tag, then [lf_sched_get_ready_reaction] returns [NULL]: it
    pops nothing, counts itself idle, advances the tag, signals the stop
    and finds [should_stop] set when it evaluates its loop condition
    again. *)
Theorem X5_last_worker_sees_stop
    (lf_semaphore_acquire : M unit) (dfuel afuel : nat) w i g fuel wn :
  should_stop (sched w) = false ->
  executing_reactions (sched w) = Some i ->
  triggered_reactions (sched w) !! i = Some [] ->
  0 <= number_of_idle_workers (sched w) < 2 ^ 31 - 1 ->
  number_of_idle_workers (sched w) + 1 = number_of_workers (sched w) ->
  next_reaction_level (sched w) = to_size_t (max_reaction_level (sched w) + 1) ->
  exists w',
    lf_sched_get_ready_reaction (advance_stop_after g) lf_semaphore_acquire
      dfuel (S afuel) (S (S fuel)) wn w = Ok None w' /\
    should_stop (sched w') = true /\
    exists w2 l,
      heap w' = heap w2 /\ log w' = log w2 ++ l /\
      l = [EvSemRelease (to_size_t (number_of_workers (sched w2) - 1));
           EvUnlock env_mutex].
Proof.
  intros Hstop Hex Hq Hidle Hlast Hlvl.
  set (w1 := mk_world (heap w)
               (set_triggered_reactions (<[i := []]> (triggered_reactions (sched w))) (sched w))
               (log w ++ [EvLock queue_mutex; EvUnlock queue_mutex])).
  assert (Hpop : pop_executing_reactions w = Ok None w1)
    by (by rewrite (pop_executing_reactions_spec w i [] Hex Hq)).
  set (w1' := upd_sched (set_number_of_idle_workers (number_of_idle_workers (sched w) + 1)) w1).
  assert (Hex1 : executing_reactions (sched w1') = Some i) by done.
  assert (Hq1 : triggered_reactions (sched w1') !! i = Some []).
  { simpl. apply list_lookup_insert_eq. by eapply lookup_lt_Some. }
  set (w2 := g (mk_world (heap w1') (set_next_reaction_level 0 (sched w1'))
                  (log w1' ++ [EvLock env_mutex]))).
  set (w3 := mk_world (heap w2)
               (set_semaphore
                  (semaphore (sched w2) + to_size_t (number_of_workers (sched w2) - 1))
                  (set_should_stop true (sched w2)))
               (log w2 ++ [EvSemRelease (to_size_t (number_of_workers (sched w2) - 1));
                           EvUnlock env_mutex])).
  assert (Hwait : _lf_sched_wait_for_work (advance_stop_after g) lf_semaphore_acquire
                    dfuel (S afuel) wn w1 = Ok tt w3).
  { unfold _lf_sched_wait_for_work. unfold bind at 1.
    rewrite (atomic_add_fetch_small w1) by done.
    unfold bind at 1. unfold get_sched at 1.
    change (number_of_idle_workers (sched w1)) with (number_of_idle_workers (sched w)).
    rewrite (to_size_t_id (number_of_idle_workers (sched w) + 1))
      by (unfold size_t_range, SIZE_MAX; lia).
    assert (Hnw : number_of_workers (sched w1') = number_of_idle_workers (sched w) + 1)
      by (symmetry; exact Hlast).
    fold w1'. rewrite Hnw, Z.eqb_refl.
    apply (try_advance_stop_tag (advance_stop_after g) dfuel afuel w1' i w2);
      [exact Hex1|exact Hq1|exact Hlvl|reflexivity]. }
  exists w3. split.
  - rewrite get_ready_unfold, Hstop. cbn [negb]. rewrite Hpop, Hwait.
    by rewrite get_ready_unfold.
  - split; [done|]. exists w2. eexists. split; [reflexivity|]. split; reflexivity.
Qed.

Lemma X4_try_advance_tag_and_distribute_witness :
  _lf_scheduler_try_advance_tag_and_distribute advance_to_stop 1 1 sample_world_idle
  = AssertionFailed.
Proof.
  apply (X4_try_advance_tag_and_distribute advance_to_stop 1 1 sample_world_idle 0%nat
           [1%positive; 2%positive; 3%positive]); done.
Defined.

Lemma X5_last_worker_sees_stop_witness :
  exists w',
    lf_sched_get_ready_reaction (advance_stop_after (fun w => w)) acquire_now
      1 1 2 0 sample_world_drained = Ok None w' /\
    should_stop (sched w') = true /\
    exists w2 l,
      heap w' = heap w2 /\ log w' = log w2 ++ l /\
      l = [EvSemRelease (to_size_t (number_of_workers (sched w2) - 1));
           EvUnlock env_mutex].
Proof.
  apply (X5_last_worker_sees_stop acquire_now 1 0 sample_world_drained 0%nat
           (fun w => w) 0 0); try reflexivity.
  simpl. lia.
Defined.

(** ** Triggering, fetching and completing *)

(** X6. The queue that [lf_scheduler_trigger_reaction] fills is the queue
    that [lf_sched_get_ready_reaction] pops.  With [executing_reactions]
    pointing to the (empty) queue of slot 0 and [should_stop] clear, a
    trigger of an inactive reaction followed by
    [lf_sched_get_ready_reaction] hands out that very reaction, leaves the
    queue empty again, and leaves the reaction's status at [queued]. *)
Theorem X6_trigger_then_get_ready
    (advance_tag : M bool) (acquire : M unit) (dfuel afuel fuel : nat)
    w r rec rest wn wn' :
  heap w !! r = Some rec -> status rec = inactive ->
  triggered_reactions (sched w) = [] :: rest ->
  executing_reactions (sched w) = Some 0%nat ->
  should_stop (sched w) = false ->
  exists w1 w2,
    lf_scheduler_trigger_reaction (Some r) wn w = Ok tt w1 /\
    lf_sched_get_ready_reaction advance_tag acquire dfuel afuel (S fuel) wn' w1
      = Ok (Some r) w2 /\
    triggered_reactions (sched w2) = [] :: rest /\
    status_of (heap w2) r = Some queued /\
    log w2 = log w ++ [EvLock queue_mutex; EvUnlock queue_mutex;
                       EvLock queue_mutex; EvUnlock queue_mutex].
Proof.
  intros Hr Hs Hq Hex Hstop.
  set (w1 := triggered r rec [] rest w).
  exists w1. eexists. split; [by apply trigger_inactive|].
  split.
  - rewrite get_ready_unfold.
    replace (should_stop (sched w1)) with false by (symmetry; exact Hstop).
    cbn [negb].
    rewrite (pop_executing_reactions_spec w1 0 [r]); [reflexivity|exact Hex|reflexivity].
  - cbn. split; [done|]. split; [apply status_of_insert_eq|].
    by rewrite <- app_assoc.
Qed.

Lemma X6_trigger_then_get_ready_witness :
  exists w1 w2,
    lf_scheduler_trigger_reaction (Some 1%positive) 0 sample_world = Ok tt w1 /\
    lf_sched_get_ready_reaction advance_to_stop acquire_now 1 1 1 0 w1
      = Ok (Some 1%positive) w2 /\
    triggered_reactions (sched w2) = [] :: [] /\
    status_of (heap w2) 1%positive = Some queued /\
    log w2 = log sample_world ++ [EvLock queue_mutex; EvUnlock queue_mutex;
                                  EvLock queue_mutex; EvUnlock queue_mutex].
Proof.
  apply (X6_trigger_then_get_ready advance_to_stop acquire_now 1 1 0
           sample_world 1%positive (mk_reaction 5 inactive) [] 0 0); reflexivity.
Defined.

(** X7. [lf_sched_done_with_reaction] looks at the status only.  Called
    on a reaction that is still in the queue (status [queued], never handed
    out), it succeeds, sets the status to [inactive] and leaves the
    reaction in the queue; a later trigger then inserts the reaction a
    second time, so that it is in the queue twice. *)
Theorem X7_done_before_pop_duplicates w r rec (q : pqueue_t) rest wn wn' :
  heap w !! r = Some rec -> status rec = queued ->
  triggered_reactions (sched w) = q :: rest ->
  r ∈ q ->
  exists w1 w2 q2,
    lf_sched_done_with_reaction wn r w = Ok tt w1 /\
    status_of (heap w1) r = Some inactive /\
    triggered_reactions (sched w1) = q :: rest /\
    lf_scheduler_trigger_reaction (Some r) wn' w1 = Ok tt w2 /\
    triggered_reactions (sched w2) = q2 :: rest /\
    q2 ≡ₚ r :: q /\
    ~ NoDup q2.
Proof.
  intros Hr Hs Hq Hin.
  set (w1 := set_heap (<[r := set_status rec inactive]> (heap w)) w).
  assert (Hr1 : heap w1 !! r = Some (set_status rec inactive))
    by (simpl; apply lookup_insert_eq).
  exists w1. eexists _, _.
  split; [by apply done_queued|].
  split; [apply status_of_insert_eq|].
  split; [exact Hq|].
  split; [by apply (trigger_inactive w1 r (set_status rec inactive) q rest)|].
  split; [reflexivity|].
  split; [apply pqueue_insert_perm|].
  rewrite pqueue_insert_perm. intros [Hnin _]%NoDup_cons. done.
Qed.

Lemma X7_done_before_pop_duplicates_witness :
  exists w1 w2 q2,
    lf_sched_done_with_reaction 0 2%positive sample_world_idle = Ok tt w1 /\
    status_of (heap w1) 2%positive = Some inactive /\
    triggered_reactions (sched w1) = [1%positive; 2%positive; 3%positive] :: [] /\
    lf_scheduler_trigger_reaction (Some 2%positive) 0 w1 = Ok tt w2 /\
    triggered_reactions (sched w2) = q2 :: [] /\
    q2 ≡ₚ 2%positive :: [1%positive; 2%positive; 3%positive] /\
    ~ NoDup q2.
Proof.
  apply (X7_done_before_pop_duplicates sample_world_idle 2%positive
           (mk_reaction 6 queued) [1%positive; 2%positive; 3%positive] [] 0 0);
    try reflexivity.
  apply elem_of_cons. right. apply elem_of_cons. by left.
Defined.

Lemma demo_stopped_reachable : reachable 100 demo_stopped.
Proof.
  apply (reach_step 100 ABookkeeping
           (mk_proto demo_world_idle (in_flight demo_fetched) (inserting demo_fetched))).
  - apply (reach_step 100 ABookkeeping demo_fetched); [exact demo_fetched_reachable|].
    apply step_bookkeeping. by apply (frames_idle 1 demo_world2 1).
  - apply step_bookkeeping. by apply (frames_signal_stop demo_world_idle tt).
Qed.

(** X8. When the workers follow the protocol, no reaction is in the
    reaction queue twice: in every state that the threads reach from
    [lf_sched_init] by interleaving the steps of the worker API (the swap
    and the insertion of a trigger, a pop, the completion of a fetched
    reaction, and the writes of the idle count, the level, the stop flag,
    the semaphore and [executing_reactions]), the queue has no
    duplicates, it is the only queue, [executing_reactions] points to it,
    and no reaction in it is at the same time handed out to a worker or
    about to be inserted.  So it is in the state in which
    [lf_sched_get_ready_reaction] returns, after any number of iterations
    of its loop, where moreover the reaction it returns is not in the
    queue. *)
Theorem X8_reachable_queue_no_duplicates D st :
  reachable D st ->
  NoDup (reaction_queue (pworld st)) /\
  triggered_reactions (sched (pworld st)) = [reaction_queue (pworld st)] /\
  executing_reactions (sched (pworld st)) = Some 0%nat /\
  (forall r, r ∈ reaction_queue (pworld st) -> r ∉ in_flight st) /\
  (forall r, r ∈ reaction_queue (pworld st) -> r ∉ inserting st) /\
  (forall advance_tag acquire dfuel afuel fuel wn res w',
     keeps_reachable D advance_tag -> keeps_reachable D acquire ->
     lf_sched_get_ready_reaction advance_tag acquire dfuel afuel fuel wn (pworld st)
       = Ok res w' ->
     NoDup (reaction_queue w') /\
     triggered_reactions (sched w') = [reaction_queue w'] /\
     executing_reactions (sched w') = Some 0%nat /\
     (forall r, res = Some r -> r ∉ reaction_queue w')).
Proof.
  intros Hreach.
  destruct (reachable_queue_inv D st Hreach)
    as (q & Htr & Hex & Hnd & Hq & Hfl & Hins & Hst).
  unfold reaction_queue at 1 2 3 4. rewrite Htr. simpl.
  split; [done|]. split; [done|]. split; [done|].
  split; [intros r Hr; by destruct (Hq r Hr) as (_ & ? & _)|].
  split; [intros r Hr; by destruct (Hq r Hr) as (_ & _ & ?)|].
  intros adv acq dfuel afuel fuel wn res w' Hadv Hacq Hget.
  destruct (get_ready_reachable D adv acq Hadv Hacq dfuel afuel fuel wn st res w'
              Hreach Hget) as (st' & Hreach' & Hw' & Hres).
  destruct (reachable_queue_inv D st' Hreach')
    as (q' & Htr' & Hex' & Hnd' & Hq' & _).
  subst w'. unfold reaction_queue. rewrite Htr'. simpl.
  split; [done|]. split; [done|]. split; [done|].
  intros r Hr Hin. destruct (Hq' r Hin) as (_ & Hn & _). by apply Hn, Hres.
Qed.

Lemma X8_reachable_queue_no_duplicates_witness :
  NoDup (reaction_queue (pworld demo_stopped)) /\
  should_stop (sched (pworld demo_stopped)) = true /\
  semaphore (sched (pworld demo_stopped)) = 1 /\
  (forall res w',
     lf_sched_get_ready_reaction advance_to_stop acquire_now 1 1 2 0 (pworld demo_triggered)
       = Ok res w' ->
     NoDup (reaction_queue w')).
Proof.
  split; [apply (X8_reachable_queue_no_duplicates 100 demo_stopped demo_stopped_reachable)|].
  split; [reflexivity|]. split; [reflexivity|].
  intros res w' Hget.
  eapply (X8_reachable_queue_no_duplicates 100 demo_triggered demo_triggered_reachable);
    [apply keeps_reachable_ret|apply keeps_reachable_ret|exact Hget].
Defined.

(** * Further properties of the watchdogs *)

Module WatchdogRunFacts.
Import Watchdog WatchdogRuns.

Section Runs.

Variable NEVER : Z.
Variable watchdog_function : watchdog_t -> watchdog_t.

Local Abbreviation step := (Watchdog.step NEVER watchdog_function).
Local Abbreviation run := (Watchdog.run NEVER watchdog_function).

(** Within the range of [int64_t] the conversions of line 150 do nothing. *)
Lemma to_int64_id z : int64_range z -> to_int64 z = z.
Proof.
  unfold int64_range, to_int64. intros H.
  rewrite Z.mod_small by lia. lia.
Qed.

Lemma start_sum_in_range a b c :
  int64_range (a + b) -> int64_range (a + b + c) ->
  to_int64 (to_int64 (a + b) + c) = a + b + c.
Proof. intros H1 H2. rewrite (to_int64_id (a + b)) by done. by apply to_int64_id. Qed.

(** Outside it the stored expiration wraps around. *)
Lemma start_sum_wraps :
  expiration (start_by_other (2 ^ 63 - 1) 0 (mk_watchdog 0 10 true false))
  = - 9223372036854775799.
Proof. reflexivity. Qed.

Ltac wd_unfold :=
  cbn; unfold keep_waiting, set_expiration, set_active, set_terminate; cbn.

(** Once [terminate] is set and stays set, every step brings the thread
    closer to its exit and invokes no handler. *)
Lemma step_towards_exit i st :
  terminate (wd st) = true ->
  (forall w, terminate w = true -> terminate (interference i w) = true) ->
  terminate (wd (fst (step i st))) = true /\
  (steps_to_exit (pc (fst (step i st))) <= pred (steps_to_exit (pc st)))%nat /\
  (WHandler ∉ snd (step i st)) /\
  ((pc st = Exited -> active (wd st) = false) ->
   pc (fst (step i st)) = Exited -> active (wd (fst (step i st))) = false).
Proof.
  intros Ht Hi. destruct st as [p w]. cbn [pc wd] in *.
  pose proof (Hi w Ht) as Hiw.
  unfold Watchdog.step, keep_waiting; cbn [pc wd].
  destruct p; cbn [steps_to_exit pred]; rewrite ?Ht, ?Hiw, ?andb_false_r;
    cbn [fst snd pc wd steps_to_exit negb andb terminate set_active];
    (split; [done|]); (split; [lia|]);
    (split; [first [apply not_elem_of_nil | by intros [=]%list_elem_of_singleton]|]);
    intros Hex Heq; first [discriminate | done | by apply Hex].
Qed.

Lemma run_towards_exit ins st :
  terminate (wd st) = true ->
  Forall (fun i => forall w, terminate w = true -> terminate (interference i w) = true) ins ->
  (pc st = Exited -> active (wd st) = false) ->
  terminate (wd (fst (run ins st))) = true /\
  (steps_to_exit (pc (fst (run ins st))) <= steps_to_exit (pc st) - length ins)%nat /\
  (WHandler ∉ snd (run ins st)) /\
  (pc (fst (run ins st)) = Exited -> active (wd (fst (run ins st))) = false).
Proof.
  intros Ht Hins. revert st Ht.
  induction Hins as [|i ins Hi _ IH]; intros st Ht Hact.
  - cbn. repeat split; [done|lia|apply not_elem_of_nil|done].
  - destruct (step_towards_exit i st Ht Hi) as (Ht1 & Hd1 & Hn1 & Ha1).
    cbn [Watchdog.run]. destruct (step i st) as [st1 e1]. cbn [fst snd] in *.
    destruct (IH st1 Ht1 (Ha1 Hact)) as (Ht2 & Hd2 & Hn2 & Ha2).
    destruct (run ins st1) as [st2 e2]. cbn [fst snd length] in *.
    repeat split; [done|lia| |done].
    intros [?|?]%elem_of_app; done.
Qed.

(** X9. Once [terminate] is set and no one clears it, the watchdog thread
    exits within four steps from wherever it is, without invoking the
    handler, and with [active] cleared. *)
Theorem X9_terminate_leads_to_exit ins st :
  terminate (wd st) = true ->
  Forall (fun i => forall w, terminate w = true -> terminate (interference i w) = true) ins ->
  pc st <> Exited ->
  (4 <= length ins)%nat ->
  pc (fst (run ins st)) = Exited /\
  (WHandler ∉ snd (run ins st)) /\
  active (wd (fst (run ins st))) = false.
Proof.
  intros Ht Hins Hpc Hlen.
  destruct (run_towards_exit ins st Ht Hins) as (_ & Hd & Hn & Ha); [done|].
  assert (Hex : pc (fst (run ins st)) = Exited).
  { assert (steps_to_exit (pc st) <= 4)%nat by (destruct (pc st); simpl; lia).
    destruct (pc (fst (run ins st))); simpl in Hd; try lia. done. }
  split; [done|]. split; [done|]. by apply Ha.
Qed.

(** X10. Stopping cancels a running wait.  If [lf_watchdog_stop] is called
    on an active watchdog while its thread is blocked in
    [lf_cond_timedwait], the thread wakes, leaves [watchdog_wait], skips the
    handler and goes back to waiting for the next start, with the
    expiration at [NEVER]. *)
Theorem X10_stop_cancels_timed_wait w t i2 i3 i4 :
  active w = true -> terminate w = false ->
  run [mk_input (stop_by_other NEVER) t; i2; i3; i4] (mk_thread TimedWait w)
  = (mk_thread CondWait (set_expiration NEVER w), []).
Proof.
  intros Hact Hterm. destruct w as [e m a tm]. cbn in Hact, Hterm. subst a tm.
  unfold stop_by_other.
  repeat (progress (wd_unfold; rewrite ?Z.eqb_refl)). reflexivity.
Qed.

(** X11. A stop that comes right after a start is lost.  [lf_watchdog_start]
    on an inactive watchdog arms it but [active] only becomes true once the
    thread has woken up; a [lf_watchdog_stop] called before that finds the
    watchdog inactive and returns without clearing the expiration.  The
    thread then waits for the armed expiration and, that time having
    passed, invokes the handler.  The sums of line 150 are assumed to fit
    [int64_t]. *)
Theorem X11_stop_right_after_start_is_lost w tag add t0 t i3 i4 :
  active w = false ->
  int64_range (tag + min_expiration w) ->
  int64_range (tag + min_expiration w + add) ->
  tag + min_expiration w + add <> NEVER ->
  tag + min_expiration w + add <= t ->
  stop_by_other NEVER (start_by_other tag add w) = start_by_other tag add w /\
  run [mk_input (fun w => stop_by_other NEVER (start_by_other tag add w)) t0;
       mk_input (fun w => w) t; i3; i4] (mk_thread CondWait w)
  = (mk_thread LoopTop
       (set_active false (watchdog_function (set_active true (start_by_other tag add w)))),
     [WHandler]).
Proof.
  intros Hact Hr1 Hr2 Hne Hle. destruct w as [e m a tm].
  cbn in Hact, Hr1, Hr2, Hne, Hle. subst a.
  assert (Hneb : (tag + m + add =? NEVER) = false) by by apply Z.eqb_neq.
  assert (Hltb : (t <? tag + m + add) = false) by by apply Z.ltb_ge.
  unfold stop_by_other, start_by_other, lf_watchdog_start.
  cbn [set_terminate set_expiration min_expiration expiration active terminate].
  pose proof (start_sum_in_range tag m add Hr1 Hr2) as Hsum.
  rewrite ?Hsum.
  split; [reflexivity|].
  repeat (progress (wd_unfold; rewrite ?Hsum, ?Hneb, ?Hltb)). reflexivity.
Qed.

(** X12. Renewal works.  If [lf_watchdog_start] is called on an active
    watchdog while its thread is blocked in [lf_cond_timedwait], no signal
    is sent, and when the thread wakes before the new expiration it goes
    back to waiting without invoking the handler, even if the old
    expiration has passed.  The sums of line 150 are assumed to fit
    [int64_t]. *)
Theorem X12_start_renews_timed_wait w tag add t i2 :
  active w = true ->
  int64_range (tag + min_expiration w) ->
  int64_range (tag + min_expiration w + add) ->
  tag + min_expiration w + add <> NEVER ->
  t < tag + min_expiration w + add ->
  snd (lf_watchdog_start 0 tag add w) = [] /\
  run [mk_input (start_by_other tag add) t; i2] (mk_thread TimedWait w)
  = (mk_thread TimedWait (start_by_other tag add w), []).
Proof.
  intros Hact Hr1 Hr2 Hne Hlt. destruct w as [e m a tm].
  cbn in Hact, Hr1, Hr2, Hne, Hlt. subst a.
  assert (Hneb : (tag + m + add =? NEVER) = false) by by apply Z.eqb_neq.
  assert (Hltb : (t <? tag + m + add) = true) by by apply Z.ltb_lt.
  unfold start_by_other, lf_watchdog_start.
  cbn [set_terminate set_expiration min_expiration expiration active terminate].
  pose proof (start_sum_in_range tag m add Hr1 Hr2) as Hsum.
  rewrite ?Hsum.
  split; [reflexivity|].
  repeat (progress (wd_unfold; rewrite ?Hsum, ?Hneb, ?Hltb)). reflexivity.
Qed.

(** X13. A start undoes a terminate.  [lf_watchdog_start] clears
    [terminate] unconditionally; if it is called after
    [_lf_watchdog_terminate(watchdog_t* )] and before the thread has woken
    from [lf_cond_wait], the thread does not exit but goes on to wait for
    the new expiration.  The sums of line 150 are assumed to fit
    [int64_t]. *)
Theorem X13_start_undoes_terminate w tag add t :
  int64_range (tag + min_expiration w) ->
  int64_range (tag + min_expiration w + add) ->
  tag + min_expiration w + add <> NEVER ->
  terminate (start_by_other tag add (terminate_by_other NEVER w)) = false /\
  step (mk_input (fun w => start_by_other tag add (terminate_by_other NEVER w)) t)
       (mk_thread CondWait w)
  = (mk_thread WaitEntry (start_by_other tag add (terminate_by_other NEVER w)), []).
Proof.
  intros Hr1 Hr2 Hne. destruct w as [e m a tm]. cbn in Hr1, Hr2, Hne.
  assert (Hneb : (tag + m + add =? NEVER) = false) by by apply Z.eqb_neq.
  unfold start_by_other, terminate_by_other, lf_watchdog_start, _lf_watchdog_terminate.
  cbn [set_terminate set_expiration min_expiration expiration active terminate fst].
  pose proof (start_sum_in_range tag m add Hr1 Hr2) as Hsum.
  rewrite ?Hsum.
  destruct a; (split; [reflexivity|]);
    repeat (progress (wd_unfold; rewrite ?Hsum, ?Hneb)); reflexivity.
Qed.

(** X14. The handler fires again and again.  After the handler has run,
    the expiration is still in the past; if the handler changes neither
    [expiration] nor [terminate] and the clock does not go back, the thread
    goes from the top of its loop through [watchdog_wait] without blocking
    and invokes the handler a second time. *)
Theorem X14_handler_fires_again w t i1 i2 i3 i4 i5 :
  handler_due NEVER t w = true ->
  (forall x, expiration (watchdog_function x) = expiration x) ->
  (forall x, terminate (watchdog_function x) = terminate x) ->
  t <= time i3 ->
  snd (run [i1; i2; i3; i4; i5] (mk_thread (AfterWait t) w)) = [WHandler; WHandler] /\
  pc (fst (run [i1; i2; i3; i4; i5] (mk_thread (AfterWait t) w))) = LoopTop.
Proof.
  intros Hdue Hexp Hterm Htime.
  apply WatchdogFacts.handler_due_iff in Hdue as (Ht & Hne & Hle).
  destruct w as [e m a tm]. cbn in Ht, Hne, Hle. subst tm.
  assert (Hneb : (e =? NEVER) = false) by by apply Z.eqb_neq.
  assert (Hltb : (time i3 <? e) = false) by (apply Z.ltb_ge; lia).
  repeat (progress (wd_unfold; rewrite ?Hexp, ?Hterm; wd_unfold; rewrite ?Hneb, ?Hltb)).
  done.
Qed.

End Runs.

Lemma X9_terminate_leads_to_exit_witness :
  let ins := [mk_input (fun w => w) 1; mk_input (fun w => w) 2;
              mk_input (fun w => w) 3; mk_input (fun w => w) 4] in
  let st := mk_thread TimedWait (mk_watchdog 100 10 true true) in
  pc (fst (Watchdog.run (- 2 ^ 63) (fun w => w) ins st)) = Exited /\
  (WHandler ∉ snd (Watchdog.run (- 2 ^ 63) (fun w => w) ins st)) /\
  active (wd (fst (Watchdog.run (- 2 ^ 63) (fun w => w) ins st))) = false.
Proof.
  apply (X9_terminate_leads_to_exit (- 2 ^ 63) (fun w => w)).
  - reflexivity.
  - repeat constructor; done.
  - discriminate.
  - simpl. lia.
Defined.

Lemma X10_stop_cancels_timed_wait_witness :
  Watchdog.run (- 2 ^ 63) (fun w => w)
    [mk_input (stop_by_other (- 2 ^ 63)) 50; mk_input (fun w => w) 51;
     mk_input (fun w => w) 52; mk_input (fun w => w) 53]
    (mk_thread TimedWait (mk_watchdog 100 10 true false))
  = (mk_thread CondWait (set_expiration (- 2 ^ 63) (mk_watchdog 100 10 true false)), []).
Proof.
  apply (X10_stop_cancels_timed_wait (- 2 ^ 63) (fun w => w)); reflexivity.
Defined.

Lemma X11_stop_right_after_start_is_lost_witness :
  let w := mk_watchdog (- 2 ^ 63) 10 false false in
  stop_by_other (- 2 ^ 63) (start_by_other 0 90 w) = start_by_other 0 90 w /\
  Watchdog.run (- 2 ^ 63) (fun w => w)
    [mk_input (fun w => stop_by_other (- 2 ^ 63) (start_by_other 0 90 w)) 5;
     mk_input (fun w => w) 150; mk_input (fun w => w) 151; mk_input (fun w => w) 152]
    (mk_thread CondWait w)
  = (mk_thread LoopTop (set_active false (set_active true (start_by_other 0 90 w))),
     [WHandler]).
Proof.
  apply (X11_stop_right_after_start_is_lost (- 2 ^ 63) (fun w => w)
           (mk_watchdog (- 2 ^ 63) 10 false false) 0 90 5 150).
  - reflexivity.
  - unfold int64_range. simpl. lia.
  - unfold int64_range. simpl. lia.
  - simpl. lia.
  - simpl. lia.
Defined.

Lemma X12_start_renews_timed_wait_witness :
  let w := mk_watchdog 100 10 true false in
  snd (lf_watchdog_start 0 50 90 w) = [] /\
  Watchdog.run (- 2 ^ 63) (fun w => w)
    [mk_input (start_by_other 50 90) 120; mk_input (fun w => w) 121]
    (mk_thread TimedWait w)
  = (mk_thread TimedWait (start_by_other 50 90 w), []).
Proof.
  apply (X12_start_renews_timed_wait (- 2 ^ 63) (fun w => w)
           (mk_watchdog 100 10 true false) 50 90 120).
  - reflexivity.
  - unfold int64_range. simpl. lia.
  - unfold int64_range. simpl. lia.
  - simpl. lia.
  - simpl. lia.
Defined.

Lemma X13_start_undoes_terminate_witness :
  let w := mk_watchdog 100 10 true false in
  terminate (start_by_other 50 90 (terminate_by_other (- 2 ^ 63) w)) = false /\
  Watchdog.step (- 2 ^ 63) (fun w => w)
    (mk_input (fun w => start_by_other 50 90 (terminate_by_other (- 2 ^ 63) w)) 120)
    (mk_thread CondWait w)
  = (mk_thread WaitEntry (start_by_other 50 90 (terminate_by_other (- 2 ^ 63) w)), []).
Proof.
  apply (X13_start_undoes_terminate (- 2 ^ 63) (fun w => w)
           (mk_watchdog 100 10 true false) 50 90 120).
  - unfold int64_range. simpl. lia.
  - unfold int64_range. simpl. lia.
  - simpl. lia.
Defined.

Lemma X14_handler_fires_again_witness :
  let i := mk_input (fun w => w) 160 in
  let st := mk_thread (AfterWait 150) (mk_watchdog 100 10 true false) in
  snd (Watchdog.run (- 2 ^ 63) (fun w => w) [i; i; i; i; i] st) = [WHandler; WHandler] /\
  pc (fst (Watchdog.run (- 2 ^ 63) (fun w => w) [i; i; i; i; i] st)) = LoopTop.
Proof.
  apply (X14_handler_fires_again (- 2 ^ 63) (fun w => w)
           (mk_watchdog 100 10 true false) 150).
  - reflexivity.
  - reflexivity.
  - reflexivity.
  - simpl. lia.
Defined.

End WatchdogRunFacts.

(** * Nested critical sections on RIOT *)

Module RiotFacts.
Import Riot.

Lemma to_uint32_id z : 0 <= z < 2 ^ 32 -> to_uint32 z = z.
Proof. intros. unfold to_uint32. by apply Z.mod_small. Qed.

(** Inside a critical section further disables only count. *)
Lemma disable_times_inner n s :
  1 <= num_nested_critical_sections s ->
  num_nested_critical_sections s + Z.of_nat n < 2 ^ 32 ->
  disable_times n s
  = (replicate n 0,
     set_num_nested (num_nested_critical_sections s + Z.of_nat n) s).
Proof.
  revert s. induction n as [|n IH]; intros s Hc Hn.
  - cbn. destruct s as [c e l]. cbn. by rewrite Z.add_0_r.
  - cbn [disable_times]. unfold lf_disable_interrupts_nested.
    destruct (Z.eqb_spec (num_nested_critical_sections s) 0); [lia|].
    rewrite to_uint32_id by lia.
    rewrite IH by (cbn; lia). cbn. unfold set_num_nested. cbn. do 2 f_equal. lia.
Qed.

(** Enables that do not reach the outermost level only count. *)
Lemma enable_times_inner n s :
  Z.of_nat n < num_nested_critical_sections s < 2 ^ 32 ->
  enable_times n s
  = (replicate n 0,
     set_num_nested (num_nested_critical_sections s - Z.of_nat n) s).
Proof.
  revert s. induction n as [|n IH]; intros s Hn.
  - cbn. destruct s as [c e l]. cbn. by rewrite Z.sub_0_r.
  - cbn [enable_times]. unfold lf_enable_interrupts_nested.
    destruct (Z.leb_spec (num_nested_critical_sections s) 0); [lia|].
    cbn [num_nested_critical_sections set_num_nested].
    rewrite to_uint32_id by lia.
    destruct (Z.eqb_spec (num_nested_critical_sections s - 1) 0); [lia|].
    rewrite IH by (cbn; lia). cbn. unfold set_num_nested. cbn. do 2 f_equal. lia.
Qed.

Lemma enable_times_app n m s :
  enable_times (n + m) s
  = (fst (enable_times n s) ++ fst (enable_times m (snd (enable_times n s))),
     snd (enable_times m (snd (enable_times n s)))).
Proof.
  revert s. induction n as [|n IH]; intros s.
  - cbn. by destruct (enable_times m s).
  - cbn [Nat.add enable_times].
    destruct (lf_enable_interrupts_nested s) as [r s1]. rewrite IH.
    destruct (enable_times n s1) as [rs s2]. cbn.
    by destruct (enable_times m s2).
Qed.

(** X15. Critical sections nest.  Starting outside any critical section,
    [n >= 1] calls of [lf_disable_interrupts_nested] followed by [n] calls
    of [lf_enable_interrupts_nested] all return 0; only the first disable
    calls [irq_disable] and only the last enable calls [irq_enable], so
    interrupts stay off in between; and the counter is back at 0.  One
    more enable is refused: it returns 1 and changes nothing. *)
Theorem X15_critical_sections_nest (n : nat) (s : irq_state) :
  num_nested_critical_sections s = 0 ->
  (1 <= n)%nat -> Z.of_nat n < 2 ^ 32 ->
  exists s1 s2,
    disable_times n s = (replicate n 0, s1) /\
    num_nested_critical_sections s1 = Z.of_nat n /\
    irq_enabled s1 = false /\
    irq_calls s1 = irq_calls s ++ [IrqDisable] /\
    enable_times n s1 = (replicate n 0, s2) /\
    num_nested_critical_sections s2 = 0 /\
    irq_enabled s2 = true /\
    irq_calls s2 = irq_calls s ++ [IrqDisable; IrqEnable] /\
    lf_enable_interrupts_nested s2 = (1, s2).
Proof.
  intros Hzero Hn Hlt. destruct n as [|n]; [lia|].
  destruct s as [c e l]. cbn in Hzero. subst c.
  set (s1 := mk_irq (Z.of_nat (S n)) false (l ++ [IrqDisable])).
  set (s2 := mk_irq 0 true (l ++ [IrqDisable; IrqEnable])).
  exists s1, s2.
  assert (Hdis : disable_times (S n) (mk_irq 0 e l) = (replicate (S n) 0, s1)).
  { cbn [disable_times]. unfold lf_disable_interrupts_nested. cbn.
    change (to_uint32 (0 + 1)) with 1.
    rewrite disable_times_inner by (cbn; lia). cbn. unfold s1, set_num_nested. cbn.
    do 2 f_equal. lia. }
  assert (Hen : enable_times (S n) s1 = (replicate (S n) 0, s2)).
  { unfold s1, s2.
    replace (S n) with (n + 1)%nat at 1 by lia.
    rewrite enable_times_app.
    rewrite enable_times_inner by (cbn; lia). cbn [fst snd].
    cbn [enable_times]. unfold lf_enable_interrupts_nested, set_num_nested.
    cbn [num_nested_critical_sections irq_calls irq_enabled].
    replace (Z.of_nat (S n) - Z.of_nat n) with 1 by lia.
    change (1 <=? 0) with false. change (to_uint32 (1 - 1) =? 0) with true.
    change (to_uint32 (1 - 1)) with 0. cbv iota. cbn [fst snd].
    unfold irq_enable.
    cbn [num_nested_critical_sections irq_calls irq_enabled].
    rewrite <- app_assoc. f_equal.
    change (0 :: replicate n 0) with (replicate (S n) 0).
    replace (S n) with (n + 1)%nat by lia. by rewrite replicate_add. }
  repeat split; done.
Qed.

Lemma X15_critical_sections_nest_witness :
  exists s1 s2,
    disable_times 3 (mk_irq 0 true []) = (replicate 3 0, s1) /\
    num_nested_critical_sections s1 = 3 /\
    irq_enabled s1 = false /\
    irq_calls s1 = [] ++ [IrqDisable] /\
    enable_times 3 s1 = (replicate 3 0, s2) /\
    num_nested_critical_sections s2 = 0 /\
    irq_enabled s2 = true /\
    irq_calls s2 = [] ++ [IrqDisable; IrqEnable] /\
    lf_enable_interrupts_nested s2 = (1, s2).
Proof.
  apply (X15_critical_sections_nest 3 (mk_irq 0 true [])).
  - reflexivity.
  - lia.
  - reflexivity.
Defined.

End RiotFacts.

(** * Worker assignments *)

Module WorkerAssignmentsFacts.
Import WorkerAssignments.

Lemma read_count_write_eq (t : list (list Z)) row col r v :
  t !! row = Some r -> (col < length r)%nat ->
  read_count (write_count t row col v) row col = Some v.
Proof.
  intros Hrow Hcol. unfold read_count, write_count. rewrite Hrow.
  rewrite list_lookup_insert_eq by (by eapply lookup_lt_Some).
  by apply list_lookup_insert_eq.
Qed.

Lemma write_count_write (t : list (list Z)) row col r v v' :
  t !! row = Some r ->
  write_count (write_count t row col v) row col v' = write_count t row col v'.
Proof.
  intros Hrow. unfold write_count. rewrite Hrow.
  rewrite list_lookup_insert_eq by (by eapply lookup_lt_Some).
  by rewrite list_insert_insert_eq, list_insert_insert_eq.
Qed.

Lemma write_count_same (t : list (list Z)) row col r v :
  t !! row = Some r -> r !! col = Some v -> write_count t row col v = t.
Proof.
  intros Hrow Hcol. unfold write_count. rewrite Hrow.
  by rewrite (list_insert_id r col v), list_insert_id.
Qed.

Section Facts.

Variable LEVEL : Z -> Z.
Variable while_locking : Z -> wa_state -> wa_state.

Local Abbreviation put := (worker_assignments_put LEVEL).
Local Abbreviation get_or_lock := (worker_assignments_get_or_lock while_locking).

(** X16. A reaction put at the current level 0 is the next one its worker
    gets.  [worker_assignments_put] assigns the reaction to the worker
    [reactions_triggered_counter % num_workers_by_level[0]] and advances
    the counter; [worker_assignments_get_or_lock] for that worker then
    returns this reaction without taking the lock and brings the worker's
    number of reactions back to what it was. *)
Theorem X16_put_then_get h r rec s n counts k row arr :
  h !! r = Some rec ->
  to_size_t (LEVEL (index rec)) = 0 ->
  current_level s = 0 ->
  num_reactions_by_worker s = Some 0%nat ->
  reactions_by_worker s = Some 0%nat ->
  0 < num_levels s ->
  num_workers_by_level s !! 0%nat = Some n -> 1 <= n ->
  0 <= reactions_triggered_counter s ->
  reactions_triggered_counter s mod n <= num_workers s ->
  num_reactions_by_worker_by_level s !! 0%nat = Some counts ->
  counts !! Z.to_nat (reactions_triggered_counter s mod n) = Some k ->
  0 <= k < SIZE_MAX ->
  reactions_by_worker_by_level s !! 0%nat = Some row ->
  row !! Z.to_nat (reactions_triggered_counter s mod n) = Some arr ->
  k < Z.of_nat (length arr) ->
  exists s1 s2,
    put h (Some r) s = WaOk tt s1 /\
    get_or_lock (reactions_triggered_counter s mod n) s1 = WaOk (Some r) s2 /\
    num_reactions_by_worker_by_level s2 = num_reactions_by_worker_by_level s /\
    reactions_triggered_counter s2 = to_size_t (reactions_triggered_counter s + 1) /\
    worker_states_calls s2 = worker_states_calls s.
Proof.
  intros Hr Hlvl Hcur Hnp Hrp Hnl Hn Hn1 Hc Hw Hcounts Hk Hkr Hrow Harr Hcap.
  set (worker := reactions_triggered_counter s mod n) in *.
  assert (Hw0 : 0 <= worker) by (apply Z.mod_pos_bound; lia).
  assert (Hk1 : to_size_t (k + 1) = k + 1)
    by (apply to_size_t_id; unfold size_t_range; lia).
  assert (Hk0 : to_size_t (k + 1 - 1) = k).
  { replace (k + 1 - 1) with k by lia. apply to_size_t_id. unfold size_t_range. lia. }
  assert (Hlen : (Z.to_nat worker < length counts)%nat) by (by eapply lookup_lt_Some).
  eexists _, _. split; [|split].
  - unfold worker_assignments_put. rewrite Hr, Hlvl, Hcur. cbn [negb orb Z.eqb Z.gtb].
    change (0 >? 0) with false. cbn [orb negb].
    destruct (Z.ltb_spec 0 (num_levels s)); [|lia]. cbn [negb].
    change (Z.to_nat 0) with 0%nat. rewrite Hn.
    destruct (Z.eqb_spec n 0); [lia|]. fold worker.
    destruct (Z.leb_spec 0 worker); [|lia].
    cbn [num_workers set_counter].
    destruct (Z.leb_spec worker (num_workers s)); [|lia]. cbn [andb negb].
    cbn [num_reactions_by_worker_by_level set_counter].
    unfold read_count at 1. rewrite Hcounts, Hk.
    cbn [reactions_by_worker_by_level set_counts set_counter]. rewrite Hrow, Harr.
    destruct (Z.ltb_spec k (Z.of_nat (length arr))); [|lia].
    reflexivity.
  - unfold worker_assignments_get_or_lock.
    cbn [num_reactions_by_worker set_reactions set_counts set_counter
         num_reactions_by_worker_by_level].
    rewrite Hnp. change (Z.to_nat 0) with 0%nat.
    rewrite (read_count_write_eq _ _ _ counts) by done.
    rewrite Hk1. destruct (Z.eqb_spec (k + 1) 0); [lia|]. cbn [negb].
    unfold take_last.
    cbn [num_reactions_by_worker reactions_by_worker set_reactions set_counts set_counter
         num_reactions_by_worker_by_level reactions_by_worker_by_level].
    rewrite Hnp, Hrp.
    rewrite (read_count_write_eq _ _ _ counts) by done.
    rewrite Hk0. unfold read_cell.
    rewrite list_lookup_insert_eq by (by eapply lookup_lt_Some).
    rewrite list_lookup_insert_eq by (by eapply lookup_lt_Some).
    rewrite list_lookup_insert_eq by lia.
    reflexivity.
  - cbn. split; [|done].
    rewrite (write_count_write _ _ _ counts) by done.
    by apply (write_count_same _ _ _ counts).
Qed.

(** X17. How [worker_assignments_put] fails.  A [NULL] reaction is
    dereferenced before the [assert] that checks it.  A reaction whose
    level is not above the current level fails an [assert] unless the
    current level is 0, and so does a level that is not below
    [num_levels].  A level that has no workers assigned makes the worker
    computation divide by zero.  And the array of the chosen worker is
    written without a bounds check: when it already holds as many
    reactions as it has cells, the write goes past its end. *)
Theorem X17_put_failures h s :
  put h None s = WaBadPointer /\
  (forall r rec,
     h !! r = Some rec ->
     (to_size_t (LEVEL (index rec)) <= current_level s -> current_level s <> 0 ->
      put h (Some r) s = WaAssertFailed) /\
     (num_levels s <= to_size_t (LEVEL (index rec)) ->
      put h (Some r) s = WaAssertFailed) /\
     (current_level s < to_size_t (LEVEL (index rec)) \/ current_level s = 0 ->
      to_size_t (LEVEL (index rec)) < num_levels s ->
      num_workers_by_level s !! Z.to_nat (to_size_t (LEVEL (index rec))) = Some 0 ->
      put h (Some r) s = WaDivisionByZero) /\
     (forall n counts k row arr,
        current_level s < to_size_t (LEVEL (index rec)) \/ current_level s = 0 ->
        to_size_t (LEVEL (index rec)) < num_levels s ->
        num_workers_by_level s !! Z.to_nat (to_size_t (LEVEL (index rec))) = Some n ->
        1 <= n ->
        0 <= reactions_triggered_counter s ->
        reactions_triggered_counter s mod n <= num_workers s ->
        num_reactions_by_worker_by_level s !! Z.to_nat (to_size_t (LEVEL (index rec)))
          = Some counts ->
        counts !! Z.to_nat (reactions_triggered_counter s mod n) = Some k ->
        reactions_by_worker_by_level s !! Z.to_nat (to_size_t (LEVEL (index rec)))
          = Some row ->
        row !! Z.to_nat (reactions_triggered_counter s mod n) = Some arr ->
        Z.of_nat (length arr) <= k ->
        put h (Some r) s = WaOutOfBounds)).
Proof.
  split; [reflexivity|]. intros r rec Hr.
  set (level := to_size_t (LEVEL (index rec))).
  assert (Hgate : forall A (x y : wa_result A),
             current_level s < level \/ current_level s = 0 -> level < num_levels s ->
             (if negb ((level >? current_level s) || (current_level s =? 0)) then x
              else if negb (level <? num_levels s) then x else y) = y).
  { intros A x y Hc Hl.
    destruct (Z.gtb_spec level (current_level s)), (Z.eqb_spec (current_level s) 0);
      destruct (Z.ltb_spec level (num_levels s)); cbn; try done; lia. }
  split; [|split; [|split]].
  - intros Hle Hnz. unfold worker_assignments_put. rewrite Hr. fold level.
    destruct (Z.gtb_spec level (current_level s)); [lia|].
    by destruct (Z.eqb_spec (current_level s) 0).
  - intros Hge. unfold worker_assignments_put. rewrite Hr. fold level.
    destruct (negb _); [done|].
    by destruct (Z.ltb_spec level (num_levels s)); [lia|].
  - intros Hc Hl Hn. unfold worker_assignments_put. rewrite Hr. fold level.
    rewrite Hgate by done. by rewrite Hn.
  - intros n counts k row arr Hc Hl Hn Hn1 Hcnt Hw Hcounts Hk Hrow Harr Hfull.
    unfold worker_assignments_put. rewrite Hr. fold level.
    rewrite Hgate by done. rewrite Hn.
    destruct (Z.eqb_spec n 0); [lia|].
    assert (0 <= reactions_triggered_counter s mod n) by (apply Z.mod_pos_bound; lia).
    destruct (Z.leb_spec 0 (reactions_triggered_counter s mod n)); [|lia].
    cbn [num_workers set_counter].
    destruct (Z.leb_spec (reactions_triggered_counter s mod n) (num_workers s)); [|lia].
    cbn [andb negb num_reactions_by_worker_by_level set_counter].
    unfold read_count at 1. rewrite Hcounts, Hk.
    cbn [reactions_by_worker_by_level set_counts set_counter]. rewrite Hrow, Harr.
    by destruct (Z.ltb_spec k (Z.of_nat (length arr))); [lia|].
Qed.

Lemma take_last_not_null worker s s' : take_last worker s <> WaOk None s'.
Proof.
  unfold take_last.
  repeat (match goal with
          | |- context [match ?x with _ => _ end] => destruct x
          end); discriminate.
Qed.

(** X18. [worker_assignments_get_or_lock] returns [NULL] in exactly one
    situation: the worker had no reaction when it asked, it then took its
    lock, and it still has none.  It returns with the lock held, having
    changed nothing itself. *)
Theorem X18_get_or_lock_null worker s s' :
  get_or_lock worker s = WaOk None s' <->
  exists nrow nrow1,
    num_reactions_by_worker s = Some nrow /\
    read_count (num_reactions_by_worker_by_level s) nrow (Z.to_nat worker) = Some 0 /\
    s' = add_call (true, worker) (while_locking worker s) /\
    num_reactions_by_worker s' = Some nrow1 /\
    read_count (num_reactions_by_worker_by_level s') nrow1 (Z.to_nat worker) = Some 0.
Proof.
  unfold worker_assignments_get_or_lock. split.
  - destruct (num_reactions_by_worker s) as [nrow|] eqn:Hp0; [|done].
    destruct (read_count _ nrow _) as [n|] eqn:Hc0; [|done].
    destruct (Z.eqb_spec n 0) as [->|Hn]; cbn [negb].
    2:{ intros H. by apply take_last_not_null in H. }
    destruct (num_reactions_by_worker (add_call _ _)) as [nrow1|] eqn:Hp; [|done].
    destruct (read_count _ nrow1 _) as [n1|] eqn:Hc; [|done].
    destruct (Z.eqb_spec n1 0) as [->|Hn1].
    + intros [= <-]. exists nrow, nrow1. by rewrite Hp, Hc.
    + intros H. by apply take_last_not_null in H.
  - intros (nrow & nrow1 & Hp & Hc & -> & Hp1 & Hc1).
    rewrite Hp, Hc. cbn [Z.eqb negb]. by rewrite Hp1, Hc1.
Qed.

End Facts.

Lemma X16_put_then_get_witness :
  exists s1 s2,
    worker_assignments_put (fun i => i) {[ 1%positive := mk_reaction 0 inactive ]}
      (Some 1%positive) sample_assignments = WaOk tt s1 /\
    worker_assignments_get_or_lock (fun _ s => s)
      (reactions_triggered_counter sample_assignments mod 2) s1
      = WaOk (Some 1%positive) s2 /\
    num_reactions_by_worker_by_level s2
      = num_reactions_by_worker_by_level sample_assignments /\
    reactions_triggered_counter s2
      = to_size_t (reactions_triggered_counter sample_assignments + 1) /\
    worker_states_calls s2 = worker_states_calls sample_assignments.
Proof.
  apply (X16_put_then_get (fun i => i) (fun _ s => s)
           {[ 1%positive := mk_reaction 0 inactive ]} 1%positive (mk_reaction 0 inactive)
           sample_assignments 2 [0; 0] 0 [ [None; None]; [None; None] ] [None; None]);
    first [ reflexivity
          | vm_compute; first [ reflexivity | discriminate
                              | split; first [ reflexivity | discriminate ] ] ].
Defined.

Lemma X17_put_failures_witness :
  worker_assignments_put (fun i => i) {[ 1%positive := mk_reaction 7 inactive ]}
    (Some 1%positive) sample_assignments = WaAssertFailed.
Proof.
  apply (X17_put_failures (fun i => i) {[ 1%positive := mk_reaction 7 inactive ]}
           sample_assignments) with (rec := mk_reaction 7 inactive).
  - reflexivity.
  - vm_compute. discriminate.
Defined.

Lemma X18_get_or_lock_null_witness :
  worker_assignments_get_or_lock (fun _ s => s) 1 sample_assignments
  = WaOk None (add_call (true, 1) sample_assignments).
Proof.
  apply (X18_get_or_lock_null (fun _ s => s) 1 sample_assignments).
  exists 0%nat, 0%nat. repeat split; reflexivity.
Defined.

End WorkerAssignmentsFacts.

(** * Further properties of the scheduler, continued *)

(** X19. [lf_sched_init] on a fresh environment, whatever the parameters,
    yields a scheduler with exactly one, empty, reaction queue, the
    executing queue being that queue, no idle workers, no permits,
    [should_stop] clear and the level counter at 1; called again on the
    result, with any arguments, it changes nothing. *)
Theorem X19_lf_sched_init D nw params :
  exists s,
    lf_sched_init D None nw params = Some s /\
    triggered_reactions s = [ [] ] /\
    executing_reactions s = Some 0%nat /\
    number_of_workers s = nw /\
    number_of_idle_workers s = 0 /\
    semaphore s = 0 /\
    should_stop s = false /\
    next_reaction_level s = 1 /\
    (forall nw' params', lf_sched_init D (Some s) nw' params' = Some s).
Proof.
  unfold lf_sched_init, init_sched_instance.
  destruct params as [[[arr|] sz]|]; cbn;
    try destruct (sz =? 0); cbn;
    (eexists; split; [reflexivity|]; repeat split).
Qed.

Lemma notify_workers_run w slot (q : pqueue_t) :
  executing_reactions (sched w) = Some slot ->
  triggered_reactions (sched w) !! slot = Some q ->
  size_t_range (number_of_idle_workers (sched w)) ->
  _lf_sched_notify_workers w =
    let k := Z.min (number_of_idle_workers (sched w)) (pqueue_size q) in
    let s1 := set_number_of_idle_workers (number_of_idle_workers (sched w) - k) (sched w) in
    if 1 <? k
    then Ok tt (mk_world (heap w) (set_semaphore (semaphore s1 + (k - 1)) s1)
                  (log w ++ [EvSemRelease (k - 1)]))
    else Ok tt (mk_world (heap w) s1 (log w)).
Proof.
  intros Hex Hq Hrange.
  pose proof (pqueue_size_nonneg q) as Hsz.
  cbv zeta.
  set (i := number_of_idle_workers (sched w)) in *.
  set (k := Z.min i (pqueue_size q)).
  assert (Hk : 0 <= k <= i) by (unfold size_t_range in Hrange; lia).
  assert (Hik : to_size_t (i - k) = i - k)
    by (apply to_size_t_id; unfold size_t_range in *; lia).
  unfold _lf_sched_notify_workers, bind, get_sched, deref_executing_reactions,
    modify_sched, upd_sched, ret.
  rewrite Hex, Hq. cbn [snd]. rewrite LF_MIN_min. fold i. fold k. rewrite Hik.
  destruct (Z.gtb_spec k 1) as [Hgt|Hle]; destruct (Z.ltb_spec 1 k); try lia.
  - unfold lf_semaphore_release, bind, modify_sched, upd_sched, emit.
    cbn [heap sched log]. rewrite to_size_t_id; [reflexivity|].
    unfold size_t_range in *. lia.
  - reflexivity.
Qed.

Section Election.

Variable _lf_sched_advance_tag_locked : M bool.
Variable lf_semaphore_acquire : M unit.
Variables dfuel afuel : nat.

(** X20. The last worker to go idle is the one that advances.
    [_lf_sched_wait_for_work] adds one to [number_of_idle_workers]; if the
    sum equals [number_of_workers] the caller goes on to
    [_lf_scheduler_try_advance_tag_and_distribute], and otherwise it blocks
    on the semaphore, in both cases in a state that differs from the one it
    was called in only by the idle count. *)
Theorem X20_wait_for_work_elects_last w wn :
  0 <= number_of_idle_workers (sched w) < 2 ^ 31 - 1 ->
  let w1 := upd_sched (set_number_of_idle_workers
                         (number_of_idle_workers (sched w) + 1)) w in
  _lf_sched_wait_for_work _lf_sched_advance_tag_locked lf_semaphore_acquire
    dfuel afuel wn w
  = if number_of_idle_workers (sched w) + 1 =? number_of_workers (sched w)
    then _lf_scheduler_try_advance_tag_and_distribute
           _lf_sched_advance_tag_locked dfuel afuel w1
    else lf_semaphore_acquire w1.
Proof.
  intros Hidle w1. unfold _lf_sched_wait_for_work. unfold bind at 1.
  rewrite (atomic_add_fetch_small w) by done. fold w1.
  unfold bind at 1. unfold get_sched at 1.
  rewrite (to_size_t_id (number_of_idle_workers (sched w) + 1))
    by (unfold size_t_range, SIZE_MAX; lia).
  change (number_of_workers (sched w1)) with (number_of_workers (sched w)).
  by destruct (_ =? _).
Qed.

(** X21. A new tag with work.  Let the executing queue be empty and the
    level counter one past the last level.  If the tag advance does not
    reach the stop tag and leaves reactions in the queue,
    [_lf_scheduler_try_advance_tag_and_distribute] resets the level counter,
    advances the tag under [env->mutex], moves to level 1 with that queue
    as the executing queue, takes k = min(idle workers, queued reactions)
    workers off the idle count and hands out k - 1 permits. *)
Theorem X21_new_tag_distributes w w2 (q : pqueue_t) :
  executing_reactions (sched w) = Some 0%nat ->
  triggered_reactions (sched w) = [ [] ] ->
  next_reaction_level (sched w) = to_size_t (max_reaction_level (sched w) + 1) ->
  _lf_sched_advance_tag_locked
    (mk_world (heap w) (set_next_reaction_level 0 (sched w)) (log w ++ [EvLock env_mutex]))
    = Ok false w2 ->
  triggered_reactions (sched w2) = [q] -> q <> [] -> pqueue_size q < 2 ^ 31 ->
  next_reaction_level (sched w2) = 0 ->
  0 <= max_reaction_level (sched w2) <= SIZE_MAX ->
  size_t_range (number_of_idle_workers (sched w2)) ->
  exists w',
    _lf_scheduler_try_advance_tag_and_distribute _lf_sched_advance_tag_locked
      (S (S dfuel)) (S afuel) w = Ok tt w' /\
    let k := Z.min (number_of_idle_workers (sched w2)) (pqueue_size q) in
    (heap w' = heap w2 /\
     next_reaction_level (sched w') = 1 /\
     executing_reactions (sched w') = Some 0%nat /\
     triggered_reactions (sched w') = [q] /\
     number_of_idle_workers (sched w') = number_of_idle_workers (sched w2) - k /\
     semaphore (sched w') = semaphore (sched w2) + (if 1 <? k then k - 1 else 0) /\
     should_stop (sched w') = should_stop (sched w2) /\
     log w' = log w2 ++ [EvUnlock env_mutex]
                ++ (if 1 <? k then [EvSemRelease (k - 1)] else [])).
Proof.
  intros Hex Htr Hlvl Hadv Htr2 Hne Hsz Hlvl2 Hmax2 Hidle2.
  set (w3 := mk_world (heap w2) (sched w2) (log w2 ++ [EvUnlock env_mutex])).
  set (w4 := upd_sched (fun s => set_executing_reactions (Some 0%nat)
                                   (set_next_reaction_level 1 s)) w3).
  assert (Hdist : _lf_sched_distribute_ready_reactions (S (S dfuel)) w3
                  = Ok (pqueue_size q) w4).
  { rewrite (distribute_single_queue w3 q dfuel); try done.
    - cbn [sched w3]. rewrite Hlvl2.
      destruct (Z.ltb_spec (max_reaction_level (sched w2)) 0); [lia|].
      cbn [Z.eqb]. by destruct q.
    - cbn [sched w3]. rewrite Hlvl2. unfold SIZE_MAX. lia. }
  assert (Hpos : (pqueue_size q >? 0) = true).
  { destruct q; [done|]. apply Z.gtb_lt. unfold pqueue_size. cbn [length]. lia. }
  assert (Hnot : _lf_sched_notify_workers w4 = _lf_sched_notify_workers w4) by done.
  rewrite (notify_workers_run w4 0 q) in Hnot at 2;
    [|done|change (triggered_reactions (sched w4)) with (triggered_reactions (sched w2));
           by rewrite Htr2|done].
  cbv zeta in Hnot.
  assert (Hrun : _lf_scheduler_try_advance_tag_and_distribute _lf_sched_advance_tag_locked
                   (S (S dfuel)) (S afuel) w = _lf_sched_notify_workers w4).
  { destruct w as [h [tr ex sem nw idle lvl mx stop] l].
    cbn [sched heap log triggered_reactions executing_reactions next_reaction_level
         max_reaction_level] in *.
    subst ex tr lvl.
    unfold _lf_scheduler_try_advance_tag_and_distribute, advance_tag_loop, bind,
      deref_executing_reactions, c_assert, get_sched, modify_sched, upd_sched,
      LF_MUTEX_LOCK, LF_MUTEX_UNLOCK, emit, ret.
    cbn beta iota delta [sched heap log triggered_reactions next_reaction_level
      max_reaction_level executing_reactions semaphore number_of_workers
      number_of_idle_workers should_stop snd fst].
    change ([[]] !! 0%nat) with (Some ([] : pqueue_t)). cbn beta iota delta [snd fst].
    change (pqueue_size [] =? 0) with true. cbv beta iota.
    rewrite Z.eqb_refl. cbv beta iota. unfold set_next_reaction_level in Hadv |- *.
    cbn beta iota delta [sched heap log triggered_reactions next_reaction_level
      max_reaction_level executing_reactions semaphore number_of_workers
      number_of_idle_workers should_stop] in Hadv |- *.
    rewrite Hadv. cbv beta iota. fold w3. rewrite Hdist. by rewrite Hpos. }
  rewrite Hrun, Hnot.
  destruct (Z.ltb_spec 1 (Z.min (number_of_idle_workers (sched w4)) (pqueue_size q)))
    as [Hk|Hk].
  - eexists. split; [reflexivity|]. cbv zeta.
    change (number_of_idle_workers (sched w4)) with (number_of_idle_workers (sched w2)) in *.
    destruct (Z.ltb_spec 1 (Z.min (number_of_idle_workers (sched w2)) (pqueue_size q)));
      [|lia].
    cbn. rewrite <- ?app_assoc. cbn. rewrite Htr2. repeat split; lia.
  - eexists. split; [reflexivity|]. cbv zeta.
    change (number_of_idle_workers (sched w4)) with (number_of_idle_workers (sched w2)) in *.
    destruct (Z.ltb_spec 1 (Z.min (number_of_idle_workers (sched w2)) (pqueue_size q)));
      [lia|].
    cbn. rewrite Htr2. repeat split; lia.
Qed.

End Election.

Lemma X20_wait_for_work_elects_last_witness :
  _lf_sched_wait_for_work advance_to_stop acquire_now 1 1 0 sample_world
  = acquire_now (upd_sched (set_number_of_idle_workers 1) sample_world).
Proof.
  apply (X20_wait_for_work_elects_last advance_to_stop acquire_now 1 1 sample_world 0).
  simpl. lia.
Defined.

Lemma X21_new_tag_distributes_witness :
  exists w',
    _lf_scheduler_try_advance_tag_and_distribute (advance_with_work sample_world_idle)
      2 1 sample_world_drained = Ok tt w' /\
    let k := Z.min 4 3 in
    (heap w' = heap (upd_sched (set_next_reaction_level 0) sample_world_idle) /\
     next_reaction_level (sched w') = 1 /\
     executing_reactions (sched w') = Some 0%nat /\
     triggered_reactions (sched w') = [ [1%positive; 2%positive; 3%positive] ] /\
     number_of_idle_workers (sched w') = 4 - k /\
     semaphore (sched w') = 0 + (if 1 <? k then k - 1 else 0) /\
     should_stop (sched w') = false /\
     log w' = [] ++ [EvUnlock env_mutex]
                ++ (if 1 <? k then [EvSemRelease (k - 1)] else [])).
Proof.
  apply (X21_new_tag_distributes (advance_with_work sample_world_idle) 0 0
           sample_world_drained (upd_sched (set_next_reaction_level 0) sample_world_idle)
           [1%positive; 2%positive; 3%positive]);
    first [ reflexivity | discriminate
          | vm_compute; first [ reflexivity | discriminate
                              | split; first [ reflexivity | discriminate ] ] ].
Defined.
